(** * c2FmZQ server core: master-key vault and identity/contact layer

    A shallow embedding of package [masterkey] (key wrapping, CBC+HMAC record
    encryption) and of the user and contact operations of package [database],
    followed by the properties stated about them.

    Conventions.
    - Go [[]byte] is [list byte]; Go [int]/[int64] is [Z]; [len] is [Z.of_nat
      (length _)].
    - A Go call that may return an error, panic (slice out of range) or end the
      process ([log.Fatal]) returns an [outcome].
    - [crypto/rand.Reader] is an explicit entropy tape threaded through the
      functions that read it.
    - The primitives of Go's crypto libraries (SHA-256, the AES block function,
      the GCM AEAD) are interfaces with their functional laws; the modes built
      on top of them (HMAC, PBKDF2, CBC) are written out. *)

From Stdlib Require Import ZArith NArith List Bool Lia String Ascii.
From Stdlib Require Import Strings.Byte DecimalString.
From Stdlib Require DecimalPos.
From stdpp Require Import base option list gmap strings sorting.

Local Open Scope Z_scope.

(** ** Bytes, slices and outcomes *)

Abbreviation bytes := (list byte).

#[export] Instance byte_eq_decision : EqDecision byte := Byte.byte_eq_dec.

(** Go's [len]. *)
Definition len {A} (l : list A) : Z := Z.of_nat (length l).

(** The errors the modelled functions return, one constructor per error value
    built in the source. *)
Inductive error : Type :=
| ErrInvalidHmac      (* errors.New("invalid hmac") *)
| ErrAesNewCipher     (* fmt.Errorf("aes.NewCipher failed: %w", err) *)
| ErrKeySize          (* aes.KeySizeError, returned unwrapped by Read and Save *)
| ErrRandRead         (* the error of io.ReadFull(rand.Reader, _) *)
| ErrPaddingData      (* fmt.Errorf("padding data: %w", err) *)
| ErrCreatingKey      (* fmt.Errorf("creating key: %w", err) *)
| ErrGcmOpen          (* cipher: message authentication failed *)
| ErrGcmBlockSize     (* cipher.NewGCM on a block size other than 16 *)
| ErrReadFile         (* the error of os.ReadFile *)
| ErrMkdirAll         (* the error of os.MkdirAll *)
| ErrWriteFile        (* the error of ioutil.WriteFile *)
| ErrExist            (* os.ErrExist *)
| ErrNotExist         (* os.ErrNotExist *)
| ErrAlreadyDone      (* a commit closure called a second time *)
| ErrConflict         (* a record that is already held open *)
| ErrCorrupt.         (* a record that does not deserialise into the variable *)

#[export] Instance error_eq_decision : EqDecision error.
Proof. solve_decision. Defined.

(** What a call does: return a value, return an error, panic, or end the
    process through [log.Fatal]. *)
Inductive outcome (A : Type) : Type :=
| Ok (a : A)
| Err (e : error)
| Panic
| Fatal.
Arguments Ok {A} a.
Arguments Err {A} e.
Arguments Panic {A}.
Arguments Fatal {A}.

Definition obind {A B} (m : outcome A) (k : A -> outcome B) : outcome B :=
  match m with
  | Ok a => k a
  | Err e => Err e
  | Panic => Panic
  | Fatal => Fatal
  end.

Notation "'do' x <- m ; k" := (obind m (fun x => k))
  (at level 10, x name, m at level 100, k at level 200).

(** [wrapErr e m]: [if err != nil { return nil, <e> }] around a call. *)
Definition wrapErr {A} (e : error) (m : outcome A) : outcome A :=
  match m with
  | Err _ => Err e
  | other => other
  end.

Definition is_Ok {A} (m : outcome A) : bool :=
  match m with Ok _ => true | _ => false end.

(** The slice expression [l[lo:hi]]. It panics unless [0 <= lo <= hi <= len l]
    (capacity is taken equal to length; where Go would accept [hi] between
    length and capacity, the next slice expression of each function below
    panics all the same). *)
Definition slice (lo hi : Z) (l : bytes) : outcome bytes :=
  if (0 <=? lo) && (lo <=? hi) && (hi <=? len l)
  then Ok (take (Z.to_nat (hi - lo)) (drop (Z.to_nat lo) l))
  else Panic.

(** The index expression [l[i]]. *)
Definition index (i : Z) (l : bytes) : outcome byte :=
  if (0 <=? i) && (i <? len l)
  then match l !! Z.to_nat i with Some b => Ok b | None => Panic end
  else Panic.

(** [make([]byte, n)]. *)
Definition make (n : Z) : outcome bytes :=
  if 0 <=? n then Ok (repeat x00 (Z.to_nat n)) else Panic.

(** The conversions [byte(n)] and [int(b)]. *)
Definition byte_of_int (n : Z) : byte :=
  match Byte.of_N (Z.to_N (n mod 256)) with
  | Some b => b
  | None => x00
  end.

Definition int_of_byte (b : byte) : Z := Z.of_N (Byte.to_N b).

(** Bytewise exclusive or, on the bits of each byte. *)
Definition byte_xor (a b : byte) : byte :=
  let '(a0, (a1, (a2, (a3, (a4, (a5, (a6, a7))))))) := Byte.to_bits a in
  let '(b0, (b1, (b2, (b3, (b4, (b5, (b6, b7))))))) := Byte.to_bits b in
  Byte.of_bits (xorb a0 b0, (xorb a1 b1, (xorb a2 b2, (xorb a3 b3,
               (xorb a4 b4, (xorb a5 b5, (xorb a6 b6, xorb a7 b7))))))).

Fixpoint xor_bytes (a b : bytes) : bytes :=
  match a, b with
  | x :: a', y :: b' => byte_xor x y :: xor_bytes a' b'
  | _, _ => []
  end.

(** The entropy tape behind [crypto/rand.Reader]: [io.ReadFull(rand.Reader, buf)]
    takes [len buf] bytes from it, and fails when the source cannot supply them. *)
Definition Rand := bytes.

Definition randM (A : Type) : Type := Rand -> outcome (A * Rand).

Definition ReadFull (n : Z) : randM bytes := fun r =>
  if (0 <=? n) && (n <=? len r)
  then Ok (take (Z.to_nat n) r, drop (Z.to_nat n) r)
  else Err ErrRandRead.

(** ** Interfaces of the cryptographic primitives *)

(** [sha256.New]: a hash with 32-byte digests and 64-byte blocks. *)
Class SHA256 := {
  sha256_Sum : bytes -> bytes;
  sha256_Size : forall m, length (sha256_Sum m) = 32%nat
}.

(** Go's [cipher.Block]. *)
Record Block := {
  BlockSize : Z;
  Block_Encrypt : bytes -> bytes;
  Block_Decrypt : bytes -> bytes
}.

Definition aes_BlockSize : Z := 16.

Definition aes_KeySizeOk (k : bytes) : bool :=
  (len k =? 16) || (len k =? 24) || (len k =? 32).

(** The AES block function for a key: a permutation of the 16-byte blocks. *)
Class AES := {
  aes_encryptBlock : bytes -> bytes -> bytes;
  aes_decryptBlock : bytes -> bytes -> bytes;
  aes_encryptBlock_Size : forall k b,
    aes_KeySizeOk k = true -> length b = 16%nat ->
    length (aes_encryptBlock k b) = 16%nat;
  aes_decrypt_encrypt : forall k b,
    aes_KeySizeOk k = true -> length b = 16%nat ->
    aes_decryptBlock k (aes_encryptBlock k b) = b
}.

(** [cipher.NewGCM(block)] with the standard 12-byte nonce: [Seal] and [Open]
    (without the [dst] prefix), and the law that [Open] undoes [Seal]. *)
Class GCM := {
  gcm_Seal : Block -> bytes -> bytes -> bytes -> bytes;
  gcm_Open : Block -> bytes -> bytes -> bytes -> option bytes;
  gcm_Open_Seal : forall b nonce plaintext ad,
    BlockSize b = 16 -> length nonce = 12%nat ->
    gcm_Open b nonce (gcm_Seal b nonce plaintext ad) ad = Some plaintext
}.

Definition gcm_NonceSize : Z := 12.

(** ** Modes built on the primitives (Go's crypto/hmac, x/crypto/pbkdf2,
    crypto/cipher) *)

(** [hmac.New(sha256.New, key)]: a key longer than the 64-byte block is hashed
    first; the key is then zero-padded to the block and xored with the inner
    and outer pad bytes. *)
Record hmac := { ipad : bytes; opad : bytes }.

Definition hmac_New `{SHA256} (key : bytes) : hmac :=
  let key := if 64 <? len key then sha256_Sum key else key in
  let padded := key ++ repeat x00 (64 - length key) in
  {| ipad := map (byte_xor x36) padded;
     opad := map (byte_xor x5c) padded |}.

(** [mac.Write(msg); mac.Sum(nil)]. *)
Definition hmac_Sum `{SHA256} (h : hmac) (msg : bytes) : bytes :=
  sha256_Sum (opad h ++ sha256_Sum (ipad h ++ msg)).

(** [hmac.Equal]: equality of the two byte strings. *)
Definition hmac_Equal (a b : bytes) : bool := bool_decide (a = b).

(** [binary.LittleEndian.PutUint32] / [Uint32] and the big-endian block index
    of PBKDF2. *)
Definition PutUint32_le (n : Z) : bytes :=
  [byte_of_int n; byte_of_int (n / 256); byte_of_int (n / 65536);
   byte_of_int (n / 16777216)].

Definition Uint32_le (b : bytes) : outcome Z :=
  match b with
  | b0 :: b1 :: b2 :: b3 :: _ =>
      Ok (int_of_byte b0 + 256 * int_of_byte b1 + 65536 * int_of_byte b2
          + 16777216 * int_of_byte b3)
  | _ => Panic
  end.

Definition PutUint32_be (n : Z) : bytes :=
  [byte_of_int (n / 16777216); byte_of_int (n / 65536); byte_of_int (n / 256);
   byte_of_int n].

(** [pbkdf2.Key(password, salt, iter, keyLen, sha256.New)]: block [i] is
    [U_1 xor ... xor U_iter] with [U_1 = PRF(salt || i)] and
    [U_n = PRF(U_(n-1))], the PRF being HMAC keyed with the password. *)
Definition pbkdf2_step `{SHA256} (prf : hmac) (UT : bytes * bytes) : bytes * bytes :=
  let U := hmac_Sum prf (fst UT) in (U, xor_bytes (snd UT) U).

Definition pbkdf2_block `{SHA256} (prf : hmac) (salt : bytes) (iter : Z) (i : Z) : bytes :=
  let U1 := hmac_Sum prf (salt ++ PutUint32_be i) in
  snd (N.iter (Z.to_N (iter - 1)) (pbkdf2_step prf) (U1, U1)).

Definition pbkdf2_Key `{SHA256} (password salt : bytes) (iter keyLen : Z) : bytes :=
  let prf := hmac_New password in
  let numBlocks := (keyLen + 32 - 1) / 32 in
  take (Z.to_nat keyLen)
       (concat (map (fun i => pbkdf2_block prf salt iter (Z.of_nat i))
                    (seq 1 (Z.to_nat numBlocks)))).

(** [aes.NewCipher(key)]: a key of 16, 24 or 32 bytes, else [KeySizeError]. *)
Definition aesBlock `{AES} (key : bytes) : Block :=
  {| BlockSize := aes_BlockSize;
     Block_Encrypt := aes_encryptBlock key;
     Block_Decrypt := aes_decryptBlock key |}.

Definition aes_NewCipher `{AES} (key : bytes) : outcome Block :=
  if aes_KeySizeOk key then Ok (aesBlock key) else Err ErrKeySize.

(** [cipher.NewGCM(block)]: refuses a block size other than 16. *)
Definition cipher_NewGCM (b : Block) : outcome Block :=
  if BlockSize b =? 16 then Ok b else Err ErrGcmBlockSize.

(** The input of [CryptBlocks] cut into [n] blocks of [bs] bytes. *)
Fixpoint blocks (bs : nat) (n : nat) (l : bytes) : list bytes :=
  match n with
  | O => []
  | S n' => take bs l :: blocks bs n' (drop bs l)
  end.

(** CBC chaining: [c_i = E(p_i xor c_(i-1))], [p_i = D(c_i) xor c_(i-1)],
    with [c_0] the IV. *)
Fixpoint cbc_encrypt (b : Block) (prev : bytes) (ps : list bytes) : list bytes :=
  match ps with
  | [] => []
  | p :: ps' =>
      let c := Block_Encrypt b (xor_bytes p prev) in
      c :: cbc_encrypt b c ps'
  end.

Fixpoint cbc_decrypt (b : Block) (prev : bytes) (cs : list bytes) : list bytes :=
  match cs with
  | [] => []
  | c :: cs' => xor_bytes (Block_Decrypt b c) prev :: cbc_decrypt b c cs'
  end.

(** [cipher.NewCBCEncrypter] / [cipher.NewCBCDecrypter]: panic unless the IV
    has the block's size. *)
Record BlockMode := { mode_block : Block; mode_iv : bytes; mode_decrypt : bool }.

Definition cipher_NewCBCEncrypter (b : Block) (iv : bytes) : outcome BlockMode :=
  if len iv =? BlockSize b
  then Ok {| mode_block := b; mode_iv := iv; mode_decrypt := false |}
  else Panic.

Definition cipher_NewCBCDecrypter (b : Block) (iv : bytes) : outcome BlockMode :=
  if len iv =? BlockSize b
  then Ok {| mode_block := b; mode_iv := iv; mode_decrypt := true |}
  else Panic.

(** [mode.CryptBlocks(dst, src)]: panics when [src] is not a whole number of
    blocks or [dst] is shorter than [src]; returns the new content of [dst]. *)
Definition CryptBlocks (m : BlockMode) (dst src : bytes) : outcome bytes :=
  let bs := BlockSize (mode_block m) in
  if negb (0 <? bs) then Panic
  else if negb (len src mod bs =? 0) then Panic
  else if len dst <? len src then Panic
  else
    let chunks := blocks (Z.to_nat bs) (Z.to_nat (len src / bs)) src in
    let out := concat ((if mode_decrypt m then cbc_decrypt else cbc_encrypt)
                         (mode_block m) (mode_iv m) chunks) in
    Ok (out ++ drop (length src) dst).

Notation "'do' ' p <- m ; k" := (obind m (fun x => match x with p => k end))
  (at level 10, p strict pattern, m at level 100, k at level 200).

(** Modelled from the spec: package [log] is not among the sources. The spec
    has a missing master key "fatal -- the process aborts rather than proceed",
    so [log.Fatal] and [log.Fatalf] end the process: nothing after them runs
    and the caller receives neither a value nor an error. *)
Definition log_Fatal {A} : outcome A := Fatal.

(** The file system: the files that [os.ReadFile] finds, and what the
    operating system answers when a directory is to be made and when a file
    is to be written. Directories are not recorded among the files. *)
Record FS := { fs_files : gmap string bytes;
               fs_mkdir : string -> bool;
               fs_writable : string -> bool }.

Definition os_ReadFile (file : string) (fs : FS) : outcome bytes :=
  match fs_files fs !! file with
  | Some b => Ok b
  | None => Err ErrReadFile
  end.

(** The loop of [filepath.Split], with [/] as the separator:
    [i := len(path) - 1; for i >= 0 && !os.IsPathSeparator(path[i]) { i-- }].
    The result is [i + 1]. *)
Fixpoint lastSeparator (path : string) (n : nat) : nat :=
  match n with
  | O => O
  | S i =>
      match String.get i path with
      | Some c => if Ascii.eqb c "/"%char then n else lastSeparator path i
      | None => lastSeparator path i
      end
  end.

(** [filepath.Split(path)] splits [path] immediately following the final
    separator, into a directory and a file name; without a separator the
    directory is empty. *)
Definition filepath_Split (path : string) : string * string :=
  let i := lastSeparator path (String.length path) in
  (substring 0 i path, substring i (String.length path - i) path).

(** [os.MkdirAll(path, 0700)]. The empty path cannot be made
    ([mkdir : no such file or directory]); whether another path can is what
    the file system answers. *)
Definition os_MkdirAll (path : string) (fs : FS) : outcome unit :=
  if bool_decide (path = EmptyString) then Err ErrMkdirAll
  else if fs_mkdir fs path then Ok tt
  else Err ErrMkdirAll.

(** [ioutil.WriteFile(file, data, 0600)]. A path whose last element is empty
    names no file; whether another path can be written is what the file
    system answers. *)
Definition os_WriteFile (file : string) (data : bytes) (fs : FS) : outcome FS :=
  if bool_decide (snd (filepath_Split file) = EmptyString) then Err ErrWriteFile
  else if fs_writable fs file
  then Ok {| fs_files := <[file := data]> (fs_files fs);
             fs_mkdir := fs_mkdir fs;
             fs_writable := fs_writable fs |}
  else Err ErrWriteFile.

(** ** Package masterkey *)

Module masterkey.

(** The size of an encrypted key. *)
Definition EncryptedKeySize : Z := 96.

Record MasterKey := { key : bytes }.

(** Create creates a new master key. *)
Definition Create : randM MasterKey := fun r =>
  do '(k, r) <- ReadFull 32 r;
  Ok ({| key := k |}, r).

(** Read reads an encrypted master key from file and decrypts it. *)
Definition Read `{SHA256, AES, GCM} (passphrase file : string) (fs : FS)
  : outcome MasterKey :=
  do b <- os_ReadFile file fs;
  do version <- index 0 b;
  do b <- slice 1 (len b) b;
  if negb (int_of_byte version =? 1) then log_Fatal else
  do salt <- slice 0 16 b;
  do b <- slice 16 (len b) b;
  do numIterBin <- slice 0 4 b;
  do numIter <- Uint32_le numIterBin;
  do b <- slice 4 (len b) b;
  let dk := pbkdf2_Key (list_byte_of_string passphrase) salt numIter 32 in
  do block <- aes_NewCipher dk;
  do gcm <- cipher_NewGCM block;
  do nonce <- slice 0 gcm_NonceSize b;
  do encMasterKey <- slice gcm_NonceSize (len b) b;
  match gcm_Open gcm nonce encMasterKey [] with
  | Some masterKey => Ok {| key := masterKey |}
  | None => Err ErrGcmOpen
  end.

(** Save encrypts the key with passphrase and saves it to file. *)
Definition Save `{SHA256, AES, GCM} (mk : MasterKey) (passphrase file : string)
  (fs : FS) : randM FS := fun r =>
  do '(salt, r) <- ReadFull 16 r;
  let numIter := if bool_decide (passphrase = EmptyString) then 10 else 200000 in
  let numIterBin := PutUint32_le numIter in
  let dk := pbkdf2_Key (list_byte_of_string passphrase) salt numIter 32 in
  do block <- aes_NewCipher dk;
  do gcm <- cipher_NewGCM block;
  do '(nonce, r) <- ReadFull gcm_NonceSize r;
  let encMasterKey := nonce ++ gcm_Seal gcm nonce (key mk) [] in
  let data := [x01] ++ salt ++ numIterBin ++ encMasterKey in
  let dir := fst (filepath_Split file) in
  do ok <- os_MkdirAll dir fs;
  do fs <- os_WriteFile file data fs;
  Ok (fs, r).

(** Hash returns a hash of b. *)
Definition Hash `{SHA256} (mk : MasterKey) (b : bytes) : bytes :=
  hmac_Sum (hmac_New (key mk)) b.

(** Decrypt decrypts data that was encrypted with Encrypt and the same master
    key. *)
Definition Decrypt `{SHA256, AES} (mk : MasterKey) (data : bytes) : outcome bytes :=
  if len (key mk) =? 0 then log_Fatal else
  do iv <- slice 0 aes_BlockSize data;
  do encData <- slice aes_BlockSize (len data - 32) data;
  do hm <- slice (len data - 32) (len data) data;
  if negb (hmac_Equal hm (Hash mk encData)) then Err ErrInvalidHmac else
  do block <- wrapErr ErrAesNewCipher (aes_NewCipher (key mk));
  do mode <- cipher_NewCBCDecrypter block iv;
  do dec <- make (len data - aes_BlockSize - 32);
  do dec <- CryptBlocks mode dec encData;
  do padSize <- index 0 dec;
  let padSize := int_of_byte padSize in
  slice 1 (len dec - padSize) dec.

(** Encrypt encrypts data using the master key. *)
Definition Encrypt `{SHA256, AES} (mk : MasterKey) (data : bytes) : randM bytes :=
  fun r =>
  if len (key mk) =? 0 then log_Fatal else
  do block <- wrapErr ErrAesNewCipher (aes_NewCipher (key mk));
  do '(iv, r) <- ReadFull aes_BlockSize r;
  let padSize := 16 - (len data + 1) mod 16 in
  (* pData[0] = byte(padSize); copy(pData[1:], data); the rest is read from
     rand.Reader *)
  do '(tail, r) <- wrapErr ErrPaddingData
                     (ReadFull (len data + padSize + 1 - (len data + 1)) r);
  let pData := [byte_of_int padSize] ++ data ++ tail in
  do mode <- cipher_NewCBCEncrypter block iv;
  do encBuf <- make (len pData);
  do encData <- CryptBlocks mode encBuf pData;
  let hmac := Hash mk encData in
  (* out := make(len(iv)+len(encData)+len(hmac)), filled by three copies *)
  Ok (iv ++ encData ++ hmac, r).

(** NewEncryptedKey creates a new encrypted AES-256 key. The size of the
    encrypted key is EncryptedKeySize. *)
Definition NewEncryptedKey `{SHA256, AES} (mk : MasterKey) : randM bytes := fun r =>
  do '(k, r) <- wrapErr ErrCreatingKey (ReadFull 32 r);
  Encrypt mk k r.

End masterkey.

(** ** Package database: users and contacts *)

(** [fmt.Sprintf("%d", n)]. *)
Definition show_Z (n : Z) : string := NilZero.string_of_int (Z.to_int n).

(** Go's standard encoders, used only to build strings stored in records. *)
Class Encoding := {
  hex_EncodeToString : bytes -> string;
  base64_EncodeToString : bytes -> string
}.

Module database.

(** This is used internally for the list of all users in the system. *)
Record userList := { ul_UserID : Z; ul_Email : string }.

(** Encapsulates all the information about a user account. The key types of
    package stingle and token are kept as the bytes of the key. *)
Record User := {
  UserID : Z;
  Email : string;
  HashedPassword : string;
  Salt : string;
  HomeFolder : string;
  KeyBundle : string;
  IsBackup : string;
  ServerKey : bytes;
  PublicKey : bytes;
  TokenKey : bytes
}.

(** Encapsulates the information about a user's contact (another user). *)
Record Contact := {
  c_UserID : Z;
  c_Email : string;
  c_PublicKey : string;
  c_DateUsed : Z;
  c_DateModified : Z
}.

(** Modelled from the spec: the types [DeleteEvent] and the constants
    [stingle.DeleteEvent...] are not among the sources. The spec gives a
    delete event as [{file, albumID?, date(ms), type}] with [type] one of
    file-gallery, file-trash, album-file, album, contact, album-from. *)
Inductive DeleteEventType :=
| DeleteEventGallery | DeleteEventTrash | DeleteEventAlbumFile
| DeleteEventAlbum | DeleteEventContact | DeleteEventAlbumFrom.

Record DeleteEvent := {
  de_File : string;
  de_AlbumID : string;
  de_Date : Z;
  de_Type : DeleteEventType
}.

(** A user's contact list information. A nil map is the empty map. *)
Record ContactList := {
  Contacts : gmap Z Contact;   (* all the user's contacts, keyed by UserID *)
  In : gmap Z bool;            (* all users who have this user in their list *)
  Deletes : list DeleteEvent   (* delete events for contacts *)
}.

(** Modelled from the spec: [stingle.Contact] and [number] are not among the
    sources. The spec has all numbers of the wire protocol "transported as
    strings", and the tests compare them with decimal strings
    ("dateModified": "1000"): [number] renders an integer in decimal and the
    numeric fields of [stingle.Contact] hold such strings. *)
Definition number (n : Z) : string := show_Z n.

Record stingle_Contact := {
  s_UserID : string;
  s_Email : string;
  s_PublicKey : string;
  s_DateUsed : string;
  s_DateModified : string
}.

(** Modelled from the spec: [stingle.GallerySet], [TrashSet] and [AlbumSet]
    are not among the sources; the spec has a set tag as one of Gallery, Trash,
    Album. *)
Inductive SetTag := GallerySet | TrashSet | AlbumSet.

(** The records of the object store that the user and contact operations
    touch. [d.filePath] and [d.fileSetPath] are not among the sources; a file
    name is kept as the record it names, distinct records having distinct
    names:
    - [userListFile]: users.dat
    - [userFile uid]: home/<uid>/user.dat
    - [contactListFile uid]: home/<uid>/contact-list.dat
    - [fileSetFile uid set]: the user's gallery or trash file-set
    - [albumManifestFile uid]: home/<uid>/album-manifest.dat *)
Inductive file :=
| userListFile
| userFile (uid : Z)
| contactListFile (uid : Z)
| fileSetFile (uid : Z) (set : SetTag)
| albumManifestFile (uid : Z).

(** What a record holds. [FileSet{}] and [AlbumManifest{}] only occur as the
    empty values [AddUser] creates. *)
Inductive value :=
| VUserList (ul : list userList)
| VUser (u : User)
| VContactList (cl : ContactList)
| VFileSet
| VAlbumManifest.

#[global] Instance SetTag_eq_decision : EqDecision SetTag.
Proof. solve_decision. Defined.

#[global] Instance file_eq_decision : EqDecision file.
Proof. solve_decision. Defined.

Definition file_encode (f : file) : Z + (Z + (Z + (Z * nat + Z))) :=
  match f with
  | userListFile => inl 0
  | userFile uid => inr (inl uid)
  | contactListFile uid => inr (inr (inl uid))
  | fileSetFile uid GallerySet => inr (inr (inr (inl (uid, 0%nat))))
  | fileSetFile uid TrashSet => inr (inr (inr (inl (uid, 1%nat))))
  | fileSetFile uid AlbumSet => inr (inr (inr (inl (uid, 2%nat))))
  | albumManifestFile uid => inr (inr (inr (inr uid)))
  end.

Definition file_decode (x : Z + (Z + (Z + (Z * nat + Z)))) : file :=
  match x with
  | inl _ => userListFile
  | inr (inl uid) => userFile uid
  | inr (inr (inl uid)) => contactListFile uid
  | inr (inr (inr (inl (uid, O)))) => fileSetFile uid GallerySet
  | inr (inr (inr (inl (uid, S O)))) => fileSetFile uid TrashSet
  | inr (inr (inr (inl (uid, _)))) => fileSetFile uid AlbumSet
  | inr (inr (inr (inr uid))) => albumManifestFile uid
  end.

#[global] Instance file_countable : Countable file.
Proof.
  apply (inj_countable' file_encode file_decode).
  intros [| | |uid []|]; reflexivity.
Defined.

(** What the operations leave in the log of the store and of the entropy
    source, in order. *)
Inductive event :=
| EvReadDataFile (f : file)
| EvSaveDataFile (f : file)
| EvCreateEmptyFile (f : file)
| EvOpenForUpdate (fs : list file)
| EvCommit (fs : list file)
| EvRollback (fs : list file)
| EvRandInt (n : Z).

(** The state the operations run in: the records of the store, the records
    held open for update, the entropy tape behind [crypto/rand.Reader], the
    wall clock as the value of each successive reading, and the log. *)
Record World := {
  store : gmap file value;
  locks : gset file;
  rand : Rand;
  clock : nat -> Z;
  clock_reads : nat;
  trace : list event
}.

Definition set_store (s : gmap file value) (w : World) : World :=
  {| store := s; locks := locks w; rand := rand w; clock := clock w;
     clock_reads := clock_reads w; trace := trace w |}.
Definition set_locks (l : gset file) (w : World) : World :=
  {| store := store w; locks := l; rand := rand w; clock := clock w;
     clock_reads := clock_reads w; trace := trace w |}.
Definition set_rand (r : Rand) (w : World) : World :=
  {| store := store w; locks := locks w; rand := r; clock := clock w;
     clock_reads := clock_reads w; trace := trace w |}.
Definition log_event (e : event) (w : World) : World :=
  {| store := store w; locks := locks w; rand := rand w; clock := clock w;
     clock_reads := clock_reads w; trace := trace w ++ [e] |}.

(** An operation: it runs in a world, leaves a world, and returns, fails,
    panics or ends the process. What it wrote before failing stays written. *)
Definition dbM (A : Type) : Type := World -> outcome A * World.

Definition dret {A} (a : A) : dbM A := fun w => (Ok a, w).

Definition dfail {A} (e : error) : dbM A := fun w => (Err e, w).

Definition dbind {A B} (m : dbM A) (k : A -> dbM B) : dbM B := fun w =>
  match m w with
  | (Ok a, w') => k a w'
  | (Err e, w') => (Err e, w')
  | (Panic, w') => (Panic, w')
  | (Fatal, w') => (Fatal, w')
  end.

Notation "'run' x <- m ; k" := (dbind m (fun x => k))
  (at level 10, x name, m at level 100, k at level 200).

(** [nowInMS()]: the next reading of the clock. *)
Definition nowInMS : dbM Z := fun w =>
  (Ok (clock w (clock_reads w)),
   {| store := store w; locks := locks w; rand := rand w; clock := clock w;
      clock_reads := S (clock_reads w); trace := trace w |}).

(** *** The object store

    Modelled from the spec: package storage is not among the sources. The
    spec (4.2) gives
    - [read(name, out)]: load and deserialise;
    - [write(name, value)]: serialise and put in place;
    - [createEmpty(name, zeroValue)]: fail if [name] already exists;
    - [openForUpdate(name, out) -> commit]: take the exclusive lock on [name],
      load the current value, return a commit closure; [commit(apply, errOut)]
      writes the new value and releases on [apply = true], releases without
      writing on [false]; nested opening of the same name is forbidden;
    - [openManyForUpdate(names, outs) -> commit]: the same over a set, the
      commit writing every file or none.
    A closure called again after it has run does nothing and returns an
    error. A name that is already held, or that is given twice, is a
    conflict; a name that has no record is not found. *)

Definition ReadDataFile (f : file) : dbM value := fun w =>
  match store w !! f with
  | Some v => (Ok v, log_event (EvReadDataFile f) w)
  | None => (Err ErrNotExist, w)
  end.

Definition SaveDataFile (f : file) (v : value) : dbM unit := fun w =>
  (Ok tt, log_event (EvSaveDataFile f) (set_store (<[f := v]> (store w)) w)).

Definition CreateEmptyFile (f : file) (v : value) : dbM unit := fun w =>
  match store w !! f with
  | Some _ => (Err ErrExist, w)
  | None =>
      (Ok tt, log_event (EvCreateEmptyFile f) (set_store (<[f := v]> (store w)) w))
  end.

Definition OpenManyForUpdate (fs : list file) : dbM (list value) := fun w =>
  if negb (bool_decide (NoDup fs))
     || bool_decide (Exists (fun f => f ∈ locks w) fs)
  then (Err ErrConflict, w)
  else match mapM (fun f => store w !! f) fs with
       | Some vs =>
           (Ok vs, log_event (EvOpenForUpdate fs)
                     (set_locks (list_to_set fs ∪ locks w) w))
       | None => (Err ErrNotExist, w)
       end.

Definition OpenForUpdate (f : file) : dbM value := fun w =>
  match OpenManyForUpdate [f] w with
  | (Ok [v], w') => (Ok v, w')
  | (Ok _, w') => (Panic, w')
  | (Err e, w') => (Err e, w')
  | (Panic, w') => (Panic, w')
  | (Fatal, w') => (Fatal, w')
  end.

(** The store after the values [vs] are written to the files [fs]. *)
Fixpoint write_all (fs : list file) (vs : list value) (s : gmap file value)
  : gmap file value :=
  match fs, vs with
  | f :: fs', v :: vs' => <[f := v]> (write_all fs' vs' s)
  | _, _ => s
  end.

(** The closure returned by [OpenManyForUpdate fs], called as
    [commit(apply, errp)] when the opened variables hold [vs]. *)
Definition commit (fs : list file) (vs : list value) (apply : bool)
  : dbM unit := fun w =>
  if negb (bool_decide (Forall (fun f => f ∈ locks w) fs))
  then (Err ErrAlreadyDone, w)
  else
    let w := set_locks (locks w ∖ list_to_set fs) w in
    if apply
    then (Ok tt, log_event (EvCommit fs) (set_store (write_all fs vs (store w)) w))
    else (Ok tt, log_event (EvRollback fs) w).

(** [defer commit(b, &retErr)] around a function body that ends with result
    [retErr], the opened variables then holding [vs]. The deferred call runs
    when the body returns and when it panics (the named result is then nil),
    not when the process has ended; an error it returns is dropped. *)
Definition deferred_commit {A} (fs : list file) (apply : bool)
    (body : World -> outcome A * list value * World) : dbM A := fun w =>
  let '(retErr, vs, w) := body w in
  match retErr with
  | Fatal => (retErr, w)
  | _ =>
      let '(_, w) := commit fs vs apply w in
      (retErr, w)
  end.

(** *** Users *)

Record Database := { masterKey : masterkey.MasterKey }.

(** Modelled from the spec: [d.Hash] is not among the sources; the vault's
    [hash(bytes) -> 32 bytes] under the master key. *)
Definition Database_Hash `{SHA256} (d : Database) (b : bytes) : bytes :=
  masterkey.Hash (masterKey d) b.

Definition MaxInt32 : Z := 2147483647.

(** [rand.Int(rand.Reader, max)] of crypto/rand for a [max] whose predecessor
    has 31 bits, as [MaxInt32 - 1000000] has: a candidate is four bytes read
    big-endian with the top bit cleared; candidates not below [max] are
    dropped and the next four bytes are read. *)
Fixpoint rand_Int31 (max : Z) (r : Rand) : outcome (Z * Rand) :=
  match r with
  | b0 :: b1 :: b2 :: b3 :: rest =>
      let n := (int_of_byte b0 mod 128) * 16777216 + int_of_byte b1 * 65536
               + int_of_byte b2 * 256 + int_of_byte b3 in
      if n <? max then Ok (n, rest) else rand_Int31 max rest
  | _ => Err ErrRandRead
  end.

Definition rand_Int (max : Z) : dbM Z := fun w =>
  match rand_Int31 max (rand w) with
  | Ok (n, r) => (Ok n, log_event (EvRandInt n) (set_rand r w))
  | Err e => (Err e, set_rand [] w)
  | Panic => (Panic, w)
  | Fatal => (Fatal, w)
  end.

(** The loop of [AddUser] that draws user IDs until one is not in [uids]. Each
    turn reads at least four bytes of the tape, so [fuel] above the tape's
    length is never used up ([None]). *)
Fixpoint pickUserID (fuel : nat) (uids : gset Z) (w : World)
  : option (outcome Z * World) :=
  match fuel with
  | O => None
  | S fuel' =>
      match rand_Int (MaxInt32 - 1000000) w with
      | (Ok bi, w') =>
          let uid := bi + 1000000 in
          if bool_decide (uid ∈ uids) then pickUserID fuel' uids w'
          else Some (Ok uid, w')
      | (Err e, w') => Some (Err e, w')
      | (Panic, w') => Some (Panic, w')
      | (Fatal, w') => Some (Fatal, w')
      end
  end.

(** Modelled from the spec: [stingle.MakeSecretKey] and [token.MakeKey] are
    not among the sources; the spec has them make the per-user server secret
    key and token key. Each is a fresh 32-byte key read from the entropy
    source; they return no error, so a failing source makes them panic. *)
Definition MakeKey : dbM bytes := fun w =>
  match ReadFull 32 (rand w) with
  | Ok (k, r) => (Ok k, set_rand r w)
  | _ => (Panic, w)
  end.

(** The part of [AddUser] after the user ID is chosen: the user record and
    the four empty home records. *)
Definition AddUser_records `{SHA256, Encoding} (d : Database) (u : User) (uid : Z)
  : dbM unit :=
  run serverKey <- MakeKey;
  run tokenKey <- MakeKey;
  let u := {| UserID := uid; Email := Email u;
              HashedPassword := HashedPassword u; Salt := Salt u;
              HomeFolder := hex_EncodeToString
                              (Database_Hash d (list_byte_of_string (Email u)));
              KeyBundle := KeyBundle u; IsBackup := IsBackup u;
              ServerKey := serverKey; PublicKey := PublicKey u;
              TokenKey := tokenKey |} in
  run _ <- SaveDataFile (userFile uid) (VUser u);
  run _ <- CreateEmptyFile (fileSetFile uid TrashSet) VFileSet;
  run _ <- CreateEmptyFile (fileSetFile uid GallerySet) VFileSet;
  run _ <- CreateEmptyFile (albumManifestFile uid) VAlbumManifest;
  run _ <- CreateEmptyFile (contactListFile uid)
             (VContactList {| Contacts := ∅; In := ∅; Deletes := [] |});
  dret tt.

(** The body of [AddUser] between [OpenForUpdate] and the deferred commit;
    [ul] is the list read from users.dat. *)
Definition AddUser_body `{SHA256, Encoding} (d : Database) (u : User)
    (ul : list userList) : World -> outcome unit * list value * World := fun w =>
  if existsb (fun i => bool_decide (ul_Email i = Email u)) ul
  then (Err ErrExist, [VUserList ul], w)
  else
    let uids : gset Z := list_to_set (map ul_UserID ul) in
    match pickUserID (S (length (rand w))) uids w with
    | None => (Panic, [VUserList ul], w)
    | Some (Ok uid, w) =>
        let ul := ul ++ [{| ul_UserID := uid; ul_Email := Email u |}] in
        let '(res, w) := AddUser_records d u uid w in
        (res, [VUserList ul], w)
    | Some (Err e, w) =>
        let '(_, w) := commit [userListFile] [VUserList ul] false w in
        (Err e, [VUserList ul], w)
    | Some (Panic, w) => (Panic, [VUserList ul], w)
    | Some (Fatal, w) => (Fatal, [VUserList ul], w)
    end.

(** AddUser creates a new user account for u. *)
Definition AddUser `{SHA256, Encoding} (d : Database) (u : User) : dbM unit :=
  run v <- OpenForUpdate userListFile;
  match v with
  | VUserList ul => deferred_commit [userListFile] true (AddUser_body d u ul)
  | _ => run _ <- commit [userListFile] [v] false; dfail ErrCorrupt
  end.

(** *** Contacts *)

Definition as_ContactList (v : value) : option ContactList :=
  match v with VContactList cl => Some cl | _ => None end.

Definition set_Contacts (m : gmap Z Contact) (cl : ContactList) : ContactList :=
  {| Contacts := m; In := In cl; Deletes := Deletes cl |}.
Definition set_In (m : gmap Z bool) (cl : ContactList) : ContactList :=
  {| Contacts := Contacts cl; In := m; Deletes := Deletes cl |}.
Definition add_Delete (e : DeleteEvent) (cl : ContactList) : ContactList :=
  {| Contacts := Contacts cl; In := In cl; Deletes := Deletes cl ++ [e] |}.

(** addContactToUser adds contact to user's contact list. *)
Definition addContactToUser `{Encoding} (user contact : User) : dbM Contact :=
  let files := [contactListFile (UserID user); contactListFile (UserID contact)] in
  run vs <- OpenManyForUpdate files;
  match mapM as_ContactList vs with
  | Some [userContacts; contactContacts] =>
      deferred_commit files true (fun w =>
        let c := {| c_UserID := UserID contact;
                    c_Email := Email contact;
                    c_PublicKey := base64_EncodeToString (PublicKey contact);
                    c_DateUsed := 0;
                    c_DateModified := clock w (clock_reads w) |} in
        let w := snd (nowInMS w) in
        let userContacts :=
          set_Contacts (<[UserID contact := c]> (Contacts userContacts)) userContacts in
        let contactContacts :=
          set_In (<[UserID user := true]> (In contactContacts)) contactContacts in
        (Ok c, [VContactList userContacts; VContactList contactContacts], w))
  | _ => run _ <- commit files vs false; dfail ErrCorrupt
  end.

(** One turn of the loop of [removeAllContacts] over [uc], for the key [uid];
    [cl] of the source is [uc[uid]]. *)
Definition removeAllContacts_step (user : Z)
    (ucw : gmap Z ContactList * World) (uid : Z) : gmap Z ContactList * World :=
  let '(uc, w) := ucw in
  (* Remove user from contact's list. *)
  let uc := alter (fun c => set_In (delete uid (In c)) c) user uc in
  let uc := alter (fun c => set_Contacts (delete user (Contacts c)) c) uid uc in
  let t1 := clock w (clock_reads w) in
  let w := snd (nowInMS w) in
  let uc := alter (add_Delete {| de_File := show_Z user; de_AlbumID := "";
                                 de_Date := t1; de_Type := DeleteEventContact |})
                  uid uc in
  (* Remove contact from user's list. *)
  let uc := alter (fun c => set_In (delete user (In c)) c) uid uc in
  let uc := alter (fun c => set_Contacts (delete uid (Contacts c)) c) uid uc in
  let t2 := clock w (clock_reads w) in
  let w := snd (nowInMS w) in
  let uc := alter (add_Delete {| de_File := show_Z uid; de_AlbumID := "";
                                 de_Date := t2; de_Type := DeleteEventContact |})
                  user uc in
  (uc, w).

Definition emptyContactList : ContactList :=
  {| Contacts := ∅; In := ∅; Deletes := [] |}.

(** Go ranges over a map in an unspecified order, visiting each key once. An
    operation that ranges over a map takes that order as a function from the
    set of keys to the list of keys in the order visited. *)
Definition range_order (range : gset Z -> list Z) : Prop :=
  forall s, range s ≡ₚ elements s.

(** The keys [removeAllContacts] collects in [uids]: the user, their contacts
    and the users who hold them as a contact. *)
Definition removeAllContacts_uids (user : User) (contacts : ContactList) : gset Z :=
  {[UserID user]} ∪ dom (Contacts contacts) ∪ dom (In contacts).

(** removeAllContacts removes all contacts. [range1] is the order of the
    range over [uids], [range2] the order of the range over [uc]. *)
Definition removeAllContacts (range1 range2 : gset Z -> list Z) (user : User)
  : dbM unit :=
  run v <- ReadDataFile (contactListFile (UserID user));
  match as_ContactList v with
  | None => dfail ErrCorrupt
  | Some contacts =>
      let uids := removeAllContacts_uids user contacts in
      let uidSlice := range1 uids in
      let fileSlice := map contactListFile uidSlice in
      run vs <- OpenManyForUpdate fileSlice;
      match mapM as_ContactList vs with
      | None => run _ <- commit fileSlice vs false; dfail ErrCorrupt
      | Some contactListSlice =>
          deferred_commit fileSlice false (fun w =>
            let uc : gmap Z ContactList :=
              list_to_map (zip uidSlice contactListSlice) in
            let '(uc', w) :=
              foldl (removeAllContacts_step (UserID user)) (uc, w) (range2 (dom uc)) in
            let vs := map (fun uid => VContactList (default emptyContactList (uc' !! uid)))
                          uidSlice in
            let '(res, w) := commit fileSlice vs true w in
            (res, vs, w))
      end
  end.

(** The inner loop of [addCrossContacts]: [c2] against the list of [c1]. *)
Definition addCrossContacts_inner (c1 : Contact)
    (clw : ContactList * World) (c2 : Contact) : ContactList * World :=
  let '(contactList, w) := clw in
  if bool_decide (c_UserID c1 = c_UserID c2) then (contactList, w)
  else
    let '(contactList, w) :=
      match Contacts contactList !! c_UserID c2 with
      | None =>
          let c := {| c_UserID := c_UserID c2; c_Email := c_Email c2;
                      c_PublicKey := c_PublicKey c2; c_DateUsed := c_DateUsed c2;
                      c_DateModified := clock w (clock_reads w) |} in
          (set_Contacts (<[c_UserID c2 := c]> (Contacts contactList)) contactList,
           snd (nowInMS w))
      | Some _ => (contactList, w)
      end in
    (set_In (<[c_UserID c2 := true]> (In contactList)) contactList, w).

(** The outer loop: every opened list against the whole of the argument
    [cs] (the source's [list]). *)
Fixpoint addCrossContacts_outer (cs : list Contact)
    (todo : list (Contact * ContactList)) (w : World) : list ContactList * World :=
  match todo with
  | [] => ([], w)
  | (c1, contactList) :: todo' =>
      let '(contactList, w) := foldl (addCrossContacts_inner c1) (contactList, w) cs in
      let '(rest, w) := addCrossContacts_outer cs todo' w in
      (contactList :: rest, w)
  end.

(** addCrossContacts adds contacts to each other. Errors are logged, not
    returned. *)
Definition addCrossContacts (cs : list Contact) : dbM unit := fun w =>
  let files := map (fun c => contactListFile (c_UserID c)) cs in
  match OpenManyForUpdate files w with
  | (Ok vs, w) =>
      match mapM as_ContactList vs with
      | Some contactLists =>
          let '(contactLists, w) :=
            addCrossContacts_outer cs (zip cs contactLists) w in
          let '(_, w) := commit files (map VContactList contactLists) true w in
          (Ok tt, w)
      | None =>
          let '(_, w) := commit files vs false w in (Ok tt, w)
      end
  | (Err _, w) => (Ok tt, w)
  | (Panic, w) => (Panic, w)
  | (Fatal, w) => (Fatal, w)
  end.

(** The comparison given to [sort.Slice] in [ContactUpdates]; [==] and [<]
    are Go's on strings. *)
Definition ContactUpdates_less (a b : stingle_Contact) : bool :=
  if bool_decide (s_DateModified a = s_DateModified b)
  then String.ltb (s_Email a) (s_Email b)
  else String.ltb (s_DateModified a) (s_DateModified b).

(** [sort.Slice(out, less)]: a sort by [less], here a merge sort. *)
Definition sort_Slice {A} (less : A -> A -> bool) (out : list A) : list A :=
  @merge_sort A (fun a b => less b a = false)
              (fun a b => decide (less b a = false)) out.

(** ContactUpdates returns changes to a user's contact list that are more
    recent than ts. [range] is the order of the range over the map. *)
Definition ContactUpdates (range : gset Z -> list Z) (user : User) (ts : Z)
  : dbM (list stingle_Contact) :=
  run v <- ReadDataFile (contactListFile (UserID user));
  match as_ContactList v with
  | None => dfail ErrCorrupt
  | Some contactList =>
      let out :=
        omap (fun uid =>
                match Contacts contactList !! uid with
                | Some v =>
                    if ts <? c_DateModified v
                    then Some {| s_UserID := number (c_UserID v);
                                 s_Email := c_Email v;
                                 s_PublicKey := c_PublicKey v;
                                 s_DateUsed := "";
                                 s_DateModified := number (c_DateModified v) |}
                    else None
                | None => None
                end) (range (dom (Contacts contactList))) in
      dret (sort_Slice ContactUpdates_less out)
  end.

(** *** Looking users up *)

(** UpdateUser adds or updates a user object. The record is opened for
    update, replaced by [u] and committed. *)
Definition UpdateUser (u : User) : dbM unit :=
  run v <- OpenForUpdate (userFile (UserID u));
  match v with
  | VUser _ => commit [userFile (UserID u)] [VUser u] true
  | _ => run _ <- commit [userFile (UserID u)] [v] false; dfail ErrCorrupt
  end.

(** UserByID returns the User object with the given ID. *)
Definition UserByID (id : Z) : dbM User :=
  run v <- ReadDataFile (userFile id);
  match v with
  | VUser u => dret u
  | _ => dfail ErrCorrupt
  end.

(** User returns the User object with the given email address: the record
    of the first entry of users.dat that has this email. (The method [User]
    of [Database]; the record type has taken the name.) *)
Definition Database_User (email : string) : dbM User :=
  run v <- ReadDataFile userListFile;
  match v with
  | VUserList ul =>
      match find (fun u => bool_decide (ul_Email u = email)) ul with
      | Some u => UserByID (ul_UserID u)
      | None => dfail ErrNotExist
      end
  | _ => dfail ErrCorrupt
  end.

(** TokenKeyForUser returns the server's TokenKey associated with this user,
    nil ([None]) when [User] fails. *)
Definition TokenKeyForUser (email : string) : dbM (option bytes) := fun w =>
  match Database_User email w with
  | (Ok u, w) => (Ok (Some (TokenKey u)), w)
  | (Err _, w) => (Ok None, w)
  | (Panic, w) => (Panic, w)
  | (Fatal, w) => (Fatal, w)
  end.

(** AddContact adds the user with the given email address to user's contact
    list. *)
Definition AddContact `{Encoding} (user : User) (contactEmail : string)
  : dbM Contact :=
  run c <- Database_User contactEmail;
  addContactToUser user c.

(** The loop of [lookupContacts] over users.dat; a user record that cannot
    be read is logged and skipped. *)
Fixpoint lookupContacts_loop `{Encoding} (uids : gmap Z bool) (ul : list userList)
    (out : list Contact) : dbM (list Contact) :=
  match ul with
  | [] => dret out
  | u :: ul' =>
      if default false (uids !! ul_UserID u)
      then fun w =>
        match UserByID (ul_UserID u) w with
        | (Ok user, w) =>
            lookupContacts_loop uids ul'
              (out ++ [{| c_UserID := UserID user;
                          c_Email := Email user;
                          c_PublicKey := base64_EncodeToString (PublicKey user);
                          c_DateUsed := 0;
                          c_DateModified := 0 |}]) w
        | (Err _, w) => lookupContacts_loop uids ul' out w
        | (Panic, w) => (Panic, w)
        | (Fatal, w) => (Fatal, w)
        end
      else lookupContacts_loop uids ul' out
  end.

(** lookupContacts returns a Contact for each UserIDs in the list. It returns
    nil, the empty list, when users.dat cannot be read. *)
Definition lookupContacts `{Encoding} (uids : gmap Z bool) : dbM (list Contact) :=
  fun w =>
  match ReadDataFile userListFile w with
  | (Ok (VUserList ul), w) => lookupContacts_loop uids ul [] w
  | (Ok _, w) => (Ok [], w)
  | (Err _, w) => (Ok [], w)
  | (Panic, w) => (Panic, w)
  | (Fatal, w) => (Fatal, w)
  end.

End database.

(** ** Package server: numbers in request parameters *)

(** [strconv.ParseUint(s, 10, 64)] and [strconv.ParseInt(s, 10, 64)] of Go's
    package strconv, for the base and the bit size [parseInt] calls them
    with. A call returns a value and, or not, an error, as in Go. *)
Module strconv.

Inductive NumError := ErrSyntax | ErrRange.

Definition maxUint64 : Z := 2 ^ 64 - 1.

(** [lower(c)]: [c | ('x' - 'X')]. *)
Definition lower (c : Z) : Z := Z.lor c 32.

(** The digit a byte stands for, if any: the [switch] of the loop. *)
Definition digit (c : Z) : option Z :=
  if (48 <=? c) && (c <=? 57) then Some (c - 48)
  else if (97 <=? lower c) && (lower c <=? 122) then Some (lower c - 97 + 10)
  else None.

(** The loop of [ParseUint] over the bytes of the string; [n] is the value
    read so far, a uint64. The cutoff is [maxUint64/10 + 1]. *)
Fixpoint ParseUint_loop (cs : list byte) (n : Z) : Z * option NumError :=
  match cs with
  | [] => (n, None)
  | c :: cs' =>
      match digit (int_of_byte c) with
      | None => (0, Some ErrSyntax)
      | Some d =>
          if 10 <=? d then (0, Some ErrSyntax)
          else if maxUint64 / 10 + 1 <=? n then (maxUint64, Some ErrRange)
          else
            let n := n * 10 in
            let n1 := (n + d) mod 2 ^ 64 in
            if (n1 <? n) || (maxUint64 <? n1) then (maxUint64, Some ErrRange)
            else ParseUint_loop cs' n1
      end
  end.

Definition ParseUint (s : list byte) : Z * option NumError :=
  match s with
  | [] => (0, Some ErrSyntax)
  | _ => ParseUint_loop s 0
  end.

Definition ParseInt (s : list byte) : Z * option NumError :=
  match s with
  | [] => (0, Some ErrSyntax)
  | c :: rest =>
      (* Pick off leading sign. *)
      let '(neg, s) :=
        if int_of_byte c =? 43 then (false, rest)
        else if int_of_byte c =? 45 then (true, rest)
        else (false, c :: rest) in
      (* Convert unsigned and check range. *)
      match ParseUint s with
      | (_, Some ErrSyntax) => (0, Some ErrSyntax)
      | (un, _) =>
          let cutoff := 2 ^ 63 in
          if negb neg && (cutoff <=? un) then (cutoff - 1, Some ErrRange)
          else if neg && (cutoff <? un) then (- cutoff, Some ErrRange)
          else (if neg then - un else un, None)
      end
  end.

End strconv.

Module server.

(** parseInt converts a string to int64, mapping any errors to a default
    return value. *)
Definition parseInt (s : string) (def : Z) : Z :=
  match strconv.ParseInt (list_byte_of_string s) with
  | (v, None) => v
  | (_, Some _) => def
  end.

End server.

(** ** Small instances of the primitives

    Simple functions that satisfy the laws of the three interfaces. They show
    the laws are satisfiable and let the properties below be run on concrete
    inputs; they are not the real primitives. *)

Module toy.

(** A rolling digest of 32 bytes. *)
Definition absorb (acc : bytes) (b : byte) : bytes :=
  match acc with
  | [] => []
  | a :: acc' => acc' ++ [byte_of_int (3 * int_of_byte a + int_of_byte b + 7)]
  end.

Definition digest (m : bytes) : bytes := fold_left absorb m (repeat x00 32).

(** Xor with the first 16 key bytes, then reverse the block. *)
Definition encryptBlock (k b : bytes) : bytes := rev (xor_bytes b (take 16 k)).
Definition decryptBlock (k c : bytes) : bytes := xor_bytes (rev c) (take 16 k).

(** The plaintext followed by a 16-byte tag computed from block and nonce. *)
Definition tag (b : Block) (nonce : bytes) : bytes :=
  take 16 (Block_Encrypt b (nonce ++ repeat x00 4) ++ repeat x00 16).

Definition Seal (b : Block) (nonce plaintext ad : bytes) : bytes :=
  plaintext ++ tag b nonce.

Definition Open (b : Block) (nonce ciphertext ad : bytes) : option bytes :=
  let n := (length ciphertext - 16)%nat in
  if bool_decide (drop n ciphertext = tag b nonce)
  then Some (take n ciphertext)
  else None.

(** Lower-case hexadecimal, and the bytes read as a string. *)
Definition hex_char (n : Z) : string :=
  String.substring (Z.to_nat n) 1 "0123456789abcdef".

Definition hex (b : bytes) : string :=
  String.concat "" (map (fun x => hex_char (int_of_byte x / 16)
                                  +:+ hex_char (int_of_byte x mod 16)) b).

End toy.

#[export] Instance toy_Encoding : Encoding :=
  {| hex_EncodeToString := toy.hex; base64_EncodeToString := string_of_list_byte |}.


(** * Vocabulary of the properties *)

(** ** Encrypted records *)

(** The pad size [Encrypt] computes, the padded plaintext it encrypts and the
    CBC ciphertext it obtains from it. *)
Definition padSize (data : bytes) : Z := 16 - (len data + 1) mod 16.

Definition pData (data tail : bytes) : bytes :=
  [byte_of_int (padSize data)] ++ data ++ tail.

Definition encData `{AES} (mk : masterkey.MasterKey) (iv pd : bytes) : bytes :=
  concat (cbc_encrypt (aesBlock (masterkey.key mk)) iv
            (blocks 16 (Z.to_nat (len pd / 16)) pd)).

(** The last two statements of [Decrypt], on the decrypted buffer. *)
Definition unpad (dec : bytes) : outcome bytes :=
  do padSize <- index 0 dec;
  slice 1 (len dec - int_of_byte padSize) dec.

(** A padded plaintext whose first block went through a CBC chain started with
    [iv] and was decrypted with [iv']. *)
Definition reiv (pd iv iv' : bytes) : bytes :=
  xor_bytes (xor_bytes (take 16 pd) iv) iv' ++ drop 16 pd.

(** The byte whose only set bit is bit [j], bit 0 being the least significant. *)
Definition bit_mask (j : nat) : byte := byte_of_int (2 ^ Z.of_nat j).

(** [data] with bit [j] of its byte [i] flipped. *)
Definition flip_bit (i j : nat) (data : bytes) : bytes :=
  alter (fun b => byte_xor b (bit_mask j)) i data.

(** The CBC ciphertext of a record: what lies between the 16-byte IV and the
    32-byte HMAC. *)
Definition record_ciphertext (c : bytes) : bytes :=
  take (length c - 48) (drop 16 c).

(** ** The key file *)

(** The iteration count [Save] stores, the key PBKDF2 derives from a
    passphrase, and the layout of the file [Save] writes. *)
Definition numIterFor (passphrase : string) : Z :=
  if bool_decide (passphrase = EmptyString) then 10 else 200000.

Definition derivedKey `{SHA256} (passphrase : string) (salt : bytes) (numIter : Z) : bytes :=
  pbkdf2_Key (list_byte_of_string passphrase) salt numIter 32.

Definition keyFile (salt : bytes) (numIter : Z) (nonce sealed : bytes) : bytes :=
  [x01] ++ salt ++ PutUint32_le numIter ++ nonce ++ sealed.

(** The file system lets a key file be saved under the path [file]: the path
    has a directory part that can be made and a file name that can be
    written. *)
Definition savable (file : string) (fs : FS) : bool :=
  let dir := fst (filepath_Split file) in
  let name := snd (filepath_Split file) in
  negb (bool_decide (dir = EmptyString)) && fs_mkdir fs dir
  && negb (bool_decide (name = EmptyString)) && fs_writable fs file.

(** A file system that holds [files] and lets every directory be made and
    every file be written. *)
Definition sample_fs (files : gmap string bytes) : FS :=
  {| fs_files := files; fs_mkdir := fun _ => true; fs_writable := fun _ => true |}.

(** ** The log of the store *)

(** An event that ends the transaction on [f]. *)
Definition closes (f : database.file) (e : database.event) : Prop :=
  e = database.EvCommit [f] \/ e = database.EvRollback [f].

(** An event that writes a record outside a transaction. *)
Definition is_write (e : database.event) : Prop :=
  match e with
  | database.EvSaveDataFile _ | database.EvCreateEmptyFile _ => True
  | _ => False
  end.

(** [w'] differs from [w] by writes outside any transaction that leave
    users.dat alone. *)
Definition writes_only (w w' : database.World) : Prop :=
  database.locks w' = database.locks w
  /\ database.store w' !! database.userListFile
     = database.store w !! database.userListFile
  /\ exists writes, database.trace w' = database.trace w ++ writes
                    /\ Forall is_write writes.

(** An operation that only makes such writes and does not end the process. *)
Definition writer {A} (m : database.dbM A) : Prop :=
  forall w, writes_only w (snd (m w)) /\ fst (m w) <> Fatal.

(** ** Contact lists *)

(** The contact list stored for a user, when there is one; and the empty one
    when there is none. *)
Definition contactsOf (w : database.World) (uid : Z) : option database.ContactList :=
  match database.store w !! database.contactListFile uid with
  | Some v => database.as_ContactList v
  | None => None
  end.

Definition contactsOr (w : database.World) (uid : Z) : database.ContactList :=
  default database.emptyContactList (contactsOf w uid).

(** The delete event of type contact that names [uid], dated [t]. *)
Definition contactDeleted (uid t : Z) : database.DeleteEvent :=
  {| database.de_File := show_Z uid; database.de_AlbumID := "";
     database.de_Date := t; database.de_Type := database.DeleteEventContact |}.

(** Contact symmetry between two users of a world: [a] has [b] as a contact
    exactly when [b] records [a] in its [In] set. *)
Definition symmetric_at (w : database.World) (a b : Z) : Prop :=
  forall ca cb, contactsOf w a = Some ca -> contactsOf w b = Some cb ->
    (is_Some (database.Contacts ca !! b) <-> database.In cb !! a = Some true).

(** What [ContactUpdates] appends to [out] for a contact, when it does. *)
Definition exported (ts : Z) (v : database.Contact) : option database.stingle_Contact :=
  if ts <? database.c_DateModified v
  then Some {| database.s_UserID := database.number (database.c_UserID v);
               database.s_Email := database.c_Email v;
               database.s_PublicKey := database.c_PublicKey v;
               database.s_DateUsed := "";
               database.s_DateModified := database.number (database.c_DateModified v) |}
  else None.

(** The contacts of a list in the order of a range over its keys. *)
Definition ranged (order : list Z) (cl : database.ContactList) : list database.Contact :=
  omap (fun uid => database.Contacts cl !! uid) order.

(** ** Sample data *)

(** A user record with an email, a user list of one user with the ID
    1000005, a world with a store and an entropy tape, and a database whose
    master key is 32 bytes of ones. *)
Definition sample_user (email : string) : database.User :=
  {| database.UserID := 0; database.Email := email;
     database.HashedPassword := ""; database.Salt := "";
     database.HomeFolder := ""; database.KeyBundle := "";
     database.IsBackup := "0"; database.ServerKey := [];
     database.PublicKey := []; database.TokenKey := [] |}.

Definition sample_users : list database.userList :=
  [{| database.ul_UserID := 1000005; database.ul_Email := "alice" |}].

Definition sample_world (s : gmap database.file database.value) (r : Rand)
  : database.World :=
  {| database.store := s; database.locks := ∅; database.rand := r;
     database.clock := fun n => 1000 + Z.of_nat n; database.clock_reads := 0;
     database.trace := [] |}.

Definition sample_db : database.Database :=
  {| database.masterKey := {| masterkey.key := repeat x01 32 |} |}.

(** A contact graph of three users: 1 has 2 as a contact, 3 has 1 as a
    contact; the [In] sets mirror that. *)
Definition sample_contact (uid : Z) (email : string) (t : Z) : database.Contact :=
  {| database.c_UserID := uid; database.c_Email := email;
     database.c_PublicKey := ""; database.c_DateUsed := 0;
     database.c_DateModified := t |}.

Definition sample_contacts : gmap database.file database.value :=
  {[ database.contactListFile 1 :=
       database.VContactList
         {| database.Contacts := {[ 2 := sample_contact 2 "bob" 1000 ]};
            database.In := {[ 3 := true ]}; database.Deletes := [] |};
     database.contactListFile 2 :=
       database.VContactList
         {| database.Contacts := ∅; database.In := {[ 1 := true ]};
            database.Deletes := [] |};
     database.contactListFile 3 :=
       database.VContactList
         {| database.Contacts := {[ 1 := sample_contact 1 "alice" 1000 ]};
            database.In := ∅; database.Deletes := [] |} ]}.

Definition sample_alice : database.User :=
  {| database.UserID := 1; database.Email := "alice";
     database.HashedPassword := ""; database.Salt := "";
     database.HomeFolder := ""; database.KeyBundle := "";
     database.IsBackup := "0"; database.ServerKey := [];
     database.PublicKey := []; database.TokenKey := [] |}.

Definition sample_alice_contacts : database.ContactList :=
  {| database.Contacts := {[ 2 := sample_contact 2 "bob" 1000 ]};
     database.In := {[ 3 := true ]}; database.Deletes := [] |}.

(** A user with two contacts: "bob", modified at 9, and "carol", modified at
    10; and what [ContactUpdates] returns for it. *)
Definition sample_updates_world : database.World :=
  sample_world
    {[ database.contactListFile 1 :=
         database.VContactList
           {| database.Contacts := {[ 2 := sample_contact 2 "bob" 9;
                                      3 := sample_contact 3 "carol" 10 ]};
              database.In := ∅; database.Deletes := [] |} ]} [].

Definition sample_updates_result : list database.stingle_Contact :=
  [ {| database.s_UserID := "3"; database.s_Email := "carol";
       database.s_PublicKey := ""; database.s_DateUsed := "";
       database.s_DateModified := "10" |};
    {| database.s_UserID := "2"; database.s_Email := "bob";
       database.s_PublicKey := ""; database.s_DateUsed := "";
       database.s_DateModified := "9" |} ].

(** ** Contact symmetry over the whole store *)

(** Contact symmetry between every two users that have a contact list. *)
Definition symmetric (w : database.World) : Prop :=
  forall a b, symmetric_at w a b.

(** The contact [addContactToUser] stores for [contact] at the time [t]. *)
Definition contactFor `{Encoding} (contact : database.User) (t : Z) : database.Contact :=
  {| database.c_UserID := database.UserID contact;
     database.c_Email := database.Email contact;
     database.c_PublicKey := base64_EncodeToString (database.PublicKey contact);
     database.c_DateUsed := 0;
     database.c_DateModified := t |}.

(** What [addCrossContacts] makes of the contact list [cl] of user [a] when
    it is given the users [ids]: [cl'] has every other user of [ids] as a
    contact and in its [In] set, keeps the contacts [cl] had, and is [cl]
    everywhere else. *)
Definition crossLinked (ids : list Z) (a : Z) (cl cl' : database.ContactList) : Prop :=
  database.Deletes cl' = database.Deletes cl
  /\ (forall b, b ∈ ids -> b <> a ->
        is_Some (database.Contacts cl' !! b) /\ database.In cl' !! b = Some true)
  /\ (forall b, b ∉ ids \/ b = a ->
        database.Contacts cl' !! b = database.Contacts cl !! b
        /\ database.In cl' !! b = database.In cl !! b)
  /\ (forall b c, database.Contacts cl !! b = Some c ->
        database.Contacts cl' !! b = Some c).

(** ** More sample data *)

(** User 3 of the sample contact graph, and the three users as contacts. *)
Definition sample_carol : database.User :=
  {| database.UserID := 3; database.Email := "carol";
     database.HashedPassword := ""; database.Salt := "";
     database.HomeFolder := ""; database.KeyBundle := "";
     database.IsBackup := "0"; database.ServerKey := [];
     database.PublicKey := []; database.TokenKey := [] |}.

Definition sample_three : list database.Contact :=
  [sample_contact 1 "alice" 0; sample_contact 2 "bob" 0;
   sample_contact 3 "carol" 0].

(** ** Contact updates *)

(** The [stingle.Contact] that [ContactUpdates] makes of a contact. *)
Definition updateOf (v : database.Contact) : database.stingle_Contact :=
  {| database.s_UserID := database.number (database.c_UserID v);
     database.s_Email := database.c_Email v;
     database.s_PublicKey := database.c_PublicKey v;
     database.s_DateUsed := "";
     database.s_DateModified := database.number (database.c_DateModified v) |}.

(** The order the specification of the update streams asks for: ascending
    by [DateModified], ties by ascending email. *)
Definition byDateThenEmail (a b : database.Contact) : Prop :=
  database.c_DateModified a < database.c_DateModified b
  \/ (database.c_DateModified a = database.c_DateModified b
      /\ String.ltb (database.c_Email b) (database.c_Email a) = false).

(** The number a string of decimal digits stands for. *)
Definition uint_value (d : Decimal.uint) : Z := Z.of_N (Pos.of_uint d).
(** * Properties *)

(** ** Bytes and exclusive or *)

Lemma byte_xor_cancel_r (a b : byte) : byte_xor (byte_xor a b) b = a.
Proof.
  transitivity (Byte.of_bits (Byte.to_bits a)); [|apply Byte.of_bits_to_bits].
  unfold byte_xor.
  destruct (Byte.to_bits a) as (a0 & a1 & a2 & a3 & a4 & a5 & a6 & a7).
  destruct (Byte.to_bits b) as (b0 & b1 & b2 & b3 & b4 & b5 & b6 & b7).
  rewrite Byte.to_bits_of_bits.
  rewrite !xorb_assoc, !xorb_nilpotent, !xorb_false_r.
  reflexivity.
Qed.

Lemma xor_bytes_length (a b : bytes) :
  length (xor_bytes a b) = Nat.min (length a) (length b).
Proof.
  revert b; induction a as [|x a IH]; intros [|y b]; simpl; auto.
Qed.

Lemma xor_bytes_cancel_r (a b : bytes) :
  (length a <= length b)%nat -> xor_bytes (xor_bytes a b) b = a.
Proof.
  revert b; induction a as [|x a IH]; intros [|y b] Hl; simpl in *; try lia; auto.
  rewrite byte_xor_cancel_r, IH by lia. reflexivity.
Qed.

Lemma len_app {A} (l1 l2 : list A) : len (l1 ++ l2) = len l1 + len l2.
Proof. unfold len. rewrite length_app. lia. Qed.

Lemma len_nonneg {A} (l : list A) : 0 <= len l.
Proof. unfold len. lia. Qed.

(** ** The instances satisfy the laws *)

Lemma toy_absorb_length acc b : length (toy.absorb acc b) = length acc.
Proof. destruct acc; simpl; [reflexivity|]. rewrite length_app. simpl. lia. Qed.

Lemma toy_fold_absorb_length m acc :
  length (fold_left toy.absorb m acc) = length acc.
Proof.
  revert acc; induction m as [|b m IH]; intros acc; simpl; [reflexivity|].
  rewrite IH. apply toy_absorb_length.
Qed.

Lemma toy_digest_length m : length (toy.digest m) = 32%nat.
Proof. unfold toy.digest. rewrite toy_fold_absorb_length. apply repeat_length. Qed.

Lemma aes_KeySizeOk_take16 k : aes_KeySizeOk k = true -> length (take 16 k) = 16%nat.
Proof.
  unfold aes_KeySizeOk, len. intros Hk. rewrite length_take. lia.
Qed.

Lemma toy_encryptBlock_Size k b :
  aes_KeySizeOk k = true -> length b = 16%nat -> length (toy.encryptBlock k b) = 16%nat.
Proof.
  intros Hk Hb. unfold toy.encryptBlock.
  rewrite length_rev, xor_bytes_length, (aes_KeySizeOk_take16 k Hk). lia.
Qed.

Lemma toy_decrypt_encrypt k b :
  aes_KeySizeOk k = true -> length b = 16%nat ->
  toy.decryptBlock k (toy.encryptBlock k b) = b.
Proof.
  intros Hk Hb. unfold toy.decryptBlock, toy.encryptBlock.
  rewrite rev_involutive. apply xor_bytes_cancel_r.
  rewrite (aes_KeySizeOk_take16 k Hk). lia.
Qed.

Lemma toy_tag_length b nonce : length (toy.tag b nonce) = 16%nat.
Proof.
  unfold toy.tag. rewrite length_take, length_app, repeat_length. lia.
Qed.

Lemma toy_Open_Seal b nonce plaintext ad :
  BlockSize b = 16 -> length nonce = 12%nat ->
  toy.Open b nonce (toy.Seal b nonce plaintext ad) ad = Some plaintext.
Proof.
  intros _ _. unfold toy.Open, toy.Seal.
  rewrite length_app, toy_tag_length.
  replace (length plaintext + 16 - 16)%nat with (length plaintext) by lia.
  rewrite drop_app_length, take_app_length.
  rewrite bool_decide_eq_true_2; reflexivity.
Qed.

#[export] Instance toy_SHA256 : SHA256 :=
  {| sha256_Sum := toy.digest; sha256_Size := toy_digest_length |}.

#[export] Instance toy_AES : AES :=
  {| aes_encryptBlock := toy.encryptBlock;
     aes_decryptBlock := toy.decryptBlock;
     aes_encryptBlock_Size := toy_encryptBlock_Size;
     aes_decrypt_encrypt := toy_decrypt_encrypt |}.

#[export] Instance toy_GCM : GCM :=
  {| gcm_Seal := toy.Seal; gcm_Open := toy.Open; gcm_Open_Seal := toy_Open_Seal |}.

(** ** Slices of a three-part record *)

Lemma slice_bounds_true lo hi (l : bytes) :
  0 <= lo -> lo <= hi -> hi <= len l ->
  slice lo hi l = Ok (take (Z.to_nat (hi - lo)) (drop (Z.to_nat lo) l)).
Proof.
  intros H1 H2 H3. unfold slice.
  replace ((0 <=? lo) && (lo <=? hi) && (hi <=? len l)) with true; [reflexivity|].
  symmetry. rewrite !andb_true_iff, !Z.leb_le. auto.
Qed.

Lemma slice_app_l (a rest : bytes) n : n = len a -> slice 0 n (a ++ rest) = Ok a.
Proof.
  intros ->. pose proof (len_nonneg a); pose proof (len_nonneg rest).
  rewrite slice_bounds_true by (rewrite ?len_app; lia).
  replace (Z.to_nat (len a - 0)) with (length a) by (unfold len; lia).
  replace (Z.to_nat 0) with 0%nat by lia.
  rewrite drop_0, take_app_length. reflexivity.
Qed.

Lemma slice_app_r (a c : bytes) lo hi :
  lo = len a -> hi = len (a ++ c) -> slice lo hi (a ++ c) = Ok c.
Proof.
  intros -> ->. pose proof (len_nonneg a); pose proof (len_nonneg c).
  rewrite slice_bounds_true by (rewrite ?len_app; lia).
  replace (Z.to_nat (len (a ++ c) - len a)) with (length c)
    by (rewrite len_app; unfold len; lia).
  replace (Z.to_nat (len a)) with (length a) by (unfold len; lia).
  rewrite drop_app_length, firstn_all. reflexivity.
Qed.

Lemma slice_app_m (a b c : bytes) lo hi :
  lo = len a -> hi = len a + len b -> slice lo hi (a ++ b ++ c) = Ok b.
Proof.
  intros -> ->.
  pose proof (len_nonneg a); pose proof (len_nonneg b); pose proof (len_nonneg c).
  rewrite slice_bounds_true by (rewrite ?len_app; lia).
  replace (Z.to_nat (len a + len b - len a)) with (length b) by (unfold len; lia).
  replace (Z.to_nat (len a)) with (length a) by (unfold len; lia).
  rewrite drop_app_length, take_app_length. reflexivity.
Qed.

Lemma slice_Panic lo hi (l : bytes) :
  lo < 0 \/ hi < lo \/ len l < hi -> slice lo hi l = Panic.
Proof.
  intros Hb. unfold slice.
  destruct ((0 <=? lo) && (lo <=? hi) && (hi <=? len l)) eqn:E; [|reflexivity].
  rewrite !andb_true_iff, !Z.leb_le in E. lia.
Qed.

Lemma slice_Ok_inv lo hi (l out : bytes) :
  slice lo hi l = Ok out -> 0 <= lo /\ lo <= hi /\ hi <= len l /\ len out = hi - lo.
Proof.
  unfold slice.
  destruct ((0 <=? lo) && (lo <=? hi) && (hi <=? len l)) eqn:E; [|discriminate].
  rewrite !andb_true_iff, !Z.leb_le in E. intros [= <-].
  unfold len in *. rewrite length_take, length_drop. lia.
Qed.

(** ** Blocks and CBC chaining *)

Lemma blocks_length bs n l : length (blocks bs n l) = n.
Proof. revert l; induction n; intros l; simpl; congruence. Qed.

Lemma concat_blocks bs n (l : bytes) :
  length l = (bs * n)%nat -> concat (blocks bs n l) = l.
Proof.
  revert l; induction n as [|n IH]; intros l Hl; simpl.
  - destruct l; [reflexivity|simpl in Hl; lia].
  - rewrite IH; [apply take_drop|]. rewrite length_drop. lia.
Qed.

Lemma blocks_Forall bs n (l : bytes) :
  length l = (bs * n)%nat -> Forall (fun c => length c = bs) (blocks bs n l).
Proof.
  revert l; induction n as [|n IH]; intros l Hl; simpl; constructor.
  - rewrite length_take. lia.
  - apply IH. rewrite length_drop. lia.
Qed.

Lemma blocks_app bs n (c rest : bytes) :
  length c = bs -> blocks bs (S n) (c ++ rest) = c :: blocks bs n rest.
Proof.
  intros <-. simpl. rewrite take_app_length, drop_app_length. reflexivity.
Qed.

Lemma concat_length_blocks bs (cs : list bytes) :
  Forall (fun c => length c = bs) cs -> length (concat cs) = (bs * length cs)%nat.
Proof.
  induction 1 as [|c cs Hc _ IH]; simpl; [lia|]. rewrite length_app, IH, Hc. lia.
Qed.

Section CBC.
  Context `{AES}.

Lemma aes_NewCipher_Ok k : aes_KeySizeOk k = true -> aes_NewCipher k = Ok (aesBlock k).
Proof. intros Hk. unfold aes_NewCipher. rewrite Hk. reflexivity. Qed.

Lemma cbc_encrypt_Forall k prev ps :
  aes_KeySizeOk k = true -> length prev = 16%nat ->
  Forall (fun p => length p = 16%nat) ps ->
  Forall (fun c => length c = 16%nat) (cbc_encrypt (aesBlock k) prev ps).
Proof.
  intros Hk Hprev Hps. revert prev Hprev.
  induction Hps as [|p ps Hp _ IH]; intros prev Hprev; simpl; constructor.
  - apply aes_encryptBlock_Size; [exact Hk|]. rewrite xor_bytes_length. lia.
  - apply IH. apply aes_encryptBlock_Size; [exact Hk|]. rewrite xor_bytes_length. lia.
Qed.

Lemma cbc_encrypt_length b prev ps : length (cbc_encrypt b prev ps) = length ps.
Proof. revert prev; induction ps; intros prev; simpl; congruence. Qed.

(** Decrypting a CBC chain under another IV: only the first block changes, by
    the xor of the two IVs. *)
Lemma cbc_decrypt_encrypt_iv k iv iv' p ps :
  aes_KeySizeOk k = true -> length iv = 16%nat ->
  Forall (fun p => length p = 16%nat) (p :: ps) ->
  cbc_decrypt (aesBlock k) iv' (cbc_encrypt (aesBlock k) iv (p :: ps))
  = xor_bytes (xor_bytes p iv) iv' :: ps.
Proof.
  intros Hk Hiv Hps. inversion Hps as [|? ? Hp Hps']; subst.
  simpl. rewrite aes_decrypt_encrypt by (auto; rewrite xor_bytes_length; lia).
  f_equal.
  assert (Hc : length (aes_encryptBlock k (xor_bytes p iv)) = 16%nat)
    by (apply aes_encryptBlock_Size; [exact Hk|]; rewrite xor_bytes_length; lia).
  clear Hps. revert Hc. generalize (aes_encryptBlock k (xor_bytes p iv)) as prev.
  induction Hps' as [|q qs Hq _ IH]; intros prev Hprev; simpl; [reflexivity|].
  rewrite aes_decrypt_encrypt by (auto; rewrite xor_bytes_length; lia).
  rewrite xor_bytes_cancel_r by lia. f_equal.
  apply IH. apply aes_encryptBlock_Size; [exact Hk|]. rewrite xor_bytes_length. lia.
Qed.

Lemma cbc_decrypt_encrypt k iv ps :
  aes_KeySizeOk k = true -> length iv = 16%nat ->
  Forall (fun p => length p = 16%nat) ps ->
  cbc_decrypt (aesBlock k) iv (cbc_encrypt (aesBlock k) iv ps) = ps.
Proof.
  intros Hk Hiv Hps. destruct ps as [|p ps]; [reflexivity|].
  rewrite cbc_decrypt_encrypt_iv by assumption.
  inversion Hps; subst. rewrite xor_bytes_cancel_r by lia. reflexivity.
Qed.

End CBC.

(** ** The layout of an encrypted record *)

Lemma padSize_range data : 1 <= padSize data <= 16.
Proof.
  unfold padSize. pose proof (Z.mod_pos_bound (len data + 1) 16 ltac:(lia)). lia.
Qed.

Lemma pData_len data tail :
  len tail = padSize data ->
  len (pData data tail) = 16 * ((len data + 1) / 16 + 1).
Proof.
  intros Ht. unfold pData. rewrite !len_app, Ht. unfold padSize.
  change (len [byte_of_int (16 - (len data + 1) mod 16)]) with 1.
  pose proof (Z.div_mod (len data + 1) 16 ltac:(lia)). lia.
Qed.

Lemma pData_len_mod data tail :
  len tail = padSize data ->
  len (pData data tail) mod 16 = 0 /\ 16 <= len (pData data tail)
  /\ len (pData data tail) = len data + 1 + padSize data.
Proof.
  intros Ht. rewrite (pData_len data tail Ht).
  pose proof (len_nonneg data).
  pose proof (Z.div_pos (len data + 1) 16 ltac:(lia) ltac:(lia)).
  split; [|split].
  - rewrite Z.mul_comm. apply Z.mod_mul. lia.
  - lia.
  - unfold padSize. pose proof (Z.div_mod (len data + 1) 16 ltac:(lia)). lia.
Qed.

Lemma int_of_byte_of_int n : 0 <= n < 256 -> int_of_byte (byte_of_int n) = n.
Proof.
  intros Hn. unfold int_of_byte, byte_of_int.
  rewrite Z.mod_small by lia.
  destruct (Byte.of_N (Z.to_N n)) as [b|] eqn:E.
  - apply Byte.to_of_N in E. rewrite E. lia.
  - apply Byte.of_N_None_iff in E. lia.
Qed.

Lemma ReadFull_app (a r : bytes) n : n = len a -> ReadFull n (a ++ r) = Ok (a, r).
Proof.
  intros ->. unfold ReadFull. rewrite len_app.
  pose proof (len_nonneg a); pose proof (len_nonneg r).
  replace ((0 <=? len a) && (len a <=? len a + len r)) with true
    by (symmetry; rewrite andb_true_iff, !Z.leb_le; lia).
  replace (Z.to_nat (len a)) with (length a) by (unfold len; lia).
  rewrite take_app_length, drop_app_length. reflexivity.
Qed.

Lemma ReadFull_short (r : bytes) n : len r < n -> ReadFull n r = Err ErrRandRead.
Proof.
  intros Hn. unfold ReadFull.
  replace ((0 <=? n) && (n <=? len r)) with false; [reflexivity|].
  symmetry. rewrite andb_false_iff, !Z.leb_gt. lia.
Qed.

Lemma ReadFull_take (r : bytes) n :
  0 <= n <= len r ->
  ReadFull n r = Ok (take (Z.to_nat n) r, drop (Z.to_nat n) r).
Proof.
  intros Hn. unfold ReadFull.
  replace ((0 <=? n) && (n <=? len r)) with true; [reflexivity|].
  symmetry. rewrite andb_true_iff, !Z.leb_le. lia.
Qed.

Lemma make_Ok n : 0 <= n -> make n = Ok (repeat x00 (Z.to_nat n)).
Proof. intros Hn. unfold make. destruct (Z.leb_spec 0 n); [reflexivity|lia]. Qed.

Lemma aes_KeySizeOk_len k : aes_KeySizeOk k = true -> (len k =? 0) = false.
Proof.
  unfold aes_KeySizeOk. rewrite !orb_true_iff, !Z.eqb_eq, Z.eqb_neq. lia.
Qed.

Section Record.
  Context `{SHA256, AES}.
  Import masterkey.

Lemma Hash_length mk b : length (Hash mk b) = 32%nat.
Proof. unfold Hash, hmac_Sum. apply sha256_Size. Qed.

(** [CryptBlocks] into a buffer of the input's size, on whole blocks. *)
Lemma CryptBlocks_whole b iv d (src : bytes) n :
  BlockSize b = 16 -> len src = 16 * n -> 0 <= n ->
  CryptBlocks {| mode_block := b; mode_iv := iv; mode_decrypt := d |}
              (repeat x00 (Z.to_nat (len src))) src
  = Ok (concat ((if d then cbc_decrypt else cbc_encrypt) b iv
                  (blocks 16 (Z.to_nat n) src))).
Proof.
  intros Hbs Hsrc Hn. unfold CryptBlocks. cbn [mode_block mode_iv mode_decrypt].
  rewrite Hbs. change (negb (0 <? 16)) with false. cbn [negb].
  replace (len src mod 16) with 0
    by (rewrite Hsrc, Z.mul_comm, Z.mod_mul; lia).
  change (negb (0 =? 0)) with false.
  replace (len (repeat x00 (Z.to_nat (len src))) <? len src) with false
    by (symmetry; apply Z.ltb_ge; unfold len; rewrite repeat_length; lia).
  cbn [negb].
  replace (len src / 16) with n by (rewrite Hsrc, Z.mul_comm, Z.div_mul; lia).
  change (Z.to_nat 16) with 16%nat.
  rewrite drop_ge by (rewrite repeat_length; unfold len; lia).
  rewrite app_nil_r. reflexivity.
Qed.

(** What [Encrypt] returns when the key is an AES key and the entropy source
    supplies the IV and the tail. *)
Lemma Encrypt_Ok mk data iv tail r :
  aes_KeySizeOk (key mk) = true ->
  length iv = 16%nat -> len tail = padSize data ->
  Encrypt mk data (iv ++ tail ++ r)
  = Ok (iv ++ encData mk iv (pData data tail)
           ++ Hash mk (encData mk iv (pData data tail)), r).
Proof.
  intros Hk Hiv Ht. unfold Encrypt.
  rewrite (aes_KeySizeOk_len _ Hk), (aes_NewCipher_Ok _ Hk).
  cbn [wrapErr obind].
  rewrite (ReadFull_app iv) by (unfold len, aes_BlockSize; lia).
  cbn [obind].
  rewrite (ReadFull_app tail) by (fold (padSize data); lia).
  cbn [wrapErr obind].
  unfold cipher_NewCBCEncrypter. cbn [aesBlock BlockSize].
  replace (len iv =? aes_BlockSize) with true
    by (symmetry; apply Z.eqb_eq; unfold len, aes_BlockSize; lia).
  cbn [obind]. fold (padSize data). fold (pData data tail).
  destruct (pData_len_mod data tail Ht) as (Hmod & Hge & _).
  rewrite make_Ok by lia. cbn [obind].
  rewrite (CryptBlocks_whole _ _ _ _ (len (pData data tail) / 16)).
  - reflexivity.
  - reflexivity.
  - pose proof (Z.div_mod (len (pData data tail)) 16 ltac:(lia)). lia.
  - apply Z.div_pos; lia.
Qed.

Lemma encData_length mk iv pd n :
  aes_KeySizeOk (key mk) = true -> length iv = 16%nat ->
  len pd = 16 * n -> 0 <= n ->
  len (encData mk iv pd) = len pd.
Proof.
  intros Hk Hiv Hpd Hn. unfold encData.
  assert (Hdiv : len pd / 16 = n) by (rewrite Hpd, Z.mul_comm, Z.div_mul; lia).
  rewrite Hdiv. unfold len in *.
  rewrite (concat_length_blocks 16).
  - rewrite cbc_encrypt_length, blocks_length. lia.
  - apply cbc_encrypt_Forall; [exact Hk|exact Hiv|].
    apply blocks_Forall. lia.
Qed.

(** [Decrypt] on a record cut into IV, ciphertext and MAC: the three slices
    succeed and the rest of the function runs on the parts. *)
Lemma Decrypt_frame mk iv enc mac :
  (len (key mk) =? 0) = false -> length iv = 16%nat -> length mac = 32%nat ->
  Decrypt mk (iv ++ enc ++ mac)
  = if negb (hmac_Equal mac (Hash mk enc)) then Err ErrInvalidHmac else
    do block <- wrapErr ErrAesNewCipher (aes_NewCipher (key mk));
    do mode <- cipher_NewCBCDecrypter block iv;
    do dec <- make (len enc);
    do dec <- CryptBlocks mode dec enc;
    do padSize <- index 0 dec;
    slice 1 (len dec - int_of_byte padSize) dec.
Proof.
  intros Hk Hiv Hmac. unfold Decrypt. rewrite Hk.
  rewrite slice_app_l by (unfold len, aes_BlockSize; lia). cbn [obind].
  rewrite slice_app_m by (rewrite ?len_app; unfold len, aes_BlockSize; lia).
  cbn [obind].
  rewrite (app_assoc iv enc mac).
  rewrite slice_app_r
    by (rewrite ?len_app; unfold len; rewrite ?length_app; lia).
  cbn [obind].
  replace (len ((iv ++ enc) ++ mac) - aes_BlockSize - 32) with (len enc)
    by (rewrite !len_app; unfold len, aes_BlockSize; lia).
  reflexivity.
Qed.

End Record.

(** ** Decrypting what was encrypted *)

Lemma blocks_concat bs (cs : list bytes) :
  Forall (fun c => length c = bs) cs -> blocks bs (length cs) (concat cs) = cs.
Proof.
  induction 1 as [|c cs Hc _ IH]; [reflexivity|].
  cbn [concat length]. rewrite blocks_app by exact Hc. rewrite IH. reflexivity.
Qed.

Lemma reiv_same pd iv : length iv = 16%nat -> reiv pd iv iv = pd.
Proof.
  intros Hiv. unfold reiv.
  rewrite xor_bytes_cancel_r by (rewrite length_take; lia).
  apply take_drop.
Qed.

Lemma unpad_pData data tail :
  len tail = padSize data -> unpad (pData data tail) = Ok data.
Proof.
  intros Ht. unfold unpad.
  destruct (pData_len_mod data tail Ht) as (_ & Hge & Hlen).
  pose proof (padSize_range data) as Hp. pose proof (len_nonneg data) as Hd.
  unfold index. destruct (Z.ltb_spec 0 (len (pData data tail))); [|lia].
  change (Z.to_nat 0) with 0%nat. change (0 <=? 0) with true.
  cbn [andb pData app lookup list_lookup obind].
  rewrite int_of_byte_of_int by lia.
  change (byte_of_int (padSize data) :: data ++ tail) with (pData data tail).
  rewrite slice_bounds_true by lia.
  replace (Z.to_nat (len (pData data tail) - padSize data - 1)) with (length data)
    by (unfold len in *; lia).
  change (Z.to_nat 1) with 1%nat. cbn [pData app drop].
  rewrite drop_0, take_app_length. reflexivity.
Qed.

Section Roundtrip.
  Context `{SHA256, AES}.
  Import masterkey.

(** The buffer [CryptBlocks] leaves when a ciphertext chained from [iv] is
    decrypted in a mode started with [iv']. *)
Lemma CryptBlocks_decrypt_encData mk iv iv' pd n :
  aes_KeySizeOk (key mk) = true ->
  length iv = 16%nat -> length iv' = 16%nat ->
  len pd = 16 * n -> 1 <= n ->
  CryptBlocks {| mode_block := aesBlock (key mk); mode_iv := iv';
                 mode_decrypt := true |}
              (repeat x00 (Z.to_nat (len (encData mk iv pd))))
              (encData mk iv pd)
  = Ok (reiv pd iv iv').
Proof.
  intros Hk Hiv Hiv' Hn Hn1.
  assert (Henc : len (encData mk iv pd) = 16 * n)
    by (rewrite (encData_length mk iv pd n); auto; lia).
  rewrite (CryptBlocks_whole _ _ _ _ n) by (auto; lia).
  f_equal. unfold encData.
  replace (len pd / 16) with n by (rewrite Hn, Z.mul_comm, Z.div_mul; lia).
  assert (Hbl : Forall (fun p => length p = 16%nat) (blocks 16 (Z.to_nat n) pd))
    by (apply blocks_Forall; unfold len in Hn; lia).
  assert (Hcs : Forall (fun c => length c = 16%nat)
            (cbc_encrypt (aesBlock (key mk)) iv (blocks 16 (Z.to_nat n) pd)))
    by (apply cbc_encrypt_Forall; auto).
  replace (Z.to_nat n) with
    (length (cbc_encrypt (aesBlock (key mk)) iv (blocks 16 (Z.to_nat n) pd))) at 1
    by (rewrite cbc_encrypt_length, blocks_length; reflexivity).
  rewrite blocks_concat by exact Hcs.
  destruct (Z.to_nat n) as [|n'] eqn:En; [lia|].
  cbn [blocks] in *.
  rewrite cbc_decrypt_encrypt_iv by auto.
  unfold reiv. cbn [concat]. f_equal.
  apply concat_blocks. rewrite length_drop. unfold len in Hn. lia.
Qed.

(** [Decrypt] on a record made by [Encrypt] whose IV prefix was replaced by
    another 16 bytes: the HMAC check passes and the padded plaintext comes
    back with its first block xored by the difference of the two IVs. *)
Lemma Decrypt_record mk iv iv' data tail :
  aes_KeySizeOk (key mk) = true ->
  length iv = 16%nat -> length iv' = 16%nat -> len tail = padSize data ->
  Decrypt mk (iv' ++ encData mk iv (pData data tail)
                  ++ Hash mk (encData mk iv (pData data tail)))
  = unpad (reiv (pData data tail) iv iv').
Proof.
  intros Hk Hiv Hiv' Ht.
  destruct (pData_len_mod data tail Ht) as (Hmod & Hge & _).
  set (pd := pData data tail) in *.
  set (n := len pd / 16).
  assert (Hn : len pd = 16 * n)
    by (pose proof (Z.div_mod (len pd) 16 ltac:(lia)); unfold n; lia).
  assert (Hn1 : 1 <= n) by lia.
  assert (Henc : len (encData mk iv pd) = 16 * n)
    by (rewrite (encData_length mk iv pd n); auto; lia).
  rewrite Decrypt_frame
    by (auto using aes_KeySizeOk_len, Hash_length).
  unfold hmac_Equal. rewrite bool_decide_eq_true_2 by reflexivity. cbn [negb].
  rewrite (aes_NewCipher_Ok _ Hk). cbn [wrapErr obind].
  unfold cipher_NewCBCDecrypter. cbn [aesBlock BlockSize].
  replace (len iv' =? aes_BlockSize) with true
    by (symmetry; apply Z.eqb_eq; unfold len, aes_BlockSize; lia).
  cbn [obind]. rewrite make_Ok by lia. cbn [obind].
  fold (aesBlock (key mk)).
  rewrite (CryptBlocks_decrypt_encData mk iv iv' pd n) by assumption.
  reflexivity.
Qed.

(** [Encrypt] returns a record only in the situation of [Encrypt_Ok]. *)
Lemma Encrypt_Ok_inv mk data r c r' :
  Encrypt mk data r = Ok (c, r') ->
  aes_KeySizeOk (key mk) = true /\
  exists iv tail,
    r = iv ++ tail ++ r' /\ length iv = 16%nat /\ len tail = padSize data /\
    c = iv ++ encData mk iv (pData data tail)
           ++ Hash mk (encData mk iv (pData data tail)).
Proof.
  intros HE. pose proof (padSize_range data) as Hp.
  destruct (aes_KeySizeOk (key mk)) eqn:Hk.
  - split; [reflexivity|].
    destruct (Z_le_gt_dec (16 + padSize data) (len r)) as [Hr|Hr].
    + set (iv := take 16 r).
      set (tail := take (Z.to_nat (padSize data)) (drop 16 r)).
      set (r0 := drop (Z.to_nat (padSize data)) (drop 16 r)).
      assert (Hsplit : r = iv ++ tail ++ r0)
        by (unfold iv, tail, r0; rewrite !take_drop; reflexivity).
      assert (Hiv : length iv = 16%nat)
        by (unfold iv; rewrite length_take; unfold len in Hr; lia).
      assert (Ht : len tail = padSize data)
        by (unfold tail, len in *; rewrite length_take, length_drop; lia).
      rewrite Hsplit, Encrypt_Ok in HE by assumption.
      injection HE as <- <-. exists iv, tail. auto.
    + exfalso. revert HE. unfold Encrypt.
      rewrite (aes_KeySizeOk_len _ Hk), (aes_NewCipher_Ok _ Hk).
      cbn [wrapErr obind].
      destruct (Z_le_gt_dec 16 (len r)) as [H16|H16].
      * rewrite ReadFull_take by (unfold aes_BlockSize; lia). cbn [obind].
        rewrite ReadFull_short; [discriminate|].
        fold (padSize data). unfold len in *. rewrite length_drop.
        unfold aes_BlockSize. lia.
      * rewrite ReadFull_short by (unfold aes_BlockSize; lia). discriminate.
  - exfalso. revert HE. unfold Encrypt, aes_NewCipher. rewrite Hk.
    destruct (len (key mk) =? 0); discriminate.
Qed.

(** [Encrypt] returns a record when the key is an AES key and the entropy
    source supplies the 16 bytes of the IV and the tail of the padding. *)
Lemma Encrypt_returns (mk : MasterKey) (m : bytes) (r : Rand) :
  aes_KeySizeOk (key mk) = true -> 16 + padSize m <= len r ->
  exists c r', Encrypt mk m r = Ok (c, r').
Proof.
  intros Hk Hr. pose proof (padSize_range m) as Hp.
  set (iv := take 16 r).
  set (tail := take (Z.to_nat (padSize m)) (drop 16 r)).
  set (r' := drop (Z.to_nat (padSize m)) (drop 16 r)).
  assert (Hsplit : r = iv ++ tail ++ r')
    by (unfold iv, tail, r'; rewrite !take_drop; reflexivity).
  assert (Hiv : length iv = 16%nat)
    by (unfold iv; rewrite length_take; unfold len in Hr; lia).
  assert (Ht : len tail = padSize m)
    by (unfold tail, len in *; rewrite length_take, length_drop; lia).
  eexists _, r'. rewrite Hsplit. apply Encrypt_Ok; assumption.
Qed.

(** C1. For every master key, byte string [m] (of any length, the empty one
    included) and state [r] of the entropy source: whenever [Encrypt] returns
    a record, [Decrypt] on that record returns [m] without error; and
    [Encrypt] does return a record when the key is an AES key (16, 24 or 32
    bytes; [Create] makes 32) and the source supplies the IV and the tail. *)
Theorem Decrypt_Encrypt (mk : MasterKey) (m : bytes) (r : Rand) :
  (aes_KeySizeOk (key mk) = true -> 16 + padSize m <= len r ->
   exists c r', Encrypt mk m r = Ok (c, r'))
  /\ (forall c r', Encrypt mk m r = Ok (c, r') -> Decrypt mk c = Ok m).
Proof.
  split.
  - apply Encrypt_returns.
  - intros c r' HE.
    destruct (Encrypt_Ok_inv _ _ _ _ _ HE) as (Hk & iv & tail & _ & Hiv & Ht & ->).
    rewrite Decrypt_record by assumption.
    rewrite reiv_same by exact Hiv. apply unpad_pData. exact Ht.
Qed.

End Roundtrip.

(** The round trip run on the sample instances: a 32-byte key of ones, the
    message "A" and an entropy source of 30 zero bytes. *)
Lemma Decrypt_Encrypt_witness :
  exists c r',
    masterkey.Encrypt {| masterkey.key := repeat x01 32 |} [x41] (repeat x00 30)
      = Ok (c, r')
    /\ masterkey.Decrypt {| masterkey.key := repeat x01 32 |} c = Ok [x41].
Proof.
  destruct (Decrypt_Encrypt {| masterkey.key := repeat x01 32 |} [x41] (repeat x00 30))
    as [Hex Hdec].
  destruct Hex as (c & r' & HE); [reflexivity|vm_compute; discriminate|].
  exists c, r'. split; [exact HE|]. exact (Hdec c r' HE).
Defined.

(** ** Tampering with a record *)

Lemma byte_xor_cancel_l (a b : byte) : byte_xor a (byte_xor a b) = b.
Proof.
  transitivity (Byte.of_bits (Byte.to_bits b)); [|apply Byte.of_bits_to_bits].
  unfold byte_xor.
  destruct (Byte.to_bits a) as (a0 & a1 & a2 & a3 & a4 & a5 & a6 & a7).
  destruct (Byte.to_bits b) as (b0 & b1 & b2 & b3 & b4 & b5 & b6 & b7).
  rewrite Byte.to_bits_of_bits.
  rewrite <- !xorb_assoc, !xorb_nilpotent, !xorb_false_l.
  reflexivity.
Qed.

Lemma byte_xor_nilpotent (a : byte) : byte_xor a a = x00.
Proof.
  unfold byte_xor.
  destruct (Byte.to_bits a) as (a0 & a1 & a2 & a3 & a4 & a5 & a6 & a7).
  rewrite !xorb_nilpotent. reflexivity.
Qed.

Lemma bit_mask_nonzero j : (j < 8)%nat -> bit_mask j <> x00.
Proof.
  intros Hj.
  do 8 (destruct j as [|j]; [vm_compute; discriminate|]). lia.
Qed.

Lemma byte_xor_bit_mask b j : (j < 8)%nat -> byte_xor b (bit_mask j) <> b.
Proof.
  intros Hj Heq. apply (bit_mask_nonzero j Hj).
  rewrite <- (byte_xor_cancel_l b (bit_mask j)), Heq.
  apply byte_xor_nilpotent.
Qed.

Lemma flip_bit_length i j data : length (flip_bit i j data) = length data.
Proof. apply length_alter. Qed.

Lemma flip_bit_neq i j (data : bytes) :
  (i < length data)%nat -> (j < 8)%nat -> flip_bit i j data <> data.
Proof.
  intros Hi Hj Heq.
  destruct (lookup_lt_is_Some_2 data i Hi) as [b Hb].
  assert (Hl : flip_bit i j data !! i = Some (byte_xor b (bit_mask j)))
    by (unfold flip_bit; rewrite list_lookup_alter_eq, Hb; reflexivity).
  rewrite Heq, Hb in Hl. injection Hl as Hl.
  symmetry in Hl. exact (byte_xor_bit_mask b j Hj Hl).
Qed.

Lemma flip_bit_app_l i j (a rest : bytes) :
  (i < length a)%nat -> flip_bit i j (a ++ rest) = flip_bit i j a ++ rest.
Proof. intros Hi. unfold flip_bit. apply alter_app_l. exact Hi. Qed.

Lemma flip_bit_app_r i j (a rest : bytes) :
  (length a <= i)%nat ->
  flip_bit i j (a ++ rest) = a ++ flip_bit (i - length a) j rest.
Proof. intros Hi. unfold flip_bit. apply alter_app_r_alt. exact Hi. Qed.

Lemma record_ciphertext_parts (iv enc mac : bytes) :
  length iv = 16%nat -> length mac = 32%nat ->
  record_ciphertext (iv ++ enc ++ mac) = enc.
Proof.
  intros Hiv Hmac. unfold record_ciphertext.
  rewrite drop_app_length' by (symmetry; exact Hiv).
  rewrite !length_app.
  replace (length iv + (length enc + length mac) - 48)%nat with (length enc) by lia.
  apply take_app_length.
Qed.

Section Tamper.
  Context `{SHA256, AES}.
  Import masterkey.

(** A record whose MAC part does not match its ciphertext part is refused. *)
Lemma Decrypt_bad_mac mk iv enc mac :
  (len (key mk) =? 0) = false -> length iv = 16%nat -> length mac = 32%nat ->
  mac <> Hash mk enc ->
  Decrypt mk (iv ++ enc ++ mac) = Err ErrInvalidHmac.
Proof.
  intros Hk Hiv Hmac Hne. rewrite Decrypt_frame by assumption.
  unfold hmac_Equal. rewrite bool_decide_eq_false_2 by exact Hne. reflexivity.
Qed.

(** C2, as the code has it. The HMAC covers the CBC ciphertext only. For a
    record [c] returned by [Encrypt], flipping any bit of any byte after the
    16-byte IV makes [Decrypt] fail with the invalid-hmac error, and so return
    no plaintext: unconditionally when the byte lies in the trailing 32-byte
    HMAC, and, when it lies in the ciphertext, as long as the modified
    ciphertext does not have the HMAC of the original one. Nothing is promised
    for a flip inside the IV. *)
Theorem Decrypt_flip_after_iv (mk : MasterKey) (m : bytes) (r r' : Rand)
    (c : bytes) (i j : nat) :
  Encrypt mk m r = Ok (c, r') ->
  (16 <= i < length c)%nat -> (j < 8)%nat ->
  ((i < length c - 32)%nat ->
   Hash mk (record_ciphertext (flip_bit i j c)) <> Hash mk (record_ciphertext c)) ->
  Decrypt mk (flip_bit i j c) = Err ErrInvalidHmac.
Proof.
  intros HE Hi Hj Hcoll.
  destruct (Encrypt_Ok_inv _ _ _ _ _ HE) as (Hk & iv & tail & _ & Hiv & Ht & ->).
  set (enc := encData mk iv (pData m tail)) in *.
  pose proof (Hash_length mk enc) as Hmac.
  pose proof (aes_KeySizeOk_len _ Hk) as Hk0.
  rewrite !length_app, Hiv, Hmac in Hi, Hcoll.
  rewrite flip_bit_app_r in * by lia. rewrite Hiv in *.
  destruct (Nat.lt_ge_cases (i - 16) (length enc)) as [Hin|Hin].
  - (* the flipped byte is in the ciphertext *)
    rewrite flip_bit_app_l in * by exact Hin.
    rewrite !record_ciphertext_parts in Hcoll
      by (auto; rewrite ?flip_bit_length; auto).
    apply Decrypt_bad_mac; auto.
    intros Heq. apply Hcoll; [lia|]. symmetry. exact Heq.
  - (* the flipped byte is in the HMAC *)
    rewrite flip_bit_app_r by exact Hin.
    apply Decrypt_bad_mac; auto.
    + rewrite flip_bit_length. exact Hmac.
    + apply flip_bit_neq; [lia|exact Hj].
Qed.

End Tamper.

(** The refusal run on the sample instances, for bit 0 of byte 16 (the first
    ciphertext byte) of the record of "A". *)
Lemma Decrypt_flip_after_iv_witness :
  exists c r',
    masterkey.Encrypt {| masterkey.key := repeat x01 32 |} [x41] (repeat x00 30)
      = Ok (c, r')
    /\ masterkey.Decrypt {| masterkey.key := repeat x01 32 |} (flip_bit 16 0 c)
       = Err ErrInvalidHmac.
Proof.
  eexists _, _. split; [vm_compute; reflexivity|].
  eapply (Decrypt_flip_after_iv {| masterkey.key := repeat x01 32 |} [x41]
            (repeat x00 30) _ _ 16 0).
  - vm_compute. reflexivity.
  - vm_compute. lia.
  - lia.
  - intros _. vm_compute. discriminate.
Defined.

(** C2 as stated fails for the IV prefix. With the 32-byte key of ones, the
    message "A" and 30 zero bytes of entropy, whatever SHA-256 and AES are:
    flipping bit 0 of byte 1 of the record (inside the IV) is not detected,
    and [Decrypt] returns the bytes "@" instead of the invalid-hmac error. *)
Lemma Decrypt_flip_in_iv_undetected :
  exists (mk : masterkey.MasterKey) (m : bytes) (r : Rand) (i j : nat),
    (i < 16)%nat /\ (j < 8)%nat /\
    forall (hash : SHA256) (aes : AES), exists c r',
      masterkey.Encrypt mk m r = Ok (c, r')
      /\ masterkey.Decrypt mk (flip_bit i j c) = Ok [x40]
      /\ [x40] <> m.
Proof.
  exists {| masterkey.key := repeat x01 32 |}, [x41], (repeat x00 30), 1%nat, 0%nat.
  split; [lia|]. split; [lia|]. intros hash aes.
  eexists _, [].
  split; [|split].
  - apply (Encrypt_Ok {| masterkey.key := repeat x01 32 |} [x41]
             (repeat x00 16) (repeat x00 14) []); reflexivity.
  - rewrite flip_bit_app_l by (simpl; lia).
    rewrite Decrypt_record by reflexivity.
    vm_compute. reflexivity.
  - discriminate.
Qed.

(** ** Short inputs *)

Section Short.
  Context `{SHA256, AES}.
  Import masterkey.

(** An input shorter than IV plus HMAC: one of the first two slice expressions
    of [Decrypt] is out of range. *)
Lemma Decrypt_below_48 mk data :
  len (key mk) <> 0 -> len data < 48 -> Decrypt mk data = Panic.
Proof.
  intros Hk Hd. unfold Decrypt.
  destruct (Z.eqb_spec (len (key mk)) 0) as [|_]; [contradiction|].
  destruct (slice 0 aes_BlockSize data) as [iv| | |] eqn:Hiv; try reflexivity;
    try (exfalso; revert Hiv; unfold slice; destruct (_ && _); discriminate).
  cbn [obind]. rewrite slice_Panic; [reflexivity|].
  unfold aes_BlockSize. lia.
Qed.

(** [CryptBlocks] followed by the read of the pad size, on fewer than 16
    bytes: no whole block, or no byte at index 0. *)
Lemma unpad_short b iv (enc : bytes) :
  BlockSize b = 16 -> len enc < 16 ->
  (do dec <- CryptBlocks {| mode_block := b; mode_iv := iv; mode_decrypt := true |}
                         (repeat x00 (Z.to_nat (len enc))) enc;
   do padSize <- index 0 dec;
   slice 1 (len dec - int_of_byte padSize) dec) = Panic.
Proof.
  intros Hbs He. destruct enc as [|e enc].
  - unfold CryptBlocks. cbn [mode_block]. rewrite Hbs. reflexivity.
  - unfold CryptBlocks. cbn [mode_block]. rewrite Hbs.
    change (negb (0 <? 16)) with false. cbn match.
    pose proof (len_nonneg enc).
    assert (Hl : len (e :: enc) = len enc + 1) by (unfold len; simpl length; lia).
    rewrite Z.mod_small by lia.
    destruct (Z.eqb_spec (len (e :: enc)) 0); [lia|]. reflexivity.
Qed.

(** C3, as the code has it. [Decrypt] has no short-ciphertext error: it checks
    no length. For every input shorter than 64 bytes it returns no bytes. With
    a key set, an input shorter than 48 bytes (IV plus HMAC) makes it panic on
    an out-of-range slice; an input of 48 to 63 bytes makes it return the
    invalid-hmac error, or panic when the last 32 bytes are the HMAC of the
    bytes between (or return the wrapped AES key-size error when the key is
    not an AES key). *)
Theorem Decrypt_short (mk : MasterKey) (data : bytes) :
  len data < 64 ->
  is_Ok (Decrypt mk data) = false
  /\ (len (key mk) <> 0 -> len data < 48 -> Decrypt mk data = Panic)
  /\ (len (key mk) <> 0 -> 48 <= len data ->
      Decrypt mk data = Err ErrInvalidHmac \/ Decrypt mk data = Panic
      \/ Decrypt mk data = Err ErrAesNewCipher).
Proof.
  intros Hd.
  assert (H48 : len (key mk) <> 0 -> 48 <= len data ->
      Decrypt mk data = Err ErrInvalidHmac \/ Decrypt mk data = Panic
      \/ Decrypt mk data = Err ErrAesNewCipher).
  { intros Hk Hge.
    set (iv := take 16 data).
    set (enc := take (length data - 48) (drop 16 data)).
    set (mac := drop (length data - 48) (drop 16 data)).
    assert (Hsplit : data = iv ++ enc ++ mac)
      by (unfold iv, enc, mac; rewrite !take_drop; reflexivity).
    assert (Hiv : length iv = 16%nat)
      by (unfold iv; rewrite length_take; unfold len in *; lia).
    assert (Hmac : length mac = 32%nat)
      by (unfold mac; rewrite !length_drop; unfold len in *; lia).
    assert (Henc : len enc < 16)
      by (unfold enc, len in *; rewrite length_take, length_drop; lia).
    rewrite Hsplit, Decrypt_frame; [|apply Z.eqb_neq; exact Hk|exact Hiv|exact Hmac].
    destruct (hmac_Equal mac (Hash mk enc)); cbn [negb]; [|left; reflexivity].
    unfold aes_NewCipher. destruct (aes_KeySizeOk (key mk));
      cbn [wrapErr obind]; [|right; right; reflexivity].
    unfold cipher_NewCBCDecrypter. cbn [aesBlock BlockSize].
    replace (len iv =? aes_BlockSize) with true
      by (symmetry; apply Z.eqb_eq; unfold len, aes_BlockSize; lia).
    cbn [obind]. rewrite make_Ok by apply len_nonneg. cbn [obind].
    right; left. apply unpad_short; [reflexivity|exact Henc]. }
  split; [|split].
  - destruct (Z.eqb_spec (len (key mk)) 0) as [Hk|Hk].
    + unfold Decrypt. rewrite Hk. reflexivity.
    + destruct (Z_lt_ge_dec (len data) 48) as [Hlt|Hge].
      * rewrite Decrypt_below_48 by assumption. reflexivity.
      * destruct (H48 Hk ltac:(lia)) as [-> | [-> | ->]]; reflexivity.
  - apply Decrypt_below_48.
  - exact H48.
Qed.

End Short.

(** The short-input behaviour run on the sample instances, for 47 zero bytes
    and the 32-byte key of ones. *)
Lemma Decrypt_short_witness :
  is_Ok (masterkey.Decrypt {| masterkey.key := repeat x01 32 |} (repeat x00 47)) = false
  /\ masterkey.Decrypt {| masterkey.key := repeat x01 32 |} (repeat x00 47) = Panic.
Proof.
  destruct (Decrypt_short {| masterkey.key := repeat x01 32 |} (repeat x00 47))
    as (Hno & Hpanic & _); [vm_compute; reflexivity|].
  split; [exact Hno|].
  apply Hpanic; vm_compute; [discriminate|reflexivity].
Defined.

(** C3 as stated fails: there is no short-ciphertext error. On the empty
    input, whatever SHA-256 and AES are and for every key that is set,
    [Decrypt] panics on its first slice expression. *)
Lemma Decrypt_empty_input_panics :
  exists data : bytes,
    len data < 64 /\
    forall (hash : SHA256) (aes : AES) (mk : masterkey.MasterKey),
      len (masterkey.key mk) <> 0 -> masterkey.Decrypt mk data = Panic.
Proof.
  exists []. split; [reflexivity|]. intros hash aes mk Hk.
  apply Decrypt_below_48; [exact Hk|reflexivity].
Qed.

(** ** Encrypted keys *)

Lemma ReadFull_Ok_inv n (r out r' : bytes) :
  ReadFull n r = Ok (out, r') -> len out = n /\ r = out ++ r'.
Proof.
  unfold ReadFull. destruct ((0 <=? n) && (n <=? len r)) eqn:E; [|discriminate].
  rewrite andb_true_iff, !Z.leb_le in E. intros [= <- <-].
  split; [|symmetry; apply take_drop].
  unfold len in *. rewrite length_take. lia.
Qed.

Section EncryptedKey.
  Context `{SHA256, AES}.
  Import masterkey.

(** C4. For every master key, every call of [NewEncryptedKey] that returns a
    byte string returns one of exactly 96 bytes ([EncryptedKeySize]): a 16-byte
    IV, 48 bytes of CBC ciphertext of the pad-size byte 15, the fresh 32-byte
    key and 15 random tail bytes, and the 32-byte HMAC of that ciphertext. The
    call does return a byte string when the master key is an AES key and the
    entropy source supplies the 32 + 16 + 15 bytes read. *)
Theorem NewEncryptedKey_size (mk : MasterKey) (r : Rand) :
  (aes_KeySizeOk (key mk) = true -> 63 <= len r ->
   exists c r', NewEncryptedKey mk r = Ok (c, r'))
  /\ (forall c r', NewEncryptedKey mk r = Ok (c, r') ->
      len c = EncryptedKeySize
      /\ exists iv k tail,
           len iv = 16 /\ len k = 32 /\ len tail = 15
           /\ len (encData mk iv ([byte_of_int 15] ++ k ++ tail)) = 48
           /\ len (Hash mk (encData mk iv ([byte_of_int 15] ++ k ++ tail))) = 32
           /\ c = iv ++ encData mk iv ([byte_of_int 15] ++ k ++ tail)
                    ++ Hash mk (encData mk iv ([byte_of_int 15] ++ k ++ tail))).
Proof.
  assert (Hpad : forall k : bytes, len k = 32 -> padSize k = 15)
    by (intros k Hk; unfold padSize; rewrite Hk; reflexivity).
  split.
  - intros Hk Hr. unfold NewEncryptedKey.
    rewrite ReadFull_take by lia. cbn [wrapErr obind].
    set (k := take (Z.to_nat 32) r). set (r1 := drop (Z.to_nat 32) r).
    assert (Hlk : len k = 32)
      by (unfold k, len in *; rewrite length_take; lia).
    apply Encrypt_returns; [exact Hk|].
    rewrite (Hpad k Hlk). unfold r1, len in *. rewrite length_drop. lia.
  - intros c r' HN. unfold NewEncryptedKey in HN.
    destruct (ReadFull 32 r) as [[k r1]| | |] eqn:HR; try discriminate.
    cbn [wrapErr obind] in HN.
    destruct (ReadFull_Ok_inv _ _ _ _ HR) as [Hlk _].
    destruct (Encrypt_Ok_inv _ _ _ _ _ HN) as (Hk & iv & tail & _ & Hiv & Ht & ->).
    rewrite (Hpad k Hlk) in Ht.
    unfold pData. rewrite (Hpad k Hlk).
    set (pd := [byte_of_int 15] ++ k ++ tail).
    assert (Hpd : len pd = 16 * 3).
    { unfold pd. rewrite !len_app, Hlk, Ht. reflexivity. }
    assert (Henc : len (encData mk iv pd) = 48)
      by (rewrite (encData_length mk iv pd 3); auto; lia).
    assert (Hmac : len (Hash mk (encData mk iv pd)) = 32)
      by (unfold len; rewrite Hash_length; reflexivity).
    split.
    + rewrite !len_app, Henc, Hmac. unfold len. rewrite Hiv. reflexivity.
    + exists iv, k, tail. unfold len at 1. rewrite Hiv. auto 10.
Qed.

End EncryptedKey.

(** The size run on the sample instances: the 32-byte key of ones and an
    entropy source of 63 zero bytes. *)
Lemma NewEncryptedKey_size_witness :
  exists c r',
    masterkey.NewEncryptedKey {| masterkey.key := repeat x01 32 |} (repeat x00 63)
      = Ok (c, r')
    /\ len c = 96.
Proof.
  destruct (NewEncryptedKey_size {| masterkey.key := repeat x01 32 |} (repeat x00 63))
    as [Hex Hsize].
  destruct Hex as (c & r' & HN); [reflexivity|vm_compute; discriminate|].
  exists c, r'. split; [exact HN|]. exact (proj1 (Hsize c r' HN)).
Defined.

(** ** The key file *)

Lemma int_of_byte_1 v : int_of_byte v = 1 -> v = x01.
Proof.
  unfold int_of_byte. intros Hv.
  assert (HN : Byte.to_N v = 1%N) by lia.
  pose proof (Byte.of_to_N v) as Hof. rewrite HN in Hof.
  vm_compute in Hof. congruence.
Qed.

Lemma numIterFor_cases p : numIterFor p = 10 \/ numIterFor p = 200000.
Proof. unfold numIterFor. destruct (bool_decide _); auto. Qed.

Lemma Uint32_le_numIterFor p : Uint32_le (PutUint32_le (numIterFor p)) = Ok (numIterFor p).
Proof. destruct (numIterFor_cases p) as [-> | ->]; vm_compute; reflexivity. Qed.

Section KeyFile.
  Context `{SHA256, AES, GCM}.
  Import masterkey.

Lemma hmac_Sum_length prf msg : length (hmac_Sum prf msg) = 32%nat.
Proof. apply sha256_Size. Qed.

Lemma pbkdf2_iter_length prf n UT :
  length (snd UT) = 32%nat ->
  length (snd (N.iter n (pbkdf2_step prf) UT)) = 32%nat.
Proof.
  intros HT. induction n as [|n IH] using N.peano_ind; [exact HT|].
  rewrite N.iter_succ. unfold pbkdf2_step at 1. cbn [snd].
  rewrite xor_bytes_length, IH, hmac_Sum_length. reflexivity.
Qed.

Lemma pbkdf2_Key_length password salt iter :
  length (pbkdf2_Key password salt iter 32) = 32%nat.
Proof.
  unfold pbkdf2_Key. change ((32 + 32 - 1) / 32) with 1.
  change (Z.to_nat 1) with 1%nat. change (Z.to_nat 32) with 32%nat.
  cbn [seq map concat]. rewrite app_nil_r.
  rewrite take_ge; unfold pbkdf2_block;
    rewrite pbkdf2_iter_length; try reflexivity; try lia;
    cbn [snd]; apply hmac_Sum_length.
Qed.

Lemma derivedKey_KeySizeOk p salt n : aes_KeySizeOk (derivedKey p salt n) = true.
Proof.
  unfold aes_KeySizeOk, derivedKey, len. rewrite pbkdf2_Key_length. reflexivity.
Qed.

(** [Read] on a well-formed key file: everything up to [gcm.Open] succeeds,
    and the result is what [gcm.Open] yields under the key derived from the
    passphrase given to [Read]. *)
Lemma Read_keyFile p file fs salt p0 nonce sealed :
  fs_files fs !! file = Some (keyFile salt (numIterFor p0) nonce sealed) ->
  length salt = 16%nat -> length nonce = 12%nat ->
  Read p file fs
  = match gcm_Open (aesBlock (derivedKey p salt (numIterFor p0))) nonce sealed [] with
    | Some masterKey => Ok {| key := masterKey |}
    | None => Err ErrGcmOpen
    end.
Proof.
  intros Hfile Hsalt Hnonce. unfold Read, os_ReadFile. rewrite Hfile.
  cbn [obind]. unfold keyFile.
  set (nb := PutUint32_le (numIterFor p0)).
  assert (Hnb : length nb = 4%nat) by reflexivity.
  change (index 0 ([x01] ++ salt ++ nb ++ nonce ++ sealed)) with (Ok x01 : outcome byte).
  cbn [obind].
  rewrite (slice_app_r [x01]) by reflexivity. cbn [obind].
  change (negb (int_of_byte x01 =? 1)) with false. cbn match.
  rewrite slice_app_l by (unfold len; lia). cbn [obind].
  rewrite slice_app_r by (unfold len; lia). cbn [obind].
  rewrite slice_app_l by (unfold len; lia). cbn [obind].
  unfold nb at 1. rewrite Uint32_le_numIterFor. cbn [obind].
  rewrite slice_app_r by (unfold len; lia). cbn [obind].
  fold (derivedKey p salt (numIterFor p0)).
  rewrite aes_NewCipher_Ok by apply derivedKey_KeySizeOk. cbn [obind].
  unfold cipher_NewGCM. cbn [aesBlock BlockSize].
  change (aes_BlockSize =? 16) with true. cbn [obind].
  fold (aesBlock (derivedKey p salt (numIterFor p0))).
  rewrite slice_app_l by (unfold len, gcm_NonceSize; lia). cbn [obind].
  rewrite slice_app_r by (unfold len, gcm_NonceSize; lia). cbn [obind].
  reflexivity.
Qed.

(** The two file-system steps of [Save] succeed exactly on a path that can
    be saved. *)
Lemma Save_files_Ok (file : string) (data : bytes) (fs : FS) :
  savable file fs = true ->
  os_MkdirAll (fst (filepath_Split file)) fs = Ok tt
  /\ os_WriteFile file data fs
     = Ok {| fs_files := <[file := data]> (fs_files fs);
             fs_mkdir := fs_mkdir fs; fs_writable := fs_writable fs |}.
Proof.
  unfold savable, os_MkdirAll, os_WriteFile. intros Hs.
  apply andb_true_iff in Hs as [Hs Hw]. apply andb_true_iff in Hs as [Hs Hn].
  apply andb_true_iff in Hs as [Hd Hm].
  destruct (bool_decide (fst (filepath_Split file) = EmptyString)); [discriminate|].
  destruct (bool_decide (snd (filepath_Split file) = EmptyString)); [discriminate|].
  rewrite Hm, Hw. split; reflexivity.
Qed.

Lemma Save_files_Ok_inv (file : string) (data : bytes) (fs fs' : FS) :
  obind (os_MkdirAll (fst (filepath_Split file)) fs)
        (fun _ => os_WriteFile file data fs) = Ok fs' ->
  savable file fs = true
  /\ fs' = {| fs_files := <[file := data]> (fs_files fs);
              fs_mkdir := fs_mkdir fs; fs_writable := fs_writable fs |}.
Proof.
  unfold savable, os_MkdirAll, os_WriteFile.
  destruct (bool_decide (fst (filepath_Split file) = EmptyString)); [discriminate|].
  destruct (fs_mkdir fs (fst (filepath_Split file))); [|discriminate].
  cbn [obind].
  destruct (bool_decide (snd (filepath_Split file) = EmptyString)); [discriminate|].
  destruct (fs_writable fs file); [|discriminate].
  intros [= <-]. split; reflexivity.
Qed.

(** What [Save] writes when it succeeds. *)
Lemma Save_Ok_inv mk p0 file fs r fs' r' :
  Save mk p0 file fs r = Ok (fs', r') ->
  exists salt nonce,
    r = salt ++ nonce ++ r' /\ length salt = 16%nat /\ length nonce = 12%nat /\
    fs_files fs' !! file
    = Some (keyFile salt (numIterFor p0) nonce
              (gcm_Seal (aesBlock (derivedKey p0 salt (numIterFor p0))) nonce (key mk) [])).
Proof.
  unfold Save. fold (numIterFor p0).
  destruct (ReadFull 16 r) as [[salt r1]| | |] eqn:HR1; try discriminate.
  cbn [obind]. fold (derivedKey p0 salt (numIterFor p0)).
  rewrite aes_NewCipher_Ok by apply derivedKey_KeySizeOk. cbn [obind].
  unfold cipher_NewGCM. cbn [aesBlock BlockSize].
  change (aes_BlockSize =? 16) with true. cbn [obind].
  fold (aesBlock (derivedKey p0 salt (numIterFor p0))).
  destruct (ReadFull gcm_NonceSize r1) as [[nonce r2]| | |] eqn:HR2; try discriminate.
  cbn [obind]. cbv zeta.
  match goal with
  | |- obind (os_MkdirAll _ _) (fun _ => obind (os_WriteFile _ ?data _) _) = _ -> _ =>
      destruct (obind (os_MkdirAll (fst (filepath_Split file)) fs)
                      (fun _ => os_WriteFile file data fs)) as [fs1| | |] eqn:HF
  end.
  2-4: (unfold obind in *; destruct (os_MkdirAll _ fs); try discriminate;
        destruct (os_WriteFile _ _ fs); discriminate).
  apply Save_files_Ok_inv in HF as [_ ->].
  destruct (os_MkdirAll _ fs) as [[]| | |]; cbn [obind]; try discriminate.
  destruct (os_WriteFile _ _ fs) as [fs1| | |] eqn:HW; cbn [obind]; try discriminate.
  intros [= <- <-].
  destruct (ReadFull_Ok_inv _ _ _ _ HR1) as [Hls ->].
  destruct (ReadFull_Ok_inv _ _ _ _ HR2) as [Hln ->].
  exists salt, nonce.
  unfold len, gcm_NonceSize in *.
  split; [reflexivity|]. split; [lia|]. split; [lia|].
  revert HW. unfold os_WriteFile.
  destruct (bool_decide _); [discriminate|].
  destruct (fs_writable fs file); [|discriminate].
  intros [= <-]. cbn [fs_files]. rewrite lookup_insert_eq. reflexivity.
Qed.

(** [Save] succeeds when the path can be saved and the entropy source
    supplies the salt and the nonce. *)
Lemma Save_Ok mk p0 file fs r :
  savable file fs = true -> 28 <= len r ->
  exists fs' r', Save mk p0 file fs r = Ok (fs', r').
Proof.
  intros Hw Hr. unfold Save.
  rewrite ReadFull_take by lia. cbn [obind].
  fold (numIterFor p0). 
  fold (derivedKey p0 (take (Z.to_nat 16) r) (numIterFor p0)).
  rewrite aes_NewCipher_Ok by apply derivedKey_KeySizeOk. cbn [obind].
  unfold cipher_NewGCM. cbn [aesBlock BlockSize].
  change (aes_BlockSize =? 16) with true. cbn [obind].
  rewrite ReadFull_take
    by (unfold gcm_NonceSize, len in *; rewrite length_drop; lia).
  cbn [obind]. cbv zeta.
  match goal with
  | |- context [os_WriteFile file ?data fs] =>
      destruct (Save_files_Ok file data fs Hw) as [-> ->]
  end.
  cbn [obind]. eexists _, _. reflexivity.
Qed.

End KeyFile.

(** ** Reading a saved key file *)

Section Binding.
  Context `{SHA256, AES, GCM}.
  Import masterkey.

(** HMAC hashes a key longer than the 64-byte block before using it, so the
    key and its digest key the same MAC. *)
Lemma hmac_New_long_key (k : bytes) :
  64 < len k -> hmac_New (sha256_Sum k) = hmac_New k.
Proof.
  intros Hk. unfold hmac_New.
  replace (64 <? len (sha256_Sum k)) with false
    by (symmetry; apply Z.ltb_ge; unfold len; rewrite sha256_Size; lia).
  replace (64 <? len k) with true by (symmetry; apply Z.ltb_lt; exact Hk).
  reflexivity.
Qed.

Lemma pbkdf2_Key_long_password (password salt : bytes) iter keyLen :
  64 < len password ->
  pbkdf2_Key (sha256_Sum password) salt iter keyLen
  = pbkdf2_Key password salt iter keyLen.
Proof.
  intros Hp. unfold pbkdf2_Key. rewrite hmac_New_long_key by exact Hp. reflexivity.
Qed.

(** [Read] of a file that [Save] wrote comes down to GCM's [Open] under the
    key derived from the passphrase given to [Read], with the salt, the
    iteration count and the nonce of the file. *)
Lemma Read_after_Save (mk : MasterKey) (p0 p1 file : string) (fs fs' : FS) (r r' : Rand) :
  Save mk p0 file fs r = Ok (fs', r') ->
  Read p1 file fs'
  = match gcm_Open (aesBlock (derivedKey p1 (take 16 r) (numIterFor p0)))
            (take 12 (drop 16 r))
            (gcm_Seal (aesBlock (derivedKey p0 (take 16 r) (numIterFor p0)))
               (take 12 (drop 16 r)) (key mk) []) []
    with
    | Some masterKey => Ok {| key := masterKey |}
    | None => Err ErrGcmOpen
    end.
Proof.
  intros HS.
  destruct (Save_Ok_inv _ _ _ _ _ _ _ HS) as (salt & nonce & -> & Hs & Hn & Hfile).
  rewrite take_app_length' by (symmetry; exact Hs).
  rewrite drop_app_length' by (symmetry; exact Hs).
  rewrite take_app_length' by (symmetry; exact Hn).
  apply (Read_keyFile p1 file fs' salt p0 nonce _ Hfile Hs Hn).
Qed.

(** A passphrase from which PBKDF2 derives the key of the saved file opens
    the file. *)
Lemma Read_same_derivedKey (mk : MasterKey) (p0 p1 file : string) (fs fs' : FS)
    (r r' : Rand) :
  Save mk p0 file fs r = Ok (fs', r') ->
  derivedKey p1 (take 16 r) (numIterFor p0) = derivedKey p0 (take 16 r) (numIterFor p0) ->
  Read p1 file fs' = Ok mk.
Proof.
  intros HS Hd. rewrite (Read_after_Save mk p0 p1 file fs fs' r r' HS), Hd.
  destruct (Save_Ok_inv _ _ _ _ _ _ _ HS) as (salt & nonce & -> & Hs & Hn & Hfile).
  rewrite take_app_length' by (symmetry; exact Hs).
  rewrite drop_app_length' by (symmetry; exact Hs).
  rewrite take_app_length' by (symmetry; exact Hn).
  rewrite gcm_Open_Seal by (auto; reflexivity). destruct mk; reflexivity.
Qed.

(** C5, as the code has it. On a file written by [Save] with passphrase [p0],
    [Read] with [p1] returns the saved key when [p1 = p0], and likewise
    whenever PBKDF2 derives from [p1] the key it derives from [p0]; the
    passphrase is bound only through the derived key. When GCM's [Open]
    rejects the sealed key under the key derived from [p1], [Read] returns
    that error. *)
Theorem Read_Save (mk : MasterKey) (p0 p1 file : string) (fs fs' : FS) (r r' : Rand) :
  Save mk p0 file fs r = Ok (fs', r') ->
  let salt := take 16 r in
  let nonce := take 12 (drop 16 r) in
  let n := numIterFor p0 in
  (p1 = p0 -> Read p1 file fs' = Ok mk)
  /\ (derivedKey p1 salt n = derivedKey p0 salt n -> Read p1 file fs' = Ok mk)
  /\ (gcm_Open (aesBlock (derivedKey p1 salt n)) nonce
        (gcm_Seal (aesBlock (derivedKey p0 salt n)) nonce (key mk) []) [] = None ->
      Read p1 file fs' = Err ErrGcmOpen).
Proof.
  intros HS. cbv zeta.
  split; [|split].
  - intros ->. apply (Read_same_derivedKey mk p0 p0 file fs fs' r r' HS). reflexivity.
  - apply (Read_same_derivedKey mk p0 p1 file fs fs' r r' HS).
  - intros HO. rewrite (Read_after_Save mk p0 p1 file fs fs' r r' HS), HO. reflexivity.
Qed.

(** C10. [Read] returns normally, with a key or with an error, only on a file
    whose first byte is the version 1. On every file whose first byte differs
    from 1 it ends the process through [log.Fatalf]: the caller receives
    neither a key nor an error value. *)
Theorem Read_version (p file : string) (fs : FS) (b : bytes) :
  fs_files fs !! file = Some b ->
  (forall v rest, b = v :: rest -> v <> x01 -> Read p file fs = Fatal)
  /\ ((exists mk, Read p file fs = Ok mk) \/ (exists e, Read p file fs = Err e) ->
      exists rest, b = x01 :: rest).
Proof.
  intros Hfile.
  assert (Hfatal : forall v rest, b = v :: rest -> v <> x01 -> Read p file fs = Fatal).
  { intros v rest -> Hv. unfold Read, os_ReadFile. rewrite Hfile. cbn [obind].
    change (index 0 (v :: rest)) with
      (if 0 <? len (v :: rest) then Ok v else Panic : outcome byte).
    replace (0 <? len (v :: rest)) with true
      by (symmetry; apply Z.ltb_lt; unfold len; simpl length; lia).
    cbn [obind].
    rewrite (slice_app_r [v] rest) by reflexivity. cbn [obind].
    destruct (Z.eqb_spec (int_of_byte v) 1) as [E|E]; [|reflexivity].
    apply int_of_byte_1 in E. contradiction. }
  split; [exact Hfatal|].
  intros Hret. destruct b as [|v rest].
  - exfalso. unfold Read, os_ReadFile in Hret. rewrite Hfile in Hret.
    destruct Hret as [[mk Hr]|[e Hr]]; discriminate Hr.
  - destruct (decide (v = x01)) as [->|Hv]; [exists rest; reflexivity|].
    exfalso. rewrite (Hfatal v rest eq_refl Hv) in Hret.
    destruct Hret as [[mk Hr]|[e Hr]]; discriminate Hr.
Qed.

End Binding.

(** The passphrase binding run on the sample instances: the 32-byte key of
    ones saved to keys/master.key under the empty passphrase, with 28 zero
    bytes of entropy, is read back under the empty passphrase, and "x" is
    refused. *)
Lemma Read_Save_witness :
  exists fs' r',
    masterkey.Save {| masterkey.key := repeat x01 32 |} "" "keys/master.key"
      (sample_fs ∅) (repeat x00 28) = Ok (fs', r')
    /\ masterkey.Read "" "keys/master.key" fs' = Ok {| masterkey.key := repeat x01 32 |}
    /\ masterkey.Read "x" "keys/master.key" fs' = Err ErrGcmOpen.
Proof.
  destruct (Save_Ok {| masterkey.key := repeat x01 32 |} "" "keys/master.key"
              (sample_fs ∅) (repeat x00 28))
    as (fs' & r' & HS); [reflexivity|vm_compute; discriminate|].
  exists fs', r'. split; [exact HS|].
  destruct (Read_Save _ "" "" _ _ _ _ _ HS) as (Hsame & _ & _).
  destruct (Read_Save _ "" "x" _ _ _ _ _ HS) as (_ & _ & Hother).
  split.
  - apply Hsame. reflexivity.
  - apply Hother. vm_compute. reflexivity.
Defined.

(** The version check run on a one-byte file holding the version 2. *)
Lemma Read_version_witness :
  masterkey.Read "" "master.key"
    (sample_fs {[ "master.key"%string := [x02] ]})
  = Fatal.
Proof.
  destruct (Read_version "" "master.key"
              (sample_fs {[ "master.key"%string := [x02] ]})
              [x02]) as [Hfatal _]; [apply lookup_singleton_eq|].
  apply (Hfatal x02 []); [reflexivity|discriminate].
Defined.

(** C5 as stated fails: another passphrase can be accepted. Take for [p0] the
    65 letters "a...a" and for [p1] the SHA-256 digest of [p0], read as a
    string. Whatever SHA-256, AES and GCM are, and for every master key:
    [Save] under [p0] to keys/master.key (on a file system that lets the
    directory be made and the file be written, with 28 bytes of entropy)
    writes a file that [Read] opens under [p1], although [p1] differs from
    [p0]. *)
Lemma Read_accepts_digest_of_passphrase :
  exists p0 : string,
    forall (hash : SHA256) (aes : AES) (gcm : GCM) (mk : masterkey.MasterKey),
    exists (fs' : FS) (r' : Rand) (p1 : string),
      masterkey.Save mk p0 "keys/master.key" (sample_fs ∅) (repeat x00 28)
      = Ok (fs', r')
      /\ p1 <> p0
      /\ masterkey.Read p1 "keys/master.key" fs' = Ok mk.
Proof.
  exists (string_of_list_byte (repeat "a"%byte 65)).
  intros hash aes gcm mk.
  set (p0 := string_of_list_byte (repeat "a"%byte 65)).
  assert (Hb0 : list_byte_of_string p0 = repeat "a"%byte 65)
    by apply list_byte_of_string_of_list_byte.
  set (p1 := string_of_list_byte (sha256_Sum (list_byte_of_string p0))).
  assert (Hb1 : list_byte_of_string p1 = sha256_Sum (list_byte_of_string p0))
    by apply list_byte_of_string_of_list_byte.
  destruct (Save_Ok mk p0 "keys/master.key" (sample_fs ∅) (repeat x00 28))
    as (fs' & r' & HS); [reflexivity|vm_compute; discriminate|].
  exists fs', r', p1.
  split; [exact HS|]. split.
  - intros Heq. apply (f_equal list_byte_of_string) in Heq.
    apply (f_equal (@length byte)) in Heq.
    rewrite Hb1, Hb0, sha256_Size, repeat_length in Heq. discriminate.
  - apply (Read_same_derivedKey mk p0 p1 "keys/master.key" _ _ _ _ HS).
    unfold derivedKey. rewrite Hb1.
    apply pbkdf2_Key_long_password. rewrite Hb0. unfold len.
    rewrite repeat_length. lia.
Qed.

(** ** Users: the allocation of user IDs *)

Section AddUser.
  Context `{SHA256, Encoding}.
  Import database.

Lemma int_of_byte_nonneg b : 0 <= int_of_byte b.
Proof. unfold int_of_byte. lia. Qed.

Lemma rand_Int31_spec max (r : Rand) :
  match rand_Int31 max r with
  | Ok (n, r') => 0 <= n < max /\ (length r' < length r)%nat
  | Err _ => True
  | _ => False
  end.
Proof.
  remember (length r) as k eqn:Hk.
  revert r Hk. induction k as [k IH] using lt_wf_ind. intros r Hk.
  destruct r as [|b0 [|b1 [|b2 [|b3 rest]]]]; cbn [rand_Int31]; trivial.
  set (cand := int_of_byte b0 `mod` 128 * 16777216 + int_of_byte b1 * 65536
               + int_of_byte b2 * 256 + int_of_byte b3).
  assert (Hn0 : 0 <= cand).
  { pose proof (Z.mod_pos_bound (int_of_byte b0) 128 ltac:(lia)).
    pose proof (int_of_byte_nonneg b1). pose proof (int_of_byte_nonneg b2).
    pose proof (int_of_byte_nonneg b3). unfold cand. lia. }
  destruct (Z.ltb_spec cand max) as [Hlt|Hge].
  - split; [lia|]. subst k. cbn [length]. lia.
  - specialize (IH (length rest) ltac:(subst k; simpl; lia) rest eq_refl).
    destruct (rand_Int31 max rest) as [[n r']| | |]; trivial.
    destruct IH as [Hn Hl]. split; [exact Hn|subst k; cbn [length]; lia].
Qed.

Lemma rand_Int_spec max w :
  match rand_Int max w with
  | (Ok n, w') =>
      0 <= n < max /\ trace w' = trace w ++ [EvRandInt n]
      /\ store w' = store w /\ locks w' = locks w
      /\ (length (rand w') < length (rand w))%nat
  | (Err _, w') =>
      trace w' = trace w /\ store w' = store w /\ locks w' = locks w
  | _ => False
  end.
Proof.
  unfold rand_Int. pose proof (rand_Int31_spec max (rand w)) as Hs.
  destruct (rand_Int31 max (rand w)) as [[n r']| | |]; try contradiction.
  - destruct Hs as [Hn Hl]. cbn. auto.
  - cbn. auto.
Qed.

(** The loop that draws user IDs: what it leaves, and what it returns. *)
Lemma pickUserID_spec fuel (uids : gset Z) w res w' :
  pickUserID fuel uids w = Some (res, w') ->
  store w' = store w /\ locks w' = locks w /\
  exists ns, trace w' = trace w ++ map EvRandInt ns /\
    match res with
    | Ok uid =>
        (1000000 <= uid < MaxInt32) /\ (uid ∉ uids) /\
        exists rejected, ns = rejected ++ [uid - 1000000]
          /\ Forall (fun n => n + 1000000 ∈ uids) rejected
    | Err _ => Forall (fun n => n + 1000000 ∈ uids) ns
    | _ => False
    end.
Proof.
  revert w. induction fuel as [|fuel IH]; intros w; [discriminate|].
  cbn [pickUserID]. pose proof (rand_Int_spec (MaxInt32 - 1000000) w) as Hs.
  destruct (rand_Int (MaxInt32 - 1000000) w) as [[bi|e| |] w1]; try contradiction.
  - destruct Hs as (Hbi & Htr & Hst & Hlk & _).
    destruct (bool_decide (bi + 1000000 ∈ uids)) eqn:Hin.
    + apply bool_decide_eq_true_1 in Hin. intros Hrec.
      destruct (IH w1 Hrec) as (Hst' & Hlk' & ns & Htr' & Hres).
      split; [congruence|]. split; [congruence|].
      exists (bi :: ns). split; [rewrite Htr', Htr, <- app_assoc; reflexivity|].
      destruct res as [uid|e| |]; try contradiction.
      * destruct Hres as (Hr & Hfresh & rejected & -> & Hrej).
        split; [exact Hr|]. split; [exact Hfresh|].
        exists (bi :: rejected). split; [reflexivity|]. constructor; assumption.
      * constructor; assumption.
    + apply bool_decide_eq_false_1 in Hin. intros [= Hr Hw]. subst res w'.
      split; [exact Hst|]. split; [exact Hlk|].
      exists [bi]. split; [exact Htr|].
      split; [unfold MaxInt32 in *; lia|]. split; [exact Hin|].
      exists []. split; [|constructor].
      replace (bi + 1000000 - 1000000) with bi by lia. reflexivity.
  - destruct Hs as (Htr & Hst & Hlk). intros [= Hr Hw]. subst res w'.
    split; [exact Hst|]. split; [exact Hlk|].
    exists []. split; [rewrite app_nil_r; exact Htr|constructor].
Qed.

(** The loop ends before its fuel does. *)
Lemma pickUserID_fuel fuel (uids : gset Z) w :
  (length (rand w) < fuel)%nat -> is_Some (pickUserID fuel uids w).
Proof.
  revert w. induction fuel as [|fuel IH]; intros w Hf; [lia|].
  cbn [pickUserID]. pose proof (rand_Int_spec (MaxInt32 - 1000000) w) as Hs.
  destruct (rand_Int (MaxInt32 - 1000000) w) as [[bi|e| |] w1]; try contradiction;
    [|eexists; reflexivity].
  destruct Hs as (_ & _ & _ & _ & Hl).
  destruct (bool_decide (bi + 1000000 ∈ uids)); [|eexists; reflexivity].
  apply IH. lia.
Qed.

(** *** The store *)

Lemma OpenForUpdate_Ok f v w :
  store w !! f = Some v -> f ∉ locks w ->
  exists w1, OpenForUpdate f w = (Ok v, w1)
    /\ store w1 = store w /\ locks w1 = {[f]} ∪ locks w
    /\ rand w1 = rand w /\ trace w1 = trace w ++ [EvOpenForUpdate [f]].
Proof.
  intros Hv Hl. unfold OpenForUpdate, OpenManyForUpdate.
  rewrite (bool_decide_eq_true_2 (NoDup [f])) by (apply NoDup_singleton).
  rewrite (bool_decide_eq_false_2 (Exists _ [f])).
  2:{ intros Hex. apply Exists_cons in Hex as [Hin|Hex]; [contradiction|].
      inversion Hex. }
  cbn [negb orb mapM]. rewrite Hv. cbn.
  eexists. split; [reflexivity|].
  cbn [store locks rand trace set_locks log_event].
  rewrite ?list_to_set_cons, ?list_to_set_nil, ?union_empty_r_L.
  repeat split; reflexivity.
Qed.

Lemma commit_held fs vs apply w :
  Forall (fun f => f ∈ locks w) fs ->
  exists w1, commit fs vs apply w = (Ok tt, w1)
    /\ locks w1 = locks w ∖ list_to_set fs
    /\ rand w1 = rand w
    /\ (if apply
        then store w1 = write_all fs vs (store w) /\ trace w1 = trace w ++ [EvCommit fs]
        else store w1 = store w /\ trace w1 = trace w ++ [EvRollback fs]).
Proof.
  intros Hl. unfold commit. rewrite bool_decide_eq_true_2 by exact Hl.
  cbn [negb]. destruct apply;
    (eexists; split; [reflexivity|]); cbn; auto.
Qed.

Lemma commit_released fs vs apply w :
  ~ Forall (fun f => f ∈ locks w) fs ->
  commit fs vs apply w = (Err ErrAlreadyDone, w).
Proof.
  intros Hl. unfold commit. rewrite bool_decide_eq_false_2 by exact Hl.
  reflexivity.
Qed.

Lemma writes_only_refl w : writes_only w w.
Proof.
  split; [reflexivity|]. split; [reflexivity|].
  exists []. rewrite app_nil_r. split; [reflexivity|constructor].
Qed.

Lemma writes_only_trans w1 w2 w3 :
  writes_only w1 w2 -> writes_only w2 w3 -> writes_only w1 w3.
Proof.
  intros (Hl1 & Hs1 & e1 & Ht1 & Hw1) (Hl2 & Hs2 & e2 & Ht2 & Hw2).
  split; [congruence|]. split; [congruence|].
  exists (e1 ++ e2). split; [rewrite Ht2, Ht1, app_assoc; reflexivity|].
  apply Forall_app; auto.
Qed.

Lemma writer_bind {A B} (m : dbM A) (k : A -> dbM B) :
  writer m -> (forall a, writer (k a)) -> writer (dbind m k).
Proof.
  intros Hm Hk w. unfold dbind. destruct (Hm w) as [Hw Hf].
  destruct (m w) as [[a|e| |] w1]; cbn [fst snd] in *.
  - destruct (Hk a w1) as [Hw' Hf']. split; [|exact Hf'].
    eapply writes_only_trans; eassumption.
  - split; [exact Hw|discriminate].
  - split; [exact Hw|discriminate].
  - contradiction.
Qed.

Lemma writer_dret {A} (a : A) : writer (dret a).
Proof. intros w. split; [apply writes_only_refl|discriminate]. Qed.

Lemma writes_only_same w w' :
  locks w' = locks w -> store w' = store w -> trace w' = trace w ->
  writes_only w w'.
Proof.
  intros Hl Hs Ht. split; [exact Hl|]. split; [rewrite Hs; reflexivity|].
  exists []. rewrite app_nil_r. split; [exact Ht|constructor].
Qed.

Lemma writer_MakeKey : writer MakeKey.
Proof.
  intros w. unfold MakeKey.
  destruct (ReadFull 32 (rand w)) as [[k r]| | |]; cbn [fst snd];
    (split; [|discriminate]); apply writes_only_same; reflexivity.
Qed.

Lemma writer_SaveDataFile uid v : writer (SaveDataFile (userFile uid) v).
Proof.
  intros w. unfold SaveDataFile. cbn [fst snd]. split; [|discriminate].
  split; [reflexivity|]. split; [cbn; apply lookup_insert_ne; discriminate|].
  exists [EvSaveDataFile (userFile uid)]. split; [reflexivity|].
  repeat constructor.
Qed.

Lemma writer_CreateEmptyFile f v :
  f <> userListFile -> writer (CreateEmptyFile f v).
Proof.
  intros Hf w. unfold CreateEmptyFile.
  destruct (store w !! f); cbn [fst snd]; (split; [|discriminate]).
  - apply writes_only_refl.
  - split; [reflexivity|]. split; [cbn; apply lookup_insert_ne; exact Hf|].
    exists [EvCreateEmptyFile f]. split; [reflexivity|]. repeat constructor.
Qed.

(** The records [AddUser] writes once the ID is chosen: they leave the locks
    and users.dat alone and log only writes. *)
Lemma AddUser_records_writer d u uid : writer (AddUser_records d u uid).
Proof.
  unfold AddUser_records.
  repeat (apply writer_bind; [|intros ?]);
    auto using writer_MakeKey, writer_SaveDataFile, writer_dret;
    apply writer_CreateEmptyFile; discriminate.
Qed.

Lemma existsb_Email (ul : list userList) (u : User) :
  existsb (fun i => bool_decide (ul_Email i = Email u)) ul = true
  <-> exists i, i ∈ ul /\ ul_Email i = Email u.
Proof.
  rewrite existsb_exists. split; intros (i & Hi & He); exists i.
  - apply list_elem_of_In in Hi. apply bool_decide_eq_true_1 in He. auto.
  - apply list_elem_of_In in Hi. split; [exact Hi|].
    apply bool_decide_eq_true_2. exact He.
Qed.

(** C6. [AddUser] run on a user list [ul] that is not held open:
    - it fails with the already-exists error when the new user's email is the
      email of an entry of [ul];
    - when it succeeds, users.dat holds [ul] followed by the new entry, whose
      user ID is at least 1,000,000, fits in a signed 32-bit integer and
      differs from every user ID of [ul]; that ID is the last number drawn,
      offset by 1,000,000, and every number drawn before it was rejected
      because, so offset, it is a user ID of [ul]; the draws are logged after
      users.dat is opened for update and before the commit that ends that
      transaction, with only record writes between the last draw and the
      commit;
    - in every run the draws, each one but the last rejected as the user ID
      of an entry of [ul], are logged after users.dat is opened for update
      and before the commit or rollback that ends that transaction. *)
Theorem AddUser_userID (d : Database) (u : User) (ul : list userList)
    (w w' : World) (res : outcome unit) :
  store w !! userListFile = Some (VUserList ul) ->
  userListFile ∉ locks w ->
  AddUser d u w = (res, w') ->
  ((exists i, i ∈ ul /\ ul_Email i = Email u) -> res = Err ErrExist)
  /\ (res = Ok tt ->
      exists uid rejected writes,
        store w' !! userListFile
        = Some (VUserList (ul ++ [{| ul_UserID := uid; ul_Email := Email u |}]))
        /\ 1000000 <= uid /\ - 2 ^ 31 <= uid < 2 ^ 31
        /\ uid ∉ map ul_UserID ul
        /\ Forall (fun n => n + 1000000 ∈ map ul_UserID ul) rejected
        /\ trace w' = trace w ++ [EvOpenForUpdate [userListFile]]
                        ++ map EvRandInt (rejected ++ [uid - 1000000])
                        ++ writes ++ [EvCommit [userListFile]]
        /\ Forall is_write writes)
  /\ (exists ns writes close,
        trace w' = trace w ++ [EvOpenForUpdate [userListFile]]
                     ++ map EvRandInt ns ++ writes ++ [close]
        /\ Forall is_write writes /\ closes userListFile close
        /\ Forall (fun n => n + 1000000 ∈ map ul_UserID ul) (removelast ns)).
Proof.
  intros Hst Hlk Hrun. unfold AddUser, dbind in Hrun.
  destruct (OpenForUpdate_Ok _ _ _ Hst Hlk) as (w1 & HO & Hs1 & Hl1 & Hr1 & Ht1).
  rewrite HO in Hrun. unfold deferred_commit, AddUser_body in Hrun.
  assert (Hheld : forall x, locks x = locks w1 ->
            Forall (fun f => f ∈ locks x) [userListFile]).
  { intros x Hx. repeat constructor. rewrite Hx, Hl1. set_solver. }
  destruct (existsb (fun i => bool_decide (ul_Email i = Email u)) ul) eqn:Hex.
  - (* the email is taken *)
    destruct (commit_held [userListFile] [VUserList ul] true w1
                (Hheld w1 eq_refl)) as (w2 & HC & _ & _ & _ & Ht2).
    rewrite HC in Hrun. injection Hrun as <- <-.
    split; [reflexivity|]. split; [discriminate|].
    exists [], [], (EvCommit [userListFile]).
    split; [rewrite Ht2, Ht1, <- app_assoc; reflexivity|].
    split; [constructor|]. split; [left; reflexivity|constructor].
  - (* the email is free *)
    split.
    { intros Hi. apply existsb_Email in Hi. congruence. }
    set (uids := list_to_set (map ul_UserID ul) : gset Z) in *.
    assert (Huids : forall l, Forall (fun n => n + 1000000 ∈ uids) l ->
              Forall (fun n => n + 1000000 ∈ map ul_UserID ul) l).
    { intros l Hl. eapply Forall_impl; [exact Hl|]. intros n Hn.
      unfold uids in Hn. apply elem_of_list_to_set in Hn. exact Hn. }
    destruct (pickUserID_fuel (S (length (rand w1))) uids w1 ltac:(lia))
      as [[r w2] Hpick].
    rewrite Hpick in Hrun.
    destruct (pickUserID_spec _ _ _ _ _ Hpick) as (Hs2 & Hl2 & ns & Ht2 & Hr).
    destruct r as [uid|e| |]; try contradiction.
    + (* an ID was chosen *)
      destruct Hr as (Hrange & Hfresh & rejected & -> & Hrej).
      destruct (AddUser_records_writer d u uid w2) as [(Hl3 & Hs3 & wr & Ht3 & Hwr) Hnf].
      destruct (AddUser_records d u uid w2) as [res0 w3]. cbn [fst snd] in *.
      assert (Hh3 : Forall (fun f => f ∈ locks w3) [userListFile])
        by (apply Hheld; congruence).
      destruct (commit_held [userListFile]
                  [VUserList (ul ++ [{| ul_UserID := uid; ul_Email := Email u |}])]
                  true w3 Hh3) as (w4 & HC & _ & _ & Hs4 & Ht4).
      assert (Htr : trace w4 = trace w ++ [EvOpenForUpdate [userListFile]]
                      ++ map EvRandInt (rejected ++ [uid - 1000000])
                      ++ wr ++ [EvCommit [userListFile]]).
      { rewrite Ht4, Ht3, Ht2, Ht1, <- !app_assoc. reflexivity. }
      assert (Hall : exists ns writes close,
                trace w4 = trace w ++ [EvOpenForUpdate [userListFile]]
                             ++ map EvRandInt ns ++ writes ++ [close]
                /\ Forall is_write writes /\ closes userListFile close
                /\ Forall (fun n => n + 1000000 ∈ map ul_UserID ul) (removelast ns)).
      { exists (rejected ++ [uid - 1000000]), wr, (EvCommit [userListFile]).
        split; [exact Htr|]. split; [exact Hwr|]. split; [left; reflexivity|].
        rewrite removelast_last. apply Huids. exact Hrej. }
      destruct res0 as [[]|e| |]; [| | |contradiction];
        rewrite HC in Hrun; injection Hrun as <- <-.
      * split; [|exact Hall].
        intros _. exists uid, rejected, wr.
        split; [rewrite Hs4; cbn [write_all]; apply lookup_insert_eq|].
        split; [lia|]. split; [unfold MaxInt32 in Hrange; lia|].
        split.
        { intros Hin. apply Hfresh. unfold uids.
          apply elem_of_list_to_set. exact Hin. }
        split; [apply Huids; exact Hrej|]. split; [exact Htr|exact Hwr].
      * split; [discriminate|exact Hall].
      * split; [discriminate|exact Hall].
    + (* the entropy source failed: commit(false, nil), then the deferred call *)
      destruct (commit_held [userListFile] [VUserList ul] false w2
                  (Hheld w2 Hl2)) as (w3 & HC & Hl3 & _ & _ & Ht3).
      rewrite HC in Hrun.
      rewrite commit_released in Hrun.
      2:{ intros Hf. apply Forall_cons in Hf as [Hin _].
          rewrite Hl3 in Hin. set_solver. }
      injection Hrun as <- <-.
      split; [discriminate|].
      exists ns, [], (EvRollback [userListFile]).
      split; [rewrite Ht3, Ht2, Ht1, <- !app_assoc; reflexivity|].
      split; [constructor|]. split; [right; reflexivity|].
      apply Huids. clear - Hr. induction Hr as [|n l Hn Hl IH]; [constructor|].
      destruct l as [|m l]; [constructor|].
      cbn [removelast] in *. constructor; [exact Hn|exact IH].
Qed.

End AddUser.

(** A run of [AddUser] on the sample instances: users.dat holds one user with
    the ID 1000005; the entropy source first yields the candidate 5 (taken),
    then 7, then 64 bytes for the two keys. The new user has the ID 1000007,
    after the one rejected draw 5. *)
Lemma AddUser_userID_witness :
  let w := sample_world {[ database.userListFile := database.VUserList sample_users ]}
             ([x00; x00; x00; x05; x00; x00; x00; x07] ++ repeat x00 64) in
  let run := database.AddUser sample_db (sample_user "bob") w in
  fst run = Ok tt
  /\ exists uid rejected writes,
       database.store (snd run) !! database.userListFile
       = Some (database.VUserList
                 (sample_users ++ [{| database.ul_UserID := uid;
                                      database.ul_Email := "bob" |}]))
       /\ 1000000 <= uid /\ - 2 ^ 31 <= uid < 2 ^ 31
       /\ uid ∉ map database.ul_UserID sample_users
       /\ Forall (fun n => n + 1000000 ∈ map database.ul_UserID sample_users)
                 rejected
       /\ database.trace (snd run)
          = database.trace w ++ [database.EvOpenForUpdate [database.userListFile]]
              ++ map database.EvRandInt (rejected ++ [uid - 1000000])
              ++ writes ++ [database.EvCommit [database.userListFile]]
       /\ Forall is_write writes.
Proof.
  intros w run.
  assert (Hok : fst run = Ok tt) by (vm_compute; reflexivity).
  split; [exact Hok|].
  destruct (AddUser_userID sample_db (sample_user "bob") sample_users w
              (snd run) (fst run)) as (_ & Huid & _).
  - apply lookup_singleton_eq.
  - apply not_elem_of_empty.
  - apply surjective_pairing.
  - apply Huid. exact Hok.
Defined.

(** ** Contacts *)

Section Contacts.
  Import database.

(** *** One turn of the loop of [removeAllContacts] *)

Lemma removeAllContacts_step_other user uc w x k :
  k <> user -> k <> x ->
  fst (removeAllContacts_step user (uc, w) x) !! k = uc !! k.
Proof.
  intros Hu Hx. unfold removeAllContacts_step. cbn [fst].
  rewrite !lookup_alter_ne by congruence. reflexivity.
Qed.

Lemma removeAllContacts_step_peer user uc w x c :
  x <> user -> uc !! x = Some c ->
  exists t,
    fst (removeAllContacts_step user (uc, w) x) !! x
    = Some {| Contacts := delete x (delete user (Contacts c));
              In := delete user (In c);
              Deletes := Deletes c ++ [contactDeleted user t] |}.
Proof.
  intros Hx Hc. unfold removeAllContacts_step. cbn [fst].
  exists (clock w (clock_reads w)).
  rewrite lookup_alter_ne by congruence.
  rewrite !lookup_alter_eq.
  rewrite lookup_alter_ne by congruence. rewrite Hc. reflexivity.
Qed.

Lemma removeAllContacts_step_user user uc w x cU :
  uc !! user = Some cU ->
  exists cU' evs t,
    fst (removeAllContacts_step user (uc, w) x) !! user = Some cU'
    /\ Deletes cU' = Deletes cU ++ evs
    /\ contactDeleted x t ∈ evs
    /\ In cU' !! x = None
    /\ (forall k, In cU !! k = None -> In cU' !! k = None)
    /\ (forall k, k <> user -> Contacts cU' !! k = Contacts cU !! k).
Proof.
  intros Hc. unfold removeAllContacts_step. cbn [fst].
  destruct (decide (x = user)) as [->|Hx].
  - rewrite !lookup_alter_eq, Hc. cbn.
    eexists _, [_; _], _. split; [reflexivity|].
    unfold add_Delete, set_Contacts, set_In; cbn [Deletes In Contacts].
    split; [rewrite <- app_assoc; reflexivity|].
    split; [apply list_elem_of_In; right; left; reflexivity|].
    split; [apply lookup_delete_eq|]. split.
    + intros k Hk. rewrite !lookup_delete_None. auto.
    + intros k Hk. rewrite !lookup_delete_ne by congruence. reflexivity.
  - rewrite lookup_alter_eq.
    rewrite !(lookup_alter_ne _ _ x user) by exact Hx.
    rewrite lookup_alter_eq, Hc. cbn.
    eexists _, [_], _. split; [reflexivity|].
    unfold add_Delete, set_Contacts, set_In; cbn [Deletes In Contacts].
    split; [reflexivity|].
    split; [apply list_elem_of_In; left; reflexivity|].
    split; [apply lookup_delete_eq|]. split.
    + intros k Hk. rewrite lookup_delete_None. auto.
    + intros k Hk. reflexivity.
Qed.

Lemma removeAllContacts_step_world user uc w x :
  let w' := snd (removeAllContacts_step user (uc, w) x) in
  store w' = store w /\ locks w' = locks w /\ trace w' = trace w
  /\ rand w' = rand w.
Proof. unfold removeAllContacts_step. cbn. auto. Qed.

(** *** The whole loop *)

Lemma removeAllContacts_loop_world user l uc w :
  let w' := snd (foldl (removeAllContacts_step user) (uc, w) l) in
  store w' = store w /\ locks w' = locks w /\ trace w' = trace w
  /\ rand w' = rand w.
Proof.
  induction l as [|x l IH] using rev_ind; [cbn; auto|].
  rewrite foldl_snoc. cbv zeta in *.
  destruct (foldl (removeAllContacts_step user) (uc, w) l) as [uc1 w1].
  destruct (removeAllContacts_step_world user uc1 w1 x) as (Hs & Hl & Ht & Hr).
  cbn [snd] in IH. destruct IH as (Hs' & Hl' & Ht' & Hr').
  repeat split; congruence.
Qed.

(** A peer [k] of the user: untouched until its turn, and after its turn
    without the user in [Contacts] and [In] and with one more delete event,
    which names the user. *)
Lemma removeAllContacts_loop_peer user l uc w k c :
  NoDup l -> k <> user -> uc !! k = Some c ->
  let uc' := fst (foldl (removeAllContacts_step user) (uc, w) l) in
  (k ∉ l -> uc' !! k = Some c)
  /\ (k ∈ l -> exists t,
        uc' !! k = Some {| Contacts := delete k (delete user (Contacts c));
                           In := delete user (In c);
                           Deletes := Deletes c ++ [contactDeleted user t] |}).
Proof.
  intros Hnd Hk Hc. induction l as [|x l IH] using rev_ind.
  - cbn. split; [auto|]. intros Hin. inversion Hin.
  - apply NoDup_app in Hnd as (Hnd & Hnotin & _).
    specialize (IH Hnd). cbv zeta in *. rewrite foldl_snoc.
    destruct (foldl (removeAllContacts_step user) (uc, w) l) as [uc1 w1].
    cbn [fst] in IH. destruct IH as [IHout IHin].
    split.
    + intros Hn. rewrite not_elem_of_app in Hn. destruct Hn as [Hn1 Hn2].
      rewrite removeAllContacts_step_other; [auto|exact Hk|].
      intros ->. apply Hn2. left.
    + intros Hin. apply elem_of_app in Hin as [Hin|Hin].
      * destruct (IHin Hin) as [t Ht]. exists t.
        rewrite removeAllContacts_step_other; [exact Ht|exact Hk|].
        intros ->. apply (Hnotin x Hin). left.
      * apply list_elem_of_singleton in Hin as ->.
        apply removeAllContacts_step_peer; [exact Hk|].
        apply IHout. intros Hin. apply (Hnotin x Hin). left.
Qed.

(** The user's own list: its log gains a delete event naming every key of
    the range; its [In] loses every key of the range; its contacts other than
    the user itself stay. *)
Lemma removeAllContacts_loop_user user l uc w cU :
  uc !! user = Some cU ->
  let uc' := fst (foldl (removeAllContacts_step user) (uc, w) l) in
  exists cU' evs,
    uc' !! user = Some cU'
    /\ Deletes cU' = Deletes cU ++ evs
    /\ (forall x, x ∈ l -> exists t, contactDeleted x t ∈ evs)
    /\ (forall x, x ∈ l -> In cU' !! x = None)
    /\ (forall k, In cU !! k = None -> In cU' !! k = None)
    /\ (forall k, k <> user -> Contacts cU' !! k = Contacts cU !! k).
Proof.
  intros Hc. induction l as [|x l IH] using rev_ind.
  - cbn. exists cU, []. rewrite app_nil_r.
    split; [exact Hc|]. split; [reflexivity|].
    split; [intros x Hx; inversion Hx|].
    split; [intros x Hx; inversion Hx|]. auto.
  - cbv zeta in *. rewrite foldl_snoc.
    destruct (foldl (removeAllContacts_step user) (uc, w) l) as [uc1 w1].
    cbn [fst] in IH. destruct IH as (c1 & evs & H1 & HD & Hev & HIn & HInk & HC).
    destruct (removeAllContacts_step_user user uc1 w1 x c1 H1)
      as (c2 & evs2 & t & H2 & HD2 & Hev2 & HIn2 & HInk2 & HC2).
    exists c2, (evs ++ evs2).
    split; [exact H2|]. split; [rewrite HD2, HD, app_assoc; reflexivity|].
    split; [|split; [|split]].
    + intros y Hy. apply elem_of_app in Hy as [Hy|Hy].
      * destruct (Hev y Hy) as [t' Ht']. exists t'. apply elem_of_app. auto.
      * apply list_elem_of_singleton in Hy as ->. exists t.
        apply elem_of_app. auto.
    + intros y Hy. apply elem_of_app in Hy as [Hy|Hy].
      * apply HInk2. apply HIn. exact Hy.
      * apply list_elem_of_singleton in Hy as ->. exact HIn2.
    + intros k Hk0. apply HInk2, HInk. exact Hk0.
    + intros k Hk0. rewrite HC2, HC by exact Hk0. reflexivity.
Qed.

(** *** Opening and writing many contact lists *)

Lemma contactsOf_store w uid c :
  contactsOf w uid = Some c ->
  store w !! contactListFile uid = Some (VContactList c).
Proof.
  unfold contactsOf. destruct (store w !! contactListFile uid) as [[]|];
    cbn; congruence.
Qed.

Lemma mapM_store_contacts w (l : list Z) :
  (forall k, k ∈ l -> is_Some (contactsOf w k)) ->
  mapM (fun f => store w !! f) (map contactListFile l)
  = Some (map (fun k => VContactList (contactsOr w k)) l).
Proof.
  induction l as [|k l IH]; intros Hall; [reflexivity|].
  cbn [map mapM]. destruct (Hall k ltac:(left)) as [c Hc].
  rewrite (contactsOf_store _ _ _ Hc). cbn.
  rewrite IH by (intros k' Hk'; apply Hall; right; exact Hk'). cbn.
  unfold contactsOr. rewrite Hc. reflexivity.
Qed.

Lemma mapM_as_ContactList {A} (g : A -> ContactList) (l : list A) :
  mapM as_ContactList (map (fun k => VContactList (g k)) l) = Some (map g l).
Proof.
  induction l as [|k l IH]; [reflexivity|].
  cbn [map mapM]. cbn. rewrite IH. reflexivity.
Qed.

Lemma lookup_list_to_map_zip (g : Z -> ContactList) (l : list Z) k :
  (list_to_map (zip l (map g l)) : gmap Z ContactList) !! k
  = if decide (k ∈ l) then Some (g k) else None.
Proof.
  induction l as [|x l IH]; [reflexivity|].
  cbn [map zip zip_with list_to_map foldr]. 
  destruct (decide (x = k)) as [->|Hx].
  - rewrite lookup_insert_eq. rewrite decide_True by left. reflexivity.
  - rewrite lookup_insert_ne by exact Hx. rewrite IH.
    destruct (decide (k ∈ l)) as [Hin|Hin].
    + rewrite decide_True by (right; exact Hin). reflexivity.
    + rewrite decide_False; [reflexivity|].
      intros Hin'. apply elem_of_cons in Hin' as [->|Hin']; contradiction.
Qed.

Lemma write_all_contacts (h : Z -> ContactList) (l : list Z) s k :
  write_all (map contactListFile l) (map (fun x => VContactList (h x)) l) s
    !! contactListFile k
  = if decide (k ∈ l) then Some (VContactList (h k)) else s !! contactListFile k.
Proof.
  induction l as [|x l IH]; [reflexivity|].
  cbn [map write_all].
  destruct (decide (x = k)) as [->|Hx].
  - rewrite lookup_insert_eq. rewrite decide_True by left. reflexivity.
  - rewrite lookup_insert_ne by congruence. rewrite IH.
    destruct (decide (k ∈ l)) as [Hin|Hin].
    + rewrite decide_True by (right; exact Hin). reflexivity.
    + rewrite decide_False; [reflexivity|].
      intros Hin'. apply elem_of_cons in Hin' as [->|Hin']; contradiction.
Qed.

Lemma NoDup_contactListFiles (l : list Z) :
  NoDup l -> NoDup (map contactListFile l).
Proof.
  induction 1 as [|x l Hx _ IH]; cbn [map]; constructor; [|exact IH].
  intros Hin. apply list_elem_of_In, in_map_iff in Hin as (y & [= ->] & Hy).
  apply Hx, list_elem_of_In. exact Hy.
Qed.

Lemma OpenManyForUpdate_Ok fs vs w :
  NoDup fs -> (forall f, f ∈ fs -> f ∉ locks w) ->
  mapM (fun f => store w !! f) fs = Some vs ->
  OpenManyForUpdate fs w
  = (Ok vs, log_event (EvOpenForUpdate fs) (set_locks (list_to_set fs ∪ locks w) w)).
Proof.
  intros Hnd Hfree Hvs. unfold OpenManyForUpdate.
  rewrite (bool_decide_eq_true_2 _ Hnd).
  rewrite bool_decide_eq_false_2.
  2:{ rewrite Exists_exists. intros (f & Hf & Hl). exact (Hfree f Hf Hl). }
  cbn [negb orb]. rewrite Hvs. reflexivity.
Qed.

(** *** [removeAllContacts] as a whole *)

(** When every list of the range exists and is free, [removeAllContacts]
    returns without error, after one read and one transaction over the files
    of the range, and leaves for each key of the range what the loop made of
    its list. *)
Lemma removeAllContacts_run range1 range2 user contacts w :
  contactsOf w (UserID user) = Some contacts ->
  let order1 := range1 (removeAllContacts_uids user contacts) in
  NoDup order1 -> UserID user ∈ order1 ->
  (forall k, k ∈ order1 -> is_Some (contactsOf w k)) ->
  (forall k, k ∈ order1 -> contactListFile k ∉ locks w) ->
  exists w' uc0 w0,
    removeAllContacts range1 range2 user w = (Ok tt, w')
    /\ locks w' = locks w
    /\ trace w' = trace w ++ [EvReadDataFile (contactListFile (UserID user));
                             EvOpenForUpdate (map contactListFile order1);
                             EvCommit (map contactListFile order1)]
    /\ (forall k, uc0 !! k = if decide (k ∈ order1) then contactsOf w k else None)
    /\ dom uc0 = list_to_set order1
    /\ (forall k, contactsOf w' k
          = if decide (k ∈ order1)
            then Some (default emptyContactList
                         (fst (foldl (removeAllContacts_step (UserID user)) (uc0, w0)
                                 (range2 (dom uc0)))
                            !! k))
            else contactsOf w k).
Proof.
  intros HU order1 Hnd HUin Hall Hfree.
  set (files := map contactListFile order1).
  set (w1 := log_event (EvReadDataFile (contactListFile (UserID user))) w).
  set (w2 := log_event (EvOpenForUpdate files)
               (set_locks (list_to_set files ∪ locks w1) w1)).
  set (uc0 := list_to_map (zip order1 (map (contactsOr w) order1)) : gmap Z ContactList).
  assert (Huc0 : forall k, uc0 !! k = if decide (k ∈ order1) then contactsOf w k else None).
  { intros k. unfold uc0. rewrite lookup_list_to_map_zip.
    destruct (decide (k ∈ order1)) as [Hk|Hk]; [|reflexivity].
    unfold contactsOr. destruct (Hall k Hk) as [c ->]. reflexivity. }
  destruct (foldl (removeAllContacts_step (UserID user)) (uc0, w2) (range2 (dom uc0)))
    as [uc' w3] eqn:Hfold.
  pose proof (removeAllContacts_loop_world (UserID user) (range2 (dom uc0)) uc0 w2) as Hw3.
  rewrite Hfold in Hw3. cbn [snd] in Hw3. destruct Hw3 as (Hs3 & Hl3 & Ht3 & _).
  set (vs := map (fun uid => VContactList (default emptyContactList (uc' !! uid))) order1).
  assert (Hheld : Forall (fun f => f ∈ locks w3) files).
  { rewrite Hl3. apply Forall_forall. intros f Hf. cbn.
    apply elem_of_union_l, elem_of_list_to_set. exact Hf. }
  destruct (commit_held files vs true w3 Hheld) as (w4 & HC & Hl4 & _ & Hs4 & Ht4).
  cbn [andb negb] in Hs4, Ht4.
  assert (Hfiles : forall f, f ∈ files -> f ∉ locks w).
  { intros f Hf. apply list_elem_of_In, in_map_iff in Hf as (k & <- & Hk).
    apply Hfree, list_elem_of_In. exact Hk. }
  assert (Hl4' : locks w4 = locks w).
  { rewrite Hl4, Hl3. cbn. apply set_eq. intros f.
    rewrite elem_of_difference, elem_of_union, elem_of_list_to_set.
    split; [intros [[Hf|Hf] Hn]; [contradiction|exact Hf]|].
    intros Hf. split; [right; exact Hf|]. intros Hin. exact (Hfiles f Hin Hf). }
  exists w4, uc0, w2.
  split.
  - unfold removeAllContacts, dbind, ReadDataFile.
    rewrite (contactsOf_store _ _ _ HU). cbn [as_ContactList]. fold w1.
    fold order1.
    rewrite (OpenManyForUpdate_Ok _ (map (fun k => VContactList (contactsOr w k)) order1)).
    + fold files. fold w2. rewrite mapM_as_ContactList.
      unfold deferred_commit. fold uc0. rewrite Hfold. fold vs. rewrite HC.
      rewrite commit_released; [reflexivity|].
      intros Hf. rewrite Forall_forall in Hf.
      assert (Hin : contactListFile (UserID user) ∈ files)
        by (apply list_elem_of_In, in_map, list_elem_of_In; exact HUin).
      apply (Hfiles _ Hin). rewrite <- Hl4'. apply Hf. exact Hin.
    + apply NoDup_contactListFiles. exact Hnd.
    + exact Hfiles.
    + apply (mapM_store_contacts w1). exact Hall.
  - split; [exact Hl4'|]. split.
    + rewrite Ht4, Ht3. cbn. rewrite <- !app_assoc. reflexivity.
    + split; [exact Huc0|]. split.
      * apply set_eq. intros k.
        rewrite elem_of_dom, Huc0, elem_of_list_to_set.
        destruct (decide (k ∈ order1)) as [Hk|Hk].
        -- split; [intros _; exact Hk|intros _; apply Hall; exact Hk].
        -- split; [intros [? ?]; discriminate|contradiction].
      * intros k. unfold contactsOf at 1. rewrite Hs4, Hs3. cbn [store log_event set_locks].
        unfold vs, files. rewrite write_all_contacts, Hfold. cbn [fst].
        destruct (decide (k ∈ order1)); reflexivity.
Qed.

Lemma removeAllContacts_uids_elem user contacts k :
  k ∈ removeAllContacts_uids user contacts
  <-> k = UserID user \/ is_Some (Contacts contacts !! k) \/ is_Some (In contacts !! k).
Proof.
  unfold removeAllContacts_uids.
  rewrite !elem_of_union, elem_of_singleton, !elem_of_dom. tauto.
Qed.

Lemma range_order_elem range (uids : gset Z) k :
  range_order range -> (k ∈ range uids <-> k ∈ uids).
Proof. intros Hp. rewrite (Hp uids). apply elem_of_elements. Qed.

Lemma range_order_NoDup range (uids : gset Z) :
  range_order range -> NoDup (range uids).
Proof. intros Hp. rewrite (Hp uids). apply NoDup_elements. Qed.

Lemma range_order_set range (uids : gset Z) :
  range_order range -> list_to_set (range uids) = uids.
Proof.
  intros Hp. apply set_eq. intros k.
  rewrite elem_of_list_to_set. apply range_order_elem. exact Hp.
Qed.

Lemma range_order_elements : range_order elements.
Proof. intros s. reflexivity. Qed.

(** What [removeAllContacts] leaves in the store. Let every list of the
    range exist and be free, and the two ranges go over their maps. Then the
    call returns without error after one read and one transaction over the
    files of the range; the user's list has gained a delete event for every
    key of the range, has lost its whole [In] set and has kept every contact
    other than the user itself; and the list of every other key of the range
    has lost the user from [Contacts] and [In], and has gained one delete
    event naming the user. *)
Lemma removeAllContacts_lists (range1 range2 : gset Z -> list Z) (user : User)
    (contacts : ContactList) (w : World) :
  let uids := removeAllContacts_uids user contacts in
  contactsOf w (UserID user) = Some contacts ->
  range_order range1 -> range_order range2 ->
  (forall k, k ∈ uids -> is_Some (contactsOf w k)) ->
  (forall k, k ∈ uids -> contactListFile k ∉ locks w) ->
  exists w' cU' evs,
    removeAllContacts range1 range2 user w = (Ok tt, w')
    /\ trace w' = trace w ++ [EvReadDataFile (contactListFile (UserID user));
                             EvOpenForUpdate (map contactListFile (range1 uids));
                             EvCommit (map contactListFile (range1 uids))]
    /\ locks w' = locks w
    /\ contactsOf w' (UserID user) = Some cU'
    /\ Deletes cU' = Deletes contacts ++ evs
    /\ (forall P, P ∈ uids -> exists t, contactDeleted P t ∈ evs)
    /\ (forall P, P <> UserID user -> Contacts cU' !! P = Contacts contacts !! P)
    /\ (forall P, In cU' !! P = None)
    /\ (forall P cP, P <> UserID user -> P ∈ uids -> contactsOf w P = Some cP ->
          exists t,
            contactsOf w' P
            = Some {| Contacts := delete P (delete (UserID user) (Contacts cP));
                      In := delete (UserID user) (In cP);
                      Deletes := Deletes cP ++ [contactDeleted (UserID user) t] |}).
Proof.
  intros uids HU Hp1 Hp2 Hall Hfree.
  assert (HUin : UserID user ∈ uids)
    by (apply removeAllContacts_uids_elem; left; reflexivity).
  destruct (removeAllContacts_run range1 range2 user contacts w HU
              (range_order_NoDup _ _ Hp1))
    as (w' & uc0 & w0 & Hrun & Hl & Ht & Huc0 & Hdom & Hafter).
  { apply (range_order_elem _ _ _ Hp1). exact HUin. }
  { intros k Hk. apply Hall, (range_order_elem _ _ _ Hp1). exact Hk. }
  { intros k Hk. apply Hfree, (range_order_elem _ _ _ Hp1). exact Hk. }
  fold uids in Hrun, Ht, Huc0, Hdom, Hafter.
  rewrite (range_order_set _ _ Hp1) in Hdom. rewrite Hdom in Hafter.
  assert (HU1 : UserID user ∈ range1 uids)
    by (apply (range_order_elem _ _ _ Hp1); exact HUin).
  assert (HucU : uc0 !! UserID user = Some contacts)
    by (rewrite Huc0, decide_True by exact HU1; exact HU).
  destruct (removeAllContacts_loop_user (UserID user) (range2 uids) uc0 w0 contacts HucU)
    as (cU' & evs & HU' & HD & Hev & HIn & HInk & HC).
  exists w', cU', evs.
  split; [exact Hrun|]. split; [exact Ht|]. split; [exact Hl|].
  split; [rewrite Hafter, decide_True by exact HU1; rewrite HU'; reflexivity|].
  split; [exact HD|].
  split; [intros P HP; apply Hev, (range_order_elem _ _ _ Hp2); exact HP|].
  split; [exact HC|].
  split.
  - intros P. destruct (In contacts !! P) as [b|] eqn:HP; [|apply HInk; exact HP].
    apply HIn, (range_order_elem _ _ _ Hp2), removeAllContacts_uids_elem.
    right; right. rewrite HP. eexists; reflexivity.
  - intros P cP HP HPin HcP.
    assert (HP1 : P ∈ range1 uids) by (apply (range_order_elem _ _ _ Hp1); exact HPin).
    assert (HucP : uc0 !! P = Some cP)
      by (rewrite Huc0, decide_True by exact HP1; exact HcP).
    destruct (removeAllContacts_loop_peer (UserID user) (range2 uids) uc0 w0 P cP
                (range_order_NoDup _ _ Hp2) HP HucP) as [_ Hdone].
    destruct Hdone as [t HP']; [apply (range_order_elem _ _ _ Hp2); exact HPin|].
    exists t. rewrite Hafter, decide_True by exact HP1. rewrite HP'. reflexivity.
Qed.

(** C8. Let user U have any contacts and in-entries, every peer's contact
    list exist and none of the lists be held open. Whatever the orders in
    which Go ranges over the two maps, [removeAllContacts(U)] returns without
    error after one read of U's list and one transaction that opens and
    commits the lists of U and of every peer together; and for every peer P,
    afterwards P's list has U neither in [Contacts] nor in [In], P's delete
    log has gained one event of type contact naming U, and U's delete log has
    gained an event of type contact naming P. *)
Theorem removeAllContacts_peers (range1 range2 : gset Z -> list Z) (user : User)
    (contacts : ContactList) (w : World) :
  contactsOf w (UserID user) = Some contacts ->
  range_order range1 -> range_order range2 ->
  (forall k, k ∈ removeAllContacts_uids user contacts -> is_Some (contactsOf w k)) ->
  (forall k, k ∈ removeAllContacts_uids user contacts -> contactListFile k ∉ locks w) ->
  exists w' files,
    removeAllContacts range1 range2 user w = (Ok tt, w')
    /\ trace w' = trace w ++ [EvReadDataFile (contactListFile (UserID user));
                             EvOpenForUpdate files; EvCommit files]
    /\ locks w' = locks w
    /\ forall P, P <> UserID user ->
         is_Some (Contacts contacts !! P) \/ is_Some (In contacts !! P) ->
         contactListFile P ∈ files
         /\ contactListFile (UserID user) ∈ files
         /\ exists cP cP' cU',
              contactsOf w P = Some cP
              /\ contactsOf w' P = Some cP'
              /\ contactsOf w' (UserID user) = Some cU'
              /\ Contacts cP' !! UserID user = None
              /\ In cP' !! UserID user = None
              /\ (exists t, Deletes cP' = Deletes cP ++ [contactDeleted (UserID user) t])
              /\ (exists evs t, Deletes cU' = Deletes contacts ++ evs
                                /\ contactDeleted P t ∈ evs).
Proof.
  intros HU Hp1 Hp2 Hall Hfree.
  destruct (removeAllContacts_lists range1 range2 user contacts w HU Hp1 Hp2 Hall Hfree)
    as (w' & cU' & evs & Hrun & Ht & Hl & HcU' & HD & Hev & _ & _ & Hpeer).
  set (uids := removeAllContacts_uids user contacts) in *.
  exists w', (map contactListFile (range1 uids)).
  split; [exact Hrun|]. split; [exact Ht|]. split; [exact Hl|].
  intros P HP HPc.
  assert (HUin : UserID user ∈ uids)
    by (apply removeAllContacts_uids_elem; left; reflexivity).
  assert (HPin : P ∈ uids) by (apply removeAllContacts_uids_elem; right; exact HPc).
  split.
  { apply list_elem_of_In, in_map, list_elem_of_In, (range_order_elem _ _ _ Hp1).
    exact HPin. }
  split.
  { apply list_elem_of_In, in_map, list_elem_of_In, (range_order_elem _ _ _ Hp1).
    exact HUin. }
  destruct (Hall P HPin) as [cP HcP].
  destruct (Hpeer P cP HP HPin HcP) as [t HcP'].
  destruct (Hev P HPin) as [t' Ht'].
  exists cP, {| Contacts := delete P (delete (UserID user) (Contacts cP));
                In := delete (UserID user) (In cP);
                Deletes := Deletes cP ++ [contactDeleted (UserID user) t] |}, cU'.
  split; [exact HcP|]. split; [exact HcP'|]. split; [exact HcU'|].
  cbn [Contacts In Deletes].
  split; [rewrite lookup_delete_ne by congruence; apply lookup_delete_eq|].
  split; [apply lookup_delete_eq|].
  split; [exists t; reflexivity|].
  exists evs, t'. split; [exact HD|exact Ht'].
Qed.

End Contacts.

(** *** The sample contact graph *)

Lemma sample_contacts_alice :
  contactsOf (sample_world sample_contacts []) 1 = Some sample_alice_contacts.
Proof. reflexivity. Qed.

Lemma sample_contacts_exist k :
  k ∈ database.removeAllContacts_uids sample_alice sample_alice_contacts ->
  is_Some (contactsOf (sample_world sample_contacts []) k).
Proof.
  intros Hk. apply removeAllContacts_uids_elem in Hk.
  unfold sample_alice_contacts in Hk. cbn [database.Contacts database.In] in Hk.
  destruct Hk as [->|[[c Hc]|[b Hb]]].
  - eexists. reflexivity.
  - apply lookup_singleton_Some in Hc as [<- _]. eexists. reflexivity.
  - apply lookup_singleton_Some in Hb as [<- _]. eexists. reflexivity.
Qed.

(** [removeAllContacts] run on the sample graph for user 1, with peer 2. *)
Lemma removeAllContacts_peers_witness :
  exists w' cP' cU',
    database.removeAllContacts elements elements sample_alice
      (sample_world sample_contacts []) = (Ok tt, w')
    /\ contactsOf w' 2 = Some cP'
    /\ contactsOf w' 1 = Some cU'
    /\ database.Contacts cP' !! 1 = None
    /\ database.In cP' !! 1 = None
    /\ (exists t, database.Deletes cP' = [contactDeleted 1 t])
    /\ (exists t, contactDeleted 2 t ∈ database.Deletes cU').
Proof.
  destruct (removeAllContacts_peers elements elements sample_alice sample_alice_contacts
              (sample_world sample_contacts []))
    as (w' & files & Hrun & _ & _ & Hpeers).
  - exact sample_contacts_alice.
  - exact range_order_elements.
  - exact range_order_elements.
  - exact sample_contacts_exist.
  - intros k _. apply not_elem_of_empty.
  - destruct (Hpeers 2) as (_ & _ & cP & cP' & cU' & HcP & HcP' & HcU' & HC & HI & HD & HDU).
    + discriminate.
    + left. eexists. apply lookup_singleton_eq.
    + exists w', cP', cU'. split; [exact Hrun|].
      assert (Hbob : contactsOf (sample_world sample_contacts []) 2
                     = Some {| database.Contacts := ∅; database.In := {[ 1 := true ]};
                               database.Deletes := [] |}) by reflexivity.
      rewrite Hbob in HcP. injection HcP as <-.
      destruct HDU as (evs & t & HDU & Hin).
      split; [exact HcP'|]. split; [exact HcU'|]. split; [exact HC|].
      split; [exact HI|]. split; [exact HD|].
      exists t. rewrite HDU. apply elem_of_app. right. exact Hin.
Defined.

(** C7 fails on [removeAllContacts]. In the sample graph contact symmetry
    holds between users 1 and 2: user 1 has 2 as a contact and 2 records 1 in
    its [In] set. After [removeAllContacts] for user 1, in whatever order the
    maps are ranged over, user 1 still has 2 as a contact while 2 no longer
    records 1: symmetry between 1 and 2 is broken. *)
Lemma removeAllContacts_breaks_symmetry :
  symmetric_at (sample_world sample_contacts []) 1 2
  /\ forall range1 range2,
       database.range_order range1 -> database.range_order range2 ->
       exists w' c1 c2,
         database.removeAllContacts range1 range2 sample_alice
           (sample_world sample_contacts []) = (Ok tt, w')
         /\ contactsOf w' 1 = Some c1 /\ contactsOf w' 2 = Some c2
         /\ is_Some (database.Contacts c1 !! 2)
         /\ database.In c2 !! 1 = None
         /\ ~ symmetric_at w' 1 2.
Proof.
  split.
  - intros ca cb Ha Hb.
    assert (Hbob : contactsOf (sample_world sample_contacts []) 2
                   = Some {| database.Contacts := ∅; database.In := {[ 1 := true ]};
                             database.Deletes := [] |}) by reflexivity.
    rewrite sample_contacts_alice in Ha. rewrite Hbob in Hb.
    injection Ha as <-. injection Hb as <-.
    split; intros _; [reflexivity|eexists; reflexivity].
  - intros range1 range2 Hp1 Hp2.
    destruct (removeAllContacts_lists range1 range2 sample_alice sample_alice_contacts
                (sample_world sample_contacts [])
                sample_contacts_alice Hp1 Hp2 sample_contacts_exist)
      as (w' & c1 & evs & Hrun & _ & _ & Hc1 & _ & _ & Hkeep & _ & Hpeer);
      [intros k _; apply not_elem_of_empty|].
    destruct (Hpeer 2 {| database.Contacts := ∅; database.In := {[ 1 := true ]};
                         database.Deletes := [] |}) as [t Hc2];
      [discriminate
      |apply removeAllContacts_uids_elem; right; left; eexists; apply lookup_singleton_eq
      |reflexivity|].
    assert (Hstill : is_Some (database.Contacts c1 !! 2)).
    { rewrite Hkeep by discriminate. eexists. apply lookup_singleton_eq. }
    eexists w', c1, _. split; [exact Hrun|]. split; [exact Hc1|].
    split; [exact Hc2|]. split; [exact Hstill|].
    split; [reflexivity|].
    intros Hsym. apply (Hsym _ _ Hc1 Hc2) in Hstill. discriminate Hstill.
Qed.

(** ** Contact updates *)

Section ContactUpdates.
  Import database.

(** [ContactUpdates] returns, in some order, exactly the contacts modified
    after [ts]: a permutation of what the range appended. *)
Lemma ContactUpdates_exact range user ts w cl :
  contactsOf w (UserID user) = Some cl ->
  exists out,
    fst (ContactUpdates range user ts w) = Ok out
    /\ out ≡ₚ omap (exported ts) (ranged (range (dom (Contacts cl))) cl).
Proof.
  intros Hcl. unfold ContactUpdates, dbind, ReadDataFile.
  rewrite (contactsOf_store _ _ _ Hcl). cbn [as_ContactList dret fst].
  eexists. split; [reflexivity|].
  unfold sort_Slice. rewrite merge_sort_Permutation.
  unfold ranged, exported. clear Hcl.
  induction (range (dom (Contacts cl))) as [|k order IH]; [reflexivity|].
  cbn [omap list_omap]. destruct (Contacts cl !! k) as [v|]; cbn [omap list_omap]; [|exact IH].
  destruct (ts <? c_DateModified v); [|exact IH].
  constructor. exact IH.
Qed.

End ContactUpdates.

(** C9 fails on the order. User 1 has two contacts: "bob", modified at 9, and
    "carol", modified at 10. For the cursor 0, in whichever order the map is
    ranged over, [ContactUpdates] returns carol before bob: the comparison
    given to [sort.Slice] is on the decimal strings, and "10" < "9". Ascending
    by DateModified would be bob, then carol. *)
Lemma ContactUpdates_orders_by_string (range : gset Z -> list Z) :
  database.range_order range ->
  fst (database.ContactUpdates range sample_alice 0 sample_updates_world)
  = Ok sample_updates_result.
Proof.
  intros Hp. unfold database.ContactUpdates, database.dbind, database.ReadDataFile.
  cbn [database.store sample_updates_world sample_world].
  rewrite lookup_singleton_eq. cbn [database.as_ContactList database.Contacts].
  assert (Hdom : dom ({[ 2 := sample_contact 2 "bob" 9;
                         3 := sample_contact 3 "carol" 10 ]} : gmap Z database.Contact)
                 = ({[ 2; 3 ]} : gset Z)).
  { rewrite dom_insert_L, dom_singleton_L. reflexivity. }
  rewrite Hdom.
  assert (Hord : range {[ 2; 3 ]} ≡ₚ [2; 3]).
  { rewrite (Hp {[ 2; 3 ]}). vm_compute. 
    first [reflexivity | apply perm_swap]. }
  symmetry in Hord.
  apply Permutation_length_2_inv in Hord as [-> | ->]; vm_compute; reflexivity.
Qed.

(** The same run with the keys ranged over in the order of [elements]. *)
Lemma ContactUpdates_orders_by_string_witness :
  fst (database.ContactUpdates elements sample_alice 0 sample_updates_world)
  = Ok sample_updates_result.
Proof.
  apply (ContactUpdates_orders_by_string elements). exact range_order_elements.
Defined.

(** * Further properties of the code *)

(** ** Encrypted records: outcomes, sizes, authenticity *)

Lemma byte_xor_swap (p v m : byte) :
  byte_xor (byte_xor p v) (byte_xor v m) = byte_xor p m.
Proof.
  unfold byte_xor.
  destruct (Byte.to_bits p) as (p0 & p1 & p2 & p3 & p4 & p5 & p6 & p7).
  destruct (Byte.to_bits v) as (v0 & v1 & v2 & v3 & v4 & v5 & v6 & v7).
  destruct (Byte.to_bits m) as (m0 & m1 & m2 & m3 & m4 & m5 & m6 & m7).
  rewrite !Byte.to_bits_of_bits.
  f_equal.
  repeat (f_equal; [destruct_and?; repeat match goal with
                     | |- context [xorb ?a ?b] => is_var a; destruct a
                     | |- context [xorb ?a ?b] => is_var b; destruct b
                     end; reflexivity|]).
  repeat match goal with
         | |- context [xorb ?a ?b] => is_var a; destruct a
         | |- context [xorb ?a ?b] => is_var b; destruct b
         end; reflexivity.
Qed.

(** Decrypting the first block under an IV with one bit flipped flips that
    bit of the plaintext block. *)
Lemma xor_bytes_flip_bit (p iv : bytes) i j :
  length p = length iv ->
  xor_bytes (xor_bytes p iv) (flip_bit i j iv) = flip_bit i j p.
Proof.
  unfold flip_bit. revert iv i.
  induction p as [|x p IH]; intros [|v iv] i Hl; simpl in Hl; try lia;
    [reflexivity|].
  destruct i as [|i]; cbn [alter list_alter xor_bytes].
  - rewrite byte_xor_swap, xor_bytes_cancel_r by lia. reflexivity.
  - rewrite byte_xor_cancel_r. f_equal. apply IH. lia.
Qed.

Lemma reiv_flip_bit (pd iv : bytes) i j :
  length iv = 16%nat -> (16 <= length pd)%nat -> (i < 16)%nat ->
  reiv pd iv (flip_bit i j iv) = flip_bit i j pd.
Proof.
  intros Hiv Hpd Hi. unfold reiv.
  rewrite xor_bytes_flip_bit by (rewrite length_take; lia).
  rewrite <- (take_drop 16 pd) at 3.
  rewrite flip_bit_app_l by (rewrite length_take; lia). reflexivity.
Qed.

Lemma flip_bit_beyond i j (data : bytes) :
  (length data <= i)%nat -> flip_bit i j data = data.
Proof.
  unfold flip_bit. revert i. induction data as [|b data IH]; intros i Hi;
    [reflexivity|].
  destruct i as [|i]; simpl in Hi; [lia|].
  cbn [alter list_alter]. f_equal. apply IH. lia.
Qed.

Section RecordOutcomes.
  Context `{SHA256, AES}.
  Import masterkey.

(** X1. [Encrypt] never panics, and what it does is decided by the key and by
    how much the entropy source supplies: with no key it ends the process;
    with a key that is not 16, 24 or 32 bytes long it returns the wrapped
    [aes.NewCipher] error; with fewer than 16 bytes of entropy it returns the
    read error; with the IV but not the padding tail it returns the wrapped
    padding error; otherwise it returns the IV, the CBC ciphertext of the
    padded message and the HMAC of that ciphertext, having read exactly
    [16 + padSize] bytes. *)
Theorem Encrypt_outcomes (mk : MasterKey) (m : bytes) (r : Rand) :
  Encrypt mk m r
  = if len (key mk) =? 0 then Fatal
    else if negb (aes_KeySizeOk (key mk)) then Err ErrAesNewCipher
    else if len r <? 16 then Err ErrRandRead
    else if len r <? 16 + padSize m then Err ErrPaddingData
    else
      let iv := take 16 r in
      let tail := take (Z.to_nat (padSize m)) (drop 16 r) in
      let enc := encData mk iv (pData m tail) in
      Ok (iv ++ enc ++ Hash mk enc, drop (Z.to_nat (padSize m)) (drop 16 r)).
Proof.
  pose proof (padSize_range m) as Hp.
  destruct (Z.eqb_spec (len (key mk)) 0) as [Hk0|Hk0].
  { unfold Encrypt. rewrite (proj2 (Z.eqb_eq _ _) Hk0). reflexivity. }
  destruct (aes_KeySizeOk (key mk)) eqn:Hk; cbn [negb].
  2:{ unfold Encrypt, aes_NewCipher.
      rewrite (proj2 (Z.eqb_neq _ _) Hk0), Hk. reflexivity. }
  destruct (Z.ltb_spec (len r) 16) as [H16|H16].
  { unfold Encrypt. rewrite (aes_KeySizeOk_len _ Hk), (aes_NewCipher_Ok _ Hk).
    cbn [wrapErr obind].
    rewrite ReadFull_short by (unfold aes_BlockSize; lia). reflexivity. }
  destruct (Z.ltb_spec (len r) (16 + padSize m)) as [Hpad|Hpad].
  { unfold Encrypt. rewrite (aes_KeySizeOk_len _ Hk), (aes_NewCipher_Ok _ Hk).
    cbn [wrapErr obind].
    rewrite ReadFull_take by (unfold aes_BlockSize; lia). cbn [obind].
    rewrite ReadFull_short; [reflexivity|].
    fold (padSize m). unfold len in *. rewrite length_drop.
    unfold aes_BlockSize. lia. }
  cbv zeta.
  set (iv := take 16 r).
  set (tail := take (Z.to_nat (padSize m)) (drop 16 r)).
  set (r' := drop (Z.to_nat (padSize m)) (drop 16 r)).
  assert (Hsplit : r = iv ++ tail ++ r')
    by (unfold iv, tail, r'; rewrite !take_drop; reflexivity).
  assert (Hiv : length iv = 16%nat)
    by (unfold iv; rewrite length_take; unfold len in *; lia).
  assert (Ht : len tail = padSize m)
    by (unfold tail, len in *; rewrite length_take, length_drop; lia).
  rewrite Hsplit at 1. apply Encrypt_Ok; assumption.
Qed.

(** X2. The size of a record depends only on the size of the message: a
    record that [Encrypt] returns for a message of [n] bytes has
    [48 + 16 * ((n + 1) / 16 + 1)] bytes, a multiple of 16 that lies between
    [n + 50] and [n + 65]; and [Encrypt] has then read [16 + padSize] bytes
    of entropy. *)
Theorem Encrypt_length (mk : MasterKey) (m : bytes) (r r' : Rand) (c : bytes) :
  Encrypt mk m r = Ok (c, r') ->
  len c = 48 + 16 * ((len m + 1) / 16 + 1)
  /\ len m + 50 <= len c <= len m + 65
  /\ len c mod 16 = 0
  /\ len r = 16 + padSize m + len r'.
Proof.
  intros HE.
  destruct (Encrypt_Ok_inv _ _ _ _ _ HE) as (Hk & iv & tail & -> & Hiv & Ht & ->).
  pose proof (pData_len m tail Ht) as Hpd.
  destruct (pData_len_mod m tail Ht) as (Hmod & Hge & Hsum).
  pose proof (padSize_range m) as Hp. pose proof (len_nonneg m) as Hm.
  assert (Henc : len (encData mk iv (pData m tail)) = len (pData m tail)).
  { apply (encData_length mk iv _ ((len m + 1) / 16 + 1)); auto.
    pose proof (Z.div_pos (len m + 1) 16 ltac:(lia) ltac:(lia)). lia. }
  assert (Hc : len (iv ++ encData mk iv (pData m tail)
                       ++ Hash mk (encData mk iv (pData m tail)))
               = 48 + len (pData m tail)).
  { rewrite !len_app, Henc. unfold len at 1 3. rewrite Hiv, Hash_length. lia. }
  rewrite Hc. split; [lia|]. split; [lia|]. split.
  - rewrite Hpd.
    replace (48 + 16 * ((len m + 1) / 16 + 1))
      with ((3 + ((len m + 1) / 16 + 1)) * 16) by lia.
    apply Z.mod_mul. lia.
  - rewrite !len_app, Ht. unfold len at 1. rewrite Hiv. lia.
Qed.

(** X3. [Decrypt] never returns a plaintext for an input whose HMAC does not
    verify: whenever it returns bytes, the key is an AES key, the input is at
    least 64 bytes long and a whole number of 16-byte blocks, its last 32
    bytes are the HMAC under the key of the bytes between the IV and them,
    and the plaintext is at least 49 bytes shorter than the input. *)
Theorem Decrypt_authentic (mk : MasterKey) (data m : bytes) :
  Decrypt mk data = Ok m ->
  aes_KeySizeOk (key mk) = true
  /\ 64 <= len data /\ len data mod 16 = 0
  /\ drop (length data - 32) data = Hash mk (record_ciphertext data)
  /\ len m + 49 <= len data.
Proof.
  intros HD.
  destruct (Z.eqb_spec (len (key mk)) 0) as [Hk0|Hk0].
  { unfold Decrypt in HD. rewrite (proj2 (Z.eqb_eq _ _) Hk0) in HD. discriminate. }
  destruct (Z.lt_ge_cases (len data) 48) as [Hlt|Hge].
  { rewrite Decrypt_below_48 in HD by assumption. discriminate. }
  set (iv := take 16 data).
  set (enc := take (length data - 48) (drop 16 data)).
  set (mac := drop (length data - 32) data).
  assert (Hiv : length iv = 16%nat)
    by (unfold iv; rewrite length_take; unfold len in *; lia).
  assert (Henc : length enc = (length data - 48)%nat)
    by (unfold enc; rewrite length_take, length_drop; lia).
  assert (Hmac : length mac = 32%nat)
    by (unfold mac; rewrite length_drop; unfold len in *; lia).
  assert (Hsplit : data = iv ++ enc ++ mac).
  { unfold iv, enc, mac.
    rewrite <- (take_drop 16 data) at 1. f_equal.
    rewrite <- (take_drop (length data - 48) (drop 16 data)) at 1. f_equal.
    rewrite drop_drop. f_equal. unfold len in *. lia. }
  assert (Hrc : record_ciphertext data = enc) by reflexivity.
  rewrite Hrc. fold mac.
  rewrite Hsplit in HD.
  rewrite Decrypt_frame in HD by (auto; apply Z.eqb_neq; exact Hk0).
  unfold hmac_Equal in HD.
  destruct (bool_decide_reflect (mac = Hash mk enc)) as [Heq|Hne];
    [|discriminate].
  cbn [negb] in HD.
  destruct (aes_KeySizeOk (key mk)) eqn:Hk.
  2:{ unfold aes_NewCipher in HD. rewrite Hk in HD. discriminate. }
  rewrite (aes_NewCipher_Ok _ Hk) in HD. cbn [wrapErr obind] in HD.
  unfold cipher_NewCBCDecrypter in HD. cbn [aesBlock BlockSize] in HD.
  replace (len iv =? aes_BlockSize) with true in HD
    by (symmetry; apply Z.eqb_eq; unfold len, aes_BlockSize; lia).
  cbn [obind] in HD. rewrite make_Ok in HD by apply len_nonneg.
  cbn [obind] in HD.
  destruct (Z.eqb_spec (len enc mod 16) 0) as [Hmod|Hmod].
  2:{ exfalso. revert HD. unfold CryptBlocks. cbn [mode_block].
      change (BlockSize (aesBlock (key mk))) with 16.
      change (negb (0 <? 16)) with false. cbn match.
      rewrite (proj2 (Z.eqb_neq _ _) Hmod). discriminate. }
  assert (Hn : len enc = 16 * (len enc / 16))
    by (pose proof (Z.div_mod (len enc) 16 ltac:(lia)); lia).
  assert (Hn0 : 0 <= len enc / 16) by (apply Z.div_pos; [apply len_nonneg|lia]).
  rewrite (CryptBlocks_whole (aesBlock (key mk)) iv true enc _ eq_refl Hn Hn0) in HD.
  cbn [obind] in HD.
  set (dec := concat (cbc_decrypt (aesBlock (key mk)) iv
                        (blocks 16 (Z.to_nat (len enc / 16)) enc))) in HD.
  assert (Hlen : forall cs prev,
            length prev = 16%nat ->
            Forall (fun c => length c = 16%nat) cs ->
            (length (concat (cbc_decrypt (aesBlock (key mk)) prev cs))
             <= 16 * length cs)%nat).
  { induction cs as [|c0 cs IH]; intros prev Hprev Hcs; [simpl; lia|].
    apply Forall_cons in Hcs as [Hc0 Hcs'].
    cbn [cbc_decrypt concat length]. rewrite length_app, xor_bytes_length.
    specialize (IH c0 Hc0 Hcs'). lia. }
  assert (Hdec : len dec <= len enc).
  { unfold dec, len.
    specialize (Hlen (blocks 16 (Z.to_nat (len enc / 16)) enc) iv Hiv).
    rewrite blocks_length in Hlen.
    unfold len in *. 
    assert (Forall (fun c : bytes => length c = 16%nat)
              (blocks 16 (Z.to_nat (Z.of_nat (length enc) / 16)) enc))
      by (apply blocks_Forall; lia).
    specialize (Hlen ltac:(assumption)). lia. }
  destruct (index 0 dec) as [pad| | |] eqn:Hidx; try discriminate.
  cbn [obind] in HD.
  apply slice_Ok_inv in HD as (_ & Hlo & _ & Hm).
  assert (Hdec1 : 1 <= len dec).
  { unfold index in Hidx. destruct (Z.ltb_spec 0 (len dec)); [lia|].
    rewrite andb_false_r in Hidx. discriminate. }
  pose proof (int_of_byte_nonneg pad) as Hpad.
  assert (Hlen_data : len data = len enc + 48).
  { rewrite Hsplit, !len_app. unfold len. lia. }
  split; [reflexivity|].
  split; [lia|].
  split.
  { rewrite Hlen_data. replace (len enc + 48) with (len enc + 3 * 16) by lia.
    rewrite Z.mod_add by lia. exact Hmod. }
  split; [exact Heq|]. lia.
Qed.

(** X4. A record made under one key is refused under another: [Decrypt]
    with a key that is set returns the invalid-hmac error, and no bytes, on a
    record that [Encrypt] made under a key whose HMAC of the record's
    ciphertext differs. The HMAC is checked before the key is given to AES. *)
Theorem Decrypt_wrong_key (mk mk' : MasterKey) (m : bytes) (r r' : Rand) (c : bytes) :
  Encrypt mk m r = Ok (c, r') ->
  len (key mk') <> 0 ->
  Hash mk' (record_ciphertext c) <> Hash mk (record_ciphertext c) ->
  Decrypt mk' c = Err ErrInvalidHmac.
Proof.
  intros HE Hk' Hne.
  destruct (Encrypt_Ok_inv _ _ _ _ _ HE) as (Hk & iv & tail & _ & Hiv & Ht & ->).
  rewrite record_ciphertext_parts in Hne by (auto using Hash_length).
  apply Decrypt_bad_mac; auto using Hash_length.
  apply Z.eqb_neq. exact Hk'.
Qed.

(** X5. The IV of a record is not authenticated, and CBC carries a change of
    the IV into the first plaintext block. For a record [c] that [Encrypt]
    made of [m], flipping bit [j] of byte [i] of [c], for [i] from 1 to 15,
    makes [Decrypt] return, without error, [m] with bit [j] of byte [i - 1]
    flipped ([m] itself when it has no such byte). *)
Theorem Decrypt_iv_malleable (mk : MasterKey) (m : bytes) (r r' : Rand)
    (c : bytes) (i j : nat) :
  Encrypt mk m r = Ok (c, r') ->
  (1 <= i < 16)%nat ->
  Decrypt mk (flip_bit i j c) = Ok (flip_bit (i - 1) j m).
Proof.
  intros HE Hi.
  destruct (Encrypt_Ok_inv _ _ _ _ _ HE) as (Hk & iv & tail & _ & Hiv & Ht & ->).
  destruct (pData_len_mod m tail Ht) as (_ & Hge & _).
  rewrite flip_bit_app_l by lia.
  rewrite Decrypt_record by (auto; rewrite flip_bit_length; exact Hiv).
  rewrite reiv_flip_bit by (auto; unfold len in Hge; lia).
  destruct i as [|i]; [lia|].
  replace (S i - 1)%nat with i by lia.
  assert (Hcons : flip_bit (S i) j (pData m tail)
                  = byte_of_int (padSize m) :: flip_bit i j (m ++ tail))
    by reflexivity.
  rewrite Hcons.
  destruct (Nat.lt_ge_cases i (length m)) as [Hin|Hout].
  - rewrite flip_bit_app_l by exact Hin.
    replace (padSize m) with (padSize (flip_bit i j m))
      by (unfold padSize, len; rewrite flip_bit_length; reflexivity).
    apply (unpad_pData (flip_bit i j m) tail).
    unfold padSize, len in *. rewrite flip_bit_length. exact Ht.
  - rewrite flip_bit_app_r by exact Hout.
    rewrite (flip_bit_beyond i j m) by exact Hout.
    apply (unpad_pData m (flip_bit (i - length m) j tail)).
    unfold len in *. rewrite flip_bit_length. exact Ht.
Qed.

(** X6. The record [NewEncryptedKey] returns wraps the key it drew: [Decrypt]
    under the same master key returns the first 32 bytes the entropy source
    supplied, a 32-byte key. *)
Theorem NewEncryptedKey_Decrypt (mk : MasterKey) (r r' : Rand) (c : bytes) :
  NewEncryptedKey mk r = Ok (c, r') ->
  Decrypt mk c = Ok (take 32 r) /\ len (take 32 r) = 32.
Proof.
  intros HN. unfold NewEncryptedKey in HN.
  destruct (ReadFull 32 r) as [[k r1]| | |] eqn:HR; try discriminate.
  cbn [wrapErr obind] in HN.
  destruct (ReadFull_Ok_inv _ _ _ _ HR) as [Hlk ->].
  destruct (Encrypt_Ok_inv _ _ _ _ _ HN) as (Hk & iv & tail & _ & Hiv & Ht & ->).
  rewrite Decrypt_record by assumption.
  rewrite reiv_same by exact Hiv. rewrite unpad_pData by exact Ht.
  replace (take 32 (k ++ r1)) with k
    by (rewrite take_app_length'; [reflexivity|unfold len in Hlk; lia]).
  split; [reflexivity|exact Hlk].
Qed.

End RecordOutcomes.

(** The size of the record made of the message "A" on the sample instances:
    64 bytes. *)
Lemma Encrypt_length_witness :
  exists c r',
    masterkey.Encrypt {| masterkey.key := repeat x01 32 |} [x41] (repeat x00 30)
    = Ok (c, r')
    /\ len c = 64.
Proof.
  destruct (Encrypt_returns {| masterkey.key := repeat x01 32 |} [x41]
              (repeat x00 30)) as (c & r' & HE);
    [reflexivity|vm_compute; discriminate|].
  exists c, r'. split; [exact HE|].
  destruct (Encrypt_length _ _ _ _ _ HE) as (Hlen & _). exact Hlen.
Defined.

(** The record made of "A" under the 32-byte key of ones, with zero
    entropy, decrypts; so its last 32 bytes are the HMAC of its ciphertext. *)
Lemma Decrypt_authentic_witness :
  let mk := {| masterkey.key := repeat x01 32 |} in
  let c := match masterkey.Encrypt mk [x41] (repeat x00 30) with
           | Ok (c, _) => c
           | _ => []
           end in
  masterkey.Decrypt mk c = Ok [x41]
  /\ 64 <= len c
  /\ drop (length c - 32) c = masterkey.Hash mk (record_ciphertext c).
Proof.
  intros mk c.
  assert (HD : masterkey.Decrypt mk c = Ok [x41]) by (vm_compute; reflexivity).
  split; [exact HD|].
  destruct (Decrypt_authentic mk c [x41] HD) as (_ & H64 & _ & Hmac & _).
  split; [exact H64|exact Hmac].
Defined.

(** The same record is refused under the 32-byte key of twos. *)
Lemma Decrypt_wrong_key_witness :
  let mk := {| masterkey.key := repeat x01 32 |} in
  let c := match masterkey.Encrypt mk [x41] (repeat x00 30) with
           | Ok (c, _) => c
           | _ => []
           end in
  masterkey.Decrypt {| masterkey.key := repeat x02 32 |} c = Err ErrInvalidHmac.
Proof.
  intros mk c.
  apply (Decrypt_wrong_key mk {| masterkey.key := repeat x02 32 |} [x41]
           (repeat x00 30) [] c).
  - vm_compute. reflexivity.
  - vm_compute. discriminate.
  - vm_compute. discriminate.
Defined.

(** With bit 0 of byte 1 of its IV flipped, the same record decrypts to "@". *)
Lemma Decrypt_iv_malleable_witness :
  let mk := {| masterkey.key := repeat x01 32 |} in
  let c := match masterkey.Encrypt mk [x41] (repeat x00 30) with
           | Ok (c, _) => c
           | _ => []
           end in
  masterkey.Decrypt mk (flip_bit 1 0 c) = Ok [x40].
Proof.
  intros mk c.
  apply (Decrypt_iv_malleable mk [x41] (repeat x00 30) [] c 1 0).
  - vm_compute. reflexivity.
  - lia.
Defined.

(** The wrapped key made from 63 zero bytes of entropy unwraps to 32 zero
    bytes. *)
Lemma NewEncryptedKey_Decrypt_witness :
  let mk := {| masterkey.key := repeat x01 32 |} in
  let c := match masterkey.NewEncryptedKey mk (repeat x00 63) with
           | Ok (c, _) => c
           | _ => []
           end in
  masterkey.Decrypt mk c = Ok (repeat x00 32).
Proof.
  intros mk c.
  apply (NewEncryptedKey_Decrypt mk (repeat x00 63) [] c).
  vm_compute. reflexivity.
Defined.


(** ** The key file: outcomes of [Save] and [Read] *)

Section KeyFileParts.
  Context `{SHA256, AES, GCM}.
  Import masterkey.

(** [Read] on a file of version 1 with all its parts: everything up to
    [gcm.Open] succeeds. *)
Lemma Read_parts p file fs (salt nb nonce sealed : bytes) :
  fs_files fs !! file = Some ([x01] ++ salt ++ nb ++ nonce ++ sealed) ->
  length salt = 16%nat -> length nb = 4%nat -> length nonce = 12%nat ->
  exists n,
    Uint32_le nb = Ok n
    /\ Read p file fs
       = match gcm_Open (aesBlock (derivedKey p salt n)) nonce sealed [] with
         | Some masterKey => Ok {| key := masterKey |}
         | None => Err ErrGcmOpen
         end.
Proof.
  intros Hfile Hsalt Hnb Hnonce.
  destruct nb as [|b0 [|b1 [|b2 [|b3 [|]]]]]; try discriminate.
  eexists. split; [reflexivity|].
  set (nb := [b0; b1; b2; b3]) in *.
  unfold Read, os_ReadFile. rewrite Hfile. cbn [obind].
  change (index 0 ([x01] ++ salt ++ nb ++ nonce ++ sealed)) with (Ok x01 : outcome byte).
  cbn [obind].
  rewrite (slice_app_r [x01]) by reflexivity. cbn [obind].
  change (negb (int_of_byte x01 =? 1)) with false. cbn match.
  rewrite slice_app_l by (unfold len; lia). cbn [obind].
  rewrite slice_app_r by (unfold len; lia). cbn [obind].
  rewrite slice_app_l by (unfold len; lia). cbn [obind].
  unfold nb at 1. cbn [Uint32_le obind].
  rewrite slice_app_r by (unfold len; lia). cbn [obind].
  match goal with
  | |- context [pbkdf2_Key _ salt ?n 32] => fold (derivedKey p salt n)
  end.
  rewrite aes_NewCipher_Ok by apply derivedKey_KeySizeOk. cbn [obind].
  unfold cipher_NewGCM. cbn [aesBlock BlockSize].
  change (aes_BlockSize =? 16) with true. cbn [obind].
  rewrite slice_app_l by (unfold len, gcm_NonceSize; lia). cbn [obind].
  rewrite slice_app_r by (unfold len, gcm_NonceSize; lia). cbn [obind].
  reflexivity.
Qed.

(** A list of at least [n] elements is its first [n] elements and a rest. *)
Lemma split_prefix (n : nat) (l : bytes) :
  (n <= length l)%nat -> exists a rest, l = a ++ rest /\ length a = n.
Proof.
  intros Hn. exists (take n l), (drop n l).
  rewrite take_drop, length_take. split; [reflexivity|lia].
Qed.

(** [Read] on a file of version 1 that lacks a part of the header: one of the
    slice expressions that cut the rest of the file is out of range. *)
Lemma Read_header_short p file fs (rest : bytes) :
  fs_files fs !! file = Some (x01 :: rest) -> len rest < 32 ->
  Read p file fs = Panic.
Proof.
  intros Hfile Hlen.
  unfold Read, os_ReadFile. rewrite Hfile. cbn [obind].
  change (index 0 (x01 :: rest)) with (Ok x01 : outcome byte). cbn [obind].
  rewrite (slice_app_r [x01] rest) by reflexivity. cbn [obind].
  change (negb (int_of_byte x01 =? 1)) with false. cbn match.
  destruct (Nat.lt_ge_cases (length rest) 16) as [H16|H16].
  { rewrite slice_Panic by (unfold len; lia). reflexivity. }
  destruct (split_prefix 16 rest H16) as (salt & rest1 & -> & Hsalt).
  rewrite slice_app_l by (unfold len; lia). cbn [obind].
  rewrite slice_app_r by (unfold len; lia). cbn [obind].
  rewrite len_app in Hlen.
  destruct (Nat.lt_ge_cases (length rest1) 4) as [H4|H4].
  { rewrite slice_Panic by (unfold len; lia). reflexivity. }
  destruct (split_prefix 4 rest1 H4) as (nb & rest2 & -> & Hnb).
  rewrite slice_app_l by (unfold len; lia). cbn [obind].
  destruct nb as [|b0 [|b1 [|b2 [|b3 [|]]]]]; try discriminate.
  cbn [Uint32_le obind].
  rewrite slice_app_r by (unfold len; cbn [length]; lia). cbn [obind].
  rewrite aes_NewCipher_Ok
    by (unfold aes_KeySizeOk, len; rewrite pbkdf2_Key_length; reflexivity).
  cbn [obind]. unfold cipher_NewGCM. cbn [aesBlock BlockSize].
  change (aes_BlockSize =? 16) with true. cbn [obind].
  rewrite len_app in Hlen.
  rewrite slice_Panic; [reflexivity|].
  unfold gcm_NonceSize, len in *. cbn [length] in Hlen. lia.
Qed.

End KeyFileParts.

Section KeyFileOutcomes.
  Context `{SHA256, AES, GCM}.
  Import masterkey.

(** A path without separator has no directory part. *)
Lemma filepath_Split_bare (file : string) :
  (forall i, String.get i file <> Some "/"%char) ->
  fst (filepath_Split file) = EmptyString.
Proof.
  intros Hno. unfold filepath_Split. cbn [fst].
  assert (Hl : forall n, lastSeparator file n = O).
  { induction n as [|i IH]; [reflexivity|]. cbn [lastSeparator].
    destruct (String.get i file) as [c|] eqn:Hc; [|exact IH].
    destruct (Ascii.eqb_spec c "/"%char) as [->|_]; [|exact IH].
    exfalso. exact (Hno i Hc). }
  rewrite Hl. destruct file; reflexivity.
Qed.

(** X7. [Save] never panics and never fails on setting up the cipher (the
    derived key always has 32 bytes). It returns the read error when the
    entropy source supplies fewer than the 28 bytes of salt and nonce; then
    the error of [os.MkdirAll] when the path has no directory part or the
    directory cannot be made; then the write error when the path has no file
    name or the file cannot be written; and otherwise it writes to [file],
    and to no other file, the version byte 1, the salt, the iteration count
    (10 for the empty passphrase, else 200000), the nonce and the sealed
    key. In particular, [Save] to a path without separator, as a bare file
    name is, returns the error of [os.MkdirAll] and writes nothing. *)
Theorem Save_outcomes (mk : MasterKey) (p file : string) (fs : FS) (r : Rand) :
  Save mk p file fs r
  = (let dir := fst (filepath_Split file) in
     let name := snd (filepath_Split file) in
     if len r <? 28 then Err ErrRandRead
     else if bool_decide (dir = EmptyString) || negb (fs_mkdir fs dir)
     then Err ErrMkdirAll
     else if bool_decide (name = EmptyString) || negb (fs_writable fs file)
     then Err ErrWriteFile
     else
       let salt := take 16 r in
       let nonce := take 12 (drop 16 r) in
       let sealed := gcm_Seal (aesBlock (derivedKey p salt (numIterFor p)))
                       nonce (key mk) [] in
       Ok ({| fs_files := <[file := keyFile salt (numIterFor p) nonce sealed]>
                            (fs_files fs);
              fs_mkdir := fs_mkdir fs;
              fs_writable := fs_writable fs |}, drop 28 r))
  /\ ((forall i, String.get i file <> Some "/"%char) -> 28 <= len r ->
      Save mk p file fs r = Err ErrMkdirAll).
Proof.
  assert (Heq : Save mk p file fs r
    = (let dir := fst (filepath_Split file) in
       let name := snd (filepath_Split file) in
       if len r <? 28 then Err ErrRandRead
       else if bool_decide (dir = EmptyString) || negb (fs_mkdir fs dir)
       then Err ErrMkdirAll
       else if bool_decide (name = EmptyString) || negb (fs_writable fs file)
       then Err ErrWriteFile
       else
         let salt := take 16 r in
         let nonce := take 12 (drop 16 r) in
         let sealed := gcm_Seal (aesBlock (derivedKey p salt (numIterFor p)))
                         nonce (key mk) [] in
         Ok ({| fs_files := <[file := keyFile salt (numIterFor p) nonce sealed]>
                              (fs_files fs);
                fs_mkdir := fs_mkdir fs;
                fs_writable := fs_writable fs |}, drop 28 r))).
  { unfold Save. fold (numIterFor p). cbv zeta.
    destruct (Z.ltb_spec (len r) 16) as [H16|H16].
    { rewrite ReadFull_short by lia.
      destruct (Z.ltb_spec (len r) 28); [reflexivity|lia]. }
    rewrite ReadFull_take by lia. cbn [obind].
    change (Z.to_nat 16) with 16%nat.
    fold (derivedKey p (take 16 r) (numIterFor p)).
    rewrite aes_NewCipher_Ok by apply derivedKey_KeySizeOk. cbn [obind].
    unfold cipher_NewGCM. cbn [aesBlock BlockSize].
    change (aes_BlockSize =? 16) with true. cbn [obind].
    fold (aesBlock (derivedKey p (take 16 r) (numIterFor p))).
    destruct (Z.ltb_spec (len r) 28) as [H28|H28].
    { rewrite ReadFull_short; [reflexivity|].
      unfold gcm_NonceSize, len in *. rewrite length_drop. lia. }
    rewrite ReadFull_take
      by (unfold gcm_NonceSize, len in *; rewrite length_drop; lia).
    cbn [obind]. unfold os_MkdirAll, os_WriteFile.
    destruct (bool_decide (fst (filepath_Split file) = EmptyString)); [reflexivity|].
    destruct (fs_mkdir fs (fst (filepath_Split file))); [|reflexivity].
    cbn [obind orb negb].
    destruct (bool_decide (snd (filepath_Split file) = EmptyString)); [reflexivity|].
    destruct (fs_writable fs file); [|reflexivity].
    cbn [obind orb negb]. change (Z.to_nat gcm_NonceSize) with 12%nat.
    rewrite drop_drop. reflexivity. }
  split; [exact Heq|].
  intros Hbare Hr. rewrite Heq. cbv zeta.
  rewrite (filepath_Split_bare file Hbare).
  destruct (Z.ltb_spec (len r) 28); [lia|]. reflexivity.
Qed.

(** X8. The only errors [Read] returns are the error of reading the file
    and the authentication failure of GCM's [Open]: the derived key always
    has 32 bytes, so the cipher is always set up. It returns the read error
    exactly when the file is missing; it returns the [Open] error only on a
    file of version 1 that has at least the 33 bytes of version, salt,
    iteration count and nonce. *)
Theorem Read_errors (p file : string) (fs : FS) :
  (fs_files fs !! file = None -> Read p file fs = Err ErrReadFile)
  /\ (forall e, Read p file fs = Err e ->
      (e = ErrReadFile /\ fs_files fs !! file = None)
      \/ (e = ErrGcmOpen
          /\ exists rest, fs_files fs !! file = Some (x01 :: rest)
                          /\ 32 <= len rest)).
Proof.
  split.
  - intros Hnone. unfold Read, os_ReadFile. rewrite Hnone. reflexivity.
  - intros e He.
    destruct (fs_files fs !! file) as [b|] eqn:Hfile.
    2:{ left. unfold Read, os_ReadFile in He. rewrite Hfile in He.
        cbn [obind] in He. injection He as <-. auto. }
    right.
    destruct b as [|v rest].
    { exfalso. unfold Read, os_ReadFile in He. rewrite Hfile in He.
      discriminate. }
    destruct (decide (v = x01)) as [->|Hv].
    2:{ exfalso. revert He. unfold Read, os_ReadFile. rewrite Hfile.
        cbn [obind]. change (index 0 (v :: rest)) with (Ok v : outcome byte).
        cbn [obind]. rewrite (slice_app_r [v] rest) by reflexivity.
        cbn [obind].
        destruct (Z.eqb_spec (int_of_byte v) 1) as [Hv1|Hv1];
          [apply int_of_byte_1 in Hv1; contradiction|discriminate]. }
    destruct (Z.lt_ge_cases (len rest) 32) as [Hlt|Hge].
    { rewrite (Read_header_short p file fs rest Hfile Hlt) in He. discriminate. }
    assert (H16 : (16 <= length rest)%nat) by (unfold len in Hge; lia).
    destruct (split_prefix 16 rest H16) as (salt & rest1 & Hr & Hsalt).
    assert (H4 : (4 <= length rest1)%nat)
      by (subst rest; rewrite len_app in Hge; unfold len in Hge; lia).
    destruct (split_prefix 4 rest1 H4) as (nb & rest2 & Hr1 & Hnb).
    assert (H12 : (12 <= length rest2)%nat)
      by (subst rest rest1; rewrite !len_app in Hge; unfold len in Hge; lia).
    destruct (split_prefix 12 rest2 H12) as (nonce & sealed & Hr2 & Hnonce).
    destruct (Read_parts p file fs salt nb nonce sealed) as (n & _ & HR); auto.
    { rewrite Hfile. subst rest rest1 rest2. reflexivity. }
    rewrite HR in He.
    destruct (gcm_Open _ _ _ _); [discriminate|].
    injection He as <-. split; [reflexivity|]. exists rest. auto.
Qed.

(** X9. On a file that is too short [Read] panics (unless its first byte is
    not 1, when [Read] ends the process): on the empty file the read of the
    version byte is out of range, and on a file of version 1 with fewer than
    33 bytes one of the slices that cut the salt, the iteration count and
    the nonce is. No length is checked. *)
Theorem Read_truncated (p file : string) (fs : FS) (b : bytes) :
  fs_files fs !! file = Some b -> len b < 33 ->
  Read p file fs
  = match b with
    | [] => Panic
    | v :: _ => if int_of_byte v =? 1 then Panic else Fatal
    end.
Proof.
  intros Hfile Hlen. destruct b as [|v rest].
  - unfold Read, os_ReadFile. rewrite Hfile. reflexivity.
  - destruct (Z.eqb_spec (int_of_byte v) 1) as [Hv1|Hv1].
    + apply int_of_byte_1 in Hv1. subst v.
      apply (Read_header_short p file fs rest Hfile).
      unfold len in *. cbn [length] in Hlen. lia.
    + unfold Read, os_ReadFile. rewrite Hfile. cbn [obind].
      change (index 0 (v :: rest)) with (Ok v : outcome byte).
      cbn [obind]. rewrite (slice_app_r [v] rest) by reflexivity.
      cbn [obind]. rewrite (proj2 (Z.eqb_neq _ _) Hv1). reflexivity.
Qed.

(** X10. A key made by [Create] and saved is read back: when the entropy
    source supplies the 32 bytes of the key and the 28 bytes of salt and
    nonce, and the path has a directory part that can be made and a file
    name that can be written, [Create] returns a key, [Save] under any
    passphrase writes the key file, [Read] with the same passphrase returns
    the key [Create] made, and every other file is as it was. *)
Theorem Create_Save_Read (p file : string) (fs : FS) (r : Rand) :
  60 <= len r -> savable file fs = true ->
  exists mk r1 fs' r2,
    Create r = Ok (mk, r1)
    /\ Save mk p file fs r1 = Ok (fs', r2)
    /\ Read p file fs' = Ok mk
    /\ (forall f, f <> file -> fs_files fs' !! f = fs_files fs !! f).
Proof.
  intros Hr Hw.
  assert (HC : Create r = Ok ({| key := take 32 r |}, drop 32 r))
    by (unfold Create; rewrite ReadFull_take by lia; reflexivity).
  destruct (Save_Ok {| key := take 32 r |} p file fs (drop 32 r) Hw)
    as (fs' & r2 & HS).
  { unfold len in *. rewrite length_drop. lia. }
  exists {| key := take 32 r |}, (drop 32 r), fs', r2.
  split; [exact HC|]. split; [exact HS|]. split.
  - apply (Read_same_derivedKey _ p p file fs fs' (drop 32 r) r2 HS). reflexivity.
  - intros f Hf. revert HS. unfold Save.
    destruct (ReadFull 16 (drop 32 r)) as [[salt r1]| | |]; try discriminate.
    cbn [obind].
    destruct (aes_NewCipher _) as [blk| | |]; try discriminate. cbn [obind].
    destruct (cipher_NewGCM blk) as [g| | |]; try discriminate. cbn [obind].
    destruct (ReadFull gcm_NonceSize r1) as [[nonce r3]| | |]; try discriminate.
    cbn [obind]. cbv zeta.
    match goal with
    | |- context [os_WriteFile file ?data fs] =>
        destruct (Save_files_Ok file data fs Hw) as [-> ->]
    end.
    cbn [obind].
    intros [= <- _]. cbn [fs_files]. apply lookup_insert_ne. congruence.
Qed.

End KeyFileOutcomes.

(** [Save] to the bare name master.key, which has no directory part. *)
Lemma Save_outcomes_witness :
  masterkey.Save {| masterkey.key := repeat x01 32 |} "" "master.key"
    (sample_fs ∅) (repeat x00 28)
  = Err ErrMkdirAll.
Proof.
  destruct (Save_outcomes {| masterkey.key := repeat x01 32 |} "" "master.key"
              (sample_fs ∅) (repeat x00 28)) as [_ Hbare].
  apply Hbare.
  - intros i. do 10 (destruct i as [|i]; [discriminate|]). discriminate.
  - vm_compute. discriminate.
Defined.

(** [Read] on a file that holds the single byte 1. *)
Lemma Read_truncated_witness :
  masterkey.Read "" "master.key"
    (sample_fs {[ "master.key"%string := [x01] ]})
  = Panic.
Proof.
  apply (Read_truncated "" "master.key" _ [x01]);
    [apply lookup_singleton_eq|reflexivity].
Defined.

(** [Create], [Save] and [Read] run on the sample instances with 60 zero
    bytes of entropy, the passphrase "foo" and the path keys/master.key. *)
Lemma Create_Save_Read_witness :
  exists mk r1 fs' r2,
    masterkey.Create (repeat x00 60) = Ok (mk, r1)
    /\ masterkey.Save mk "foo" "keys/master.key" (sample_fs ∅) r1 = Ok (fs', r2)
    /\ masterkey.Read "foo" "keys/master.key" fs' = Ok mk.
Proof.
  destruct (Create_Save_Read "foo" "keys/master.key" (sample_fs ∅)
              (repeat x00 60)) as (mk & r1 & fs' & r2 & HC & HS & HR & _);
    [vm_compute; discriminate|reflexivity|].
  exists mk, r1, fs', r2. auto.
Defined.


(** ** Users: what [AddUser] leaves, and looking users up *)

Section UsersMore.
  Context `{SHA256, Encoding}.
  Import database.

(** The records [AddUser] has written when the part after the choice of the
    ID returns without error: the user record and the four empty home
    records, none of which existed. *)
Lemma AddUser_records_Ok d u uid w w' :
  AddUser_records d u uid w = (Ok tt, w') ->
  exists serverKey tokenKey,
    store w'
    = <[contactListFile uid := VContactList emptyContactList]>
        (<[albumManifestFile uid := VAlbumManifest]>
           (<[fileSetFile uid GallerySet := VFileSet]>
              (<[fileSetFile uid TrashSet := VFileSet]>
                 (<[userFile uid :=
                      VUser {| UserID := uid; Email := Email u;
                               HashedPassword := HashedPassword u; Salt := Salt u;
                               HomeFolder := hex_EncodeToString
                                 (Database_Hash d (list_byte_of_string (Email u)));
                               KeyBundle := KeyBundle u; IsBackup := IsBackup u;
                               ServerKey := serverKey; PublicKey := PublicKey u;
                               TokenKey := tokenKey |}]> (store w)))))
    /\ locks w' = locks w
    /\ len serverKey = 32 /\ len tokenKey = 32
    /\ store w !! contactListFile uid = None.
Proof.
  unfold AddUser_records, dbind, MakeKey.
  destruct (ReadFull 32 (rand w)) as [[sk r1]| | |] eqn:HR1; try discriminate.
  cbn [rand set_rand].
  destruct (ReadFull 32 r1) as [[tk r2]| | |] eqn:HR2; try discriminate.
  unfold SaveDataFile, CreateEmptyFile.
  cbn [store locks set_store log_event].
  repeat match goal with
         | |- context [match ?m !! ?k with _ => _ end] =>
             let E := fresh "E" in destruct (m !! k) eqn:E; [discriminate|];
             cbn [store locks set_store log_event]
         end.
  cbn [store locks set_store log_event dret].
  intros [= <-]. cbn [store locks].
  exists sk, tk. split; [reflexivity|]. split; [reflexivity|].
  apply ReadFull_Ok_inv in HR1 as [Hsk _]. apply ReadFull_Ok_inv in HR2 as [Htk _].
  split; [exact Hsk|]. split; [exact Htk|].
  rewrite !lookup_insert_ne in E2 by discriminate. exact E2.
Qed.

(** What a run of [AddUser] that returns without error leaves in the store. *)
Lemma AddUser_Ok_inv d u ul w w' :
  store w !! userListFile = Some (VUserList ul) ->
  userListFile ∉ locks w ->
  AddUser d u w = (Ok tt, w') ->
  exists uid serverKey tokenKey,
    (forall i, i ∈ ul -> ul_Email i <> Email u)
    /\ (uid ∉ map ul_UserID ul) /\ 1000000 <= uid < MaxInt32
    /\ len serverKey = 32 /\ len tokenKey = 32
    /\ store w !! contactListFile uid = None
    /\ locks w' = locks w
    /\ store w'
       = <[userListFile :=
             VUserList (ul ++ [{| ul_UserID := uid; ul_Email := Email u |}])]>
         (<[contactListFile uid := VContactList emptyContactList]>
            (<[albumManifestFile uid := VAlbumManifest]>
               (<[fileSetFile uid GallerySet := VFileSet]>
                  (<[fileSetFile uid TrashSet := VFileSet]>
                     (<[userFile uid :=
                          VUser {| UserID := uid; Email := Email u;
                                   HashedPassword := HashedPassword u;
                                   Salt := Salt u;
                                   HomeFolder := hex_EncodeToString
                                     (Database_Hash d
                                        (list_byte_of_string (Email u)));
                                   KeyBundle := KeyBundle u;
                                   IsBackup := IsBackup u;
                                   ServerKey := serverKey;
                                   PublicKey := PublicKey u;
                                   TokenKey := tokenKey |}]> (store w)))))).
Proof.
  intros Hst Hlk Hrun. unfold AddUser, dbind in Hrun.
  destruct (OpenForUpdate_Ok _ _ _ Hst Hlk) as (w1 & HO & Hs1 & Hl1 & Hr1 & Ht1).
  rewrite HO in Hrun. unfold deferred_commit, AddUser_body in Hrun.
  assert (Hheld : forall x, locks x = locks w1 ->
            Forall (fun f => f ∈ locks x) [userListFile]).
  { intros x Hx. repeat constructor. rewrite Hx, Hl1. set_solver. }
  destruct (existsb (fun i => bool_decide (ul_Email i = Email u)) ul) eqn:Hex.
  { destruct (commit _ _ _ w1) as [? ?]. discriminate. }
  set (uids := list_to_set (map ul_UserID ul) : gset Z) in *.
  destruct (pickUserID_fuel (S (length (database.rand w1))) uids w1 ltac:(lia))
    as [[r w2] Hpick].
  rewrite Hpick in Hrun.
  destruct (pickUserID_spec _ _ _ _ _ Hpick) as (Hs2 & Hl2 & ns & Ht2 & Hr).
  destruct r as [uid|e| |]; try contradiction.
  2:{ destruct (commit _ _ false w2) as [? w3].
      destruct (commit _ _ true w3) as [? ?]. discriminate. }
  destruct Hr as (Hrange & Hfresh & _).
  destruct (AddUser_records d u uid w2) as [res0 w3] eqn:HR.
  destruct res0 as [[]|e| |]; try discriminate.
  2:{ destruct (commit _ _ _ w3) as [? ?]. discriminate. }
  2:{ destruct (commit _ _ _ w3) as [? ?]. discriminate. }
  destruct (AddUser_records_Ok _ _ _ _ _ HR)
    as (sk & tk & Hs3 & Hl3 & Hsk & Htk & Hnone).
  destruct (commit_held [userListFile]
              [VUserList (ul ++ [{| ul_UserID := uid; ul_Email := Email u |}])]
              true w3 (Hheld w3 ltac:(congruence)))
    as (w4 & HC & Hl4 & _ & Hs4 & _).
  rewrite HC in Hrun. injection Hrun as <-.
  exists uid, sk, tk.
  split.
  { intros i Hi He.
    assert (Ht : existsb (fun i => bool_decide (ul_Email i = Email u)) ul = true)
      by (apply existsb_Email; eauto).
    congruence. }
  split.
  { intros Hin. apply Hfresh. unfold uids. apply elem_of_list_to_set. exact Hin. }
  split; [exact Hrange|]. split; [exact Hsk|]. split; [exact Htk|].
  split; [rewrite <- Hs1, <- Hs2; exact Hnone|].
  split.
  { rewrite Hl4, Hl3, Hl2, Hl1. cbn [list_to_set]. set_solver. }
  rewrite Hs4, Hs3, Hs2, Hs1. reflexivity.
Qed.

Lemma find_Email_app (ul : list userList) (x : userList) (email : string) :
  (forall i, i ∈ ul -> ul_Email i <> email) -> ul_Email x = email ->
  find (fun u => bool_decide (ul_Email u = email)) (ul ++ [x]) = Some x.
Proof.
  intros Hno Hx. induction ul as [|i ul IH]; cbn [app find].
  - rewrite bool_decide_eq_true_2 by exact Hx. reflexivity.
  - rewrite bool_decide_eq_false_2 by (apply Hno; left).
    apply IH. intros j Hj. apply Hno. right. exact Hj.
Qed.

(** X11. A user that [AddUser] has added is found by email. After a run of
    [AddUser] that returns without error, [User] with the new user's email
    returns a record with that email and the new user ID (at least 1000000
    and not the ID of an older user) and the password hash, salt, key bundle
    and public key that were given; [UserByID] with the new ID returns the
    same record, [TokenKeyForUser] its token key, and the new user's contact
    list exists and is empty. *)
Theorem AddUser_User (d : Database) (u : User) (ul : list userList) (w w' : World) :
  store w !! userListFile = Some (VUserList ul) ->
  userListFile ∉ locks w ->
  AddUser d u w = (Ok tt, w') ->
  exists u',
    fst (Database_User (Email u) w') = Ok u'
    /\ fst (UserByID (UserID u') w') = Ok u'
    /\ fst (TokenKeyForUser (Email u) w') = Ok (Some (TokenKey u'))
    /\ Email u' = Email u
    /\ 1000000 <= UserID u' /\ (UserID u' ∉ map ul_UserID ul)
    /\ HashedPassword u' = HashedPassword u /\ Salt u' = Salt u
    /\ KeyBundle u' = KeyBundle u /\ PublicKey u' = PublicKey u
    /\ contactsOf w' (UserID u') = Some emptyContactList.
Proof.
  intros Hst Hlk Hrun.
  destruct (AddUser_Ok_inv d u ul w w' Hst Hlk Hrun)
    as (uid & sk & tk & Hno & Hfresh & Hrange & Hsk & Htk & _ & _ & Hs).
  set (u' := {| UserID := uid; Email := Email u;
                HashedPassword := HashedPassword u; Salt := Salt u;
                HomeFolder := hex_EncodeToString
                  (Database_Hash d (list_byte_of_string (Email u)));
                KeyBundle := KeyBundle u; IsBackup := IsBackup u;
                ServerKey := sk; PublicKey := PublicKey u; TokenKey := tk |}) in *.
  assert (Hlist : store w' !! userListFile
                  = Some (VUserList (ul ++ [{| ul_UserID := uid;
                                               ul_Email := Email u |}])))
    by (rewrite Hs; apply lookup_insert_eq).
  assert (Huser : store w' !! userFile uid = Some (VUser u')).
  { rewrite Hs. rewrite !lookup_insert_ne by discriminate. apply lookup_insert_eq. }
  assert (HbyID : forall x, store x = store w' -> fst (UserByID uid x) = Ok u').
  { intros x Hx. unfold UserByID, dbind, ReadDataFile. rewrite Hx, Huser.
    reflexivity. }
  assert (HU : fst (Database_User (Email u) w') = Ok u').
  { unfold Database_User, dbind, ReadDataFile. rewrite Hlist.
    rewrite find_Email_app by (auto; reflexivity). cbn [ul_UserID].
    apply HbyID. reflexivity. }
  exists u'. split; [exact HU|]. split; [apply HbyID; reflexivity|].
  split.
  { unfold TokenKeyForUser.
    destruct (Database_User (Email u) w') as [r x]. cbn [fst] in HU. subst r.
    reflexivity. }
  cbn [Email UserID HashedPassword Salt KeyBundle PublicKey ServerKey TokenKey u'].
  repeat (split; [first [reflexivity | assumption | lia]|]).
  unfold contactsOf. rewrite Hs.
  rewrite lookup_insert_ne by discriminate. rewrite lookup_insert_eq. reflexivity.
Qed.

(** X12. [AddUser] keeps users.dat free of duplicates: when no two entries
    share an email and no two share a user ID before a run that returns
    without error, the same holds of the list it leaves, which is the old
    list followed by one entry bearing the new user's email. *)
Theorem AddUser_unique (d : Database) (u : User) (ul : list userList) (w w' : World) :
  store w !! userListFile = Some (VUserList ul) ->
  userListFile ∉ locks w ->
  AddUser d u w = (Ok tt, w') ->
  NoDup (map ul_Email ul) -> NoDup (map ul_UserID ul) ->
  exists uid,
    store w' !! userListFile
    = Some (VUserList (ul ++ [{| ul_UserID := uid; ul_Email := Email u |}]))
    /\ NoDup (map ul_Email (ul ++ [{| ul_UserID := uid; ul_Email := Email u |}]))
    /\ NoDup (map ul_UserID (ul ++ [{| ul_UserID := uid; ul_Email := Email u |}])).
Proof.
  intros Hst Hlk Hrun Hemails Hids.
  destruct (AddUser_Ok_inv d u ul w w' Hst Hlk Hrun)
    as (uid & sk & tk & Hno & Hfresh & _ & _ & _ & _ & _ & Hs).
  exists uid. split; [rewrite Hs; apply lookup_insert_eq|].
  rewrite !map_app. cbn [map ul_Email ul_UserID].
  split; apply NoDup_app; (split; [assumption|]); (split; [|apply NoDup_singleton]).
  - intros e He Hin. apply list_elem_of_singleton in Hin. subst e.
    apply list_elem_of_fmap in He as (i & He & Hi). exact (Hno i Hi (eq_sym He)).
  - intros x Hx Hin. apply list_elem_of_singleton in Hin. subst x.
    exact (Hfresh Hx).
Qed.

(** X13. A run of [AddUser] that fails before a user ID is chosen changes
    nothing: when it returns an error because the email is taken, or returns
    the read error of the entropy source, every record is as it was and
    users.dat is no longer held. *)
Theorem AddUser_rollback (d : Database) (u : User) (ul : list userList)
    (w w' : World) (e : error) :
  store w !! userListFile = Some (VUserList ul) ->
  userListFile ∉ locks w ->
  AddUser d u w = (Err e, w') ->
  (exists i, i ∈ ul /\ ul_Email i = Email u) \/ e = ErrRandRead ->
  store w' = store w /\ locks w' = locks w.
Proof.
  intros Hst Hlk Hrun Hwhy. unfold AddUser, dbind in Hrun.
  destruct (OpenForUpdate_Ok _ _ _ Hst Hlk) as (w1 & HO & Hs1 & Hl1 & Hr1 & Ht1).
  rewrite HO in Hrun. unfold deferred_commit, AddUser_body in Hrun.
  assert (Hheld : forall x, locks x = locks w1 ->
            Forall (fun f => f ∈ locks x) [userListFile]).
  { intros x Hx. repeat constructor. rewrite Hx, Hl1. set_solver. }
  assert (Hrel : ({[userListFile]} ∪ locks w) ∖ list_to_set [userListFile]
                 = locks w).
  { cbn [list_to_set]. set_solver. }
  destruct (existsb (fun i => bool_decide (ul_Email i = Email u)) ul) eqn:Hex.
  { (* the email is taken: the deferred commit writes the list as it was read *)
    destruct (commit_held [userListFile] [VUserList ul] true w1
                (Hheld w1 eq_refl)) as (w2 & HC & Hl2 & _ & Hs2 & _).
    rewrite HC in Hrun. injection Hrun as <- <-.
    split; [|rewrite Hl2, Hl1; exact Hrel].
    rewrite Hs2, Hs1. cbn [write_all]. apply insert_id. exact Hst. }
  destruct Hwhy as [Hi| ->].
  { apply existsb_Email in Hi. congruence. }
  set (uids := list_to_set (map ul_UserID ul) : gset Z) in *.
  destruct (pickUserID_fuel (S (length (database.rand w1))) uids w1 ltac:(lia))
    as [[r w2] Hpick].
  rewrite Hpick in Hrun.
  destruct (pickUserID_spec _ _ _ _ _ Hpick) as (Hs2 & Hl2 & ns & Ht2 & Hr).
  destruct r as [uid|e0| |]; try contradiction.
  - (* an ID was chosen: the records return no read error *)
    exfalso.
    destruct (AddUser_records d u uid w2) as [res0 w3] eqn:HR.
    assert (HnoRand : res0 <> Err ErrRandRead).
    { revert HR. unfold AddUser_records, dbind, MakeKey, SaveDataFile,
        CreateEmptyFile, dret.
      repeat match goal with
             | |- context [match ReadFull ?n ?x with _ => _ end] =>
                 destruct (ReadFull n x) as [[? ?]| | |];
                 cbn [database.rand set_rand set_store log_event store]
             | |- context [match ?m !! ?k with _ => _ end] =>
                 destruct (m !! k);
                 cbn [database.rand set_rand set_store log_event store]
             end;
        intros [= <- _]; discriminate. }
    destruct res0 as [[]|e0| |];
      try (destruct (commit _ _ _ w3) as [? ?]); try discriminate.
    injection Hrun as -> _. apply HnoRand. reflexivity.
  - (* the entropy source failed: commit(false, nil), then the deferred call *)
    destruct (commit_held [userListFile] [VUserList ul] false w2
                (Hheld w2 Hl2)) as (w3 & HC & Hl3 & _ & Hs3 & _).
    rewrite HC in Hrun.
    rewrite commit_released in Hrun.
    2:{ intros Hf. apply Forall_cons in Hf as [Hin _].
        rewrite Hl3, Hl2, Hl1 in Hin. set_solver. }
    injection Hrun as _ <-.
    split; [rewrite Hs3, Hs2, Hs1; reflexivity|].
    rewrite Hl3, Hl2, Hl1; exact Hrel.
Qed.

(** [OpenForUpdate] returns a value only for a record that exists and is not
    held; it then holds the record. *)
Lemma OpenForUpdate_inv f v w w1 :
  OpenForUpdate f w = (Ok v, w1) ->
  store w !! f = Some v /\ (f ∉ locks w)
  /\ store w1 = store w /\ locks w1 = {[f]} ∪ locks w.
Proof.
  unfold OpenForUpdate, OpenManyForUpdate.
  destruct (bool_decide (Exists (fun f0 => f0 ∈ locks w) [f])) eqn:Hex.
  { rewrite orb_true_r. discriminate. }
  destruct (negb (bool_decide (NoDup [f]))); [discriminate|].
  cbn [orb mapM]. destruct (store w !! f) as [v0|] eqn:Hv; [|discriminate].
  cbn. intros [= <- <-]. cbn [store locks set_locks log_event].
  apply bool_decide_eq_false_1 in Hex.
  split; [reflexivity|]. split.
  - intros Hin. apply Hex. constructor. exact Hin.
  - split; [reflexivity|]. cbn [list_to_set]. set_solver.
Qed.

(** X14. A user record written by [UpdateUser] is read back by [UserByID]:
    after a run of [UpdateUser u] that returns without error, [UserByID]
    with [u]'s ID returns [u]; every other record, users.dat included, is as
    it was, and no record is left held. *)
Theorem UpdateUser_UserByID (u : User) (w w' : World) :
  UpdateUser u w = (Ok tt, w') ->
  fst (UserByID (UserID u) w') = Ok u
  /\ (forall f, f <> userFile (UserID u) -> store w' !! f = store w !! f)
  /\ locks w' = locks w.
Proof.
  unfold UpdateUser, dbind.
  destruct (OpenForUpdate (userFile (UserID u)) w) as [[v|e| |] w1] eqn:HO;
    try discriminate.
  destruct (OpenForUpdate_inv _ _ _ _ HO) as (Hv & Hfree & Hs1 & Hl1).
  destruct v as [|f| | |].
  1,3,4,5: destruct (commit _ _ false w1) as [[[]|?| |] ?]; discriminate.
  destruct (commit_held [userFile (UserID u)] [VUser u] true w1)
    as (w2 & HC & Hl2 & _ & Hs2 & _).
  { repeat constructor. rewrite Hl1. set_solver. }
  rewrite HC. intros [= <-]. cbn [write_all] in Hs2.
  split; [|split].
  - unfold UserByID, dbind, ReadDataFile. rewrite Hs2, lookup_insert_eq.
    reflexivity.
  - intros g Hg. rewrite Hs2, Hs1. apply lookup_insert_ne. congruence.
  - rewrite Hl2, Hl1. cbn [list_to_set]. set_solver.
Qed.

Lemma find_Email_Some (ul : list userList) (email : string) (i : userList) :
  find (fun u => bool_decide (ul_Email u = email)) ul = Some i ->
  ul_Email i = email
  /\ exists older newer,
       ul = older ++ i :: newer /\ Forall (fun j => ul_Email j <> email) older.
Proof.
  induction ul as [|j ul IH]; cbn [find]; [discriminate|].
  destruct (bool_decide_reflect (ul_Email j = email)) as [Hj|Hj].
  - intros [= <-]. split; [exact Hj|]. exists [], ul. split; [reflexivity|constructor].
  - intros Hf. destruct (IH Hf) as (Hi & older & newer & -> & Holder).
    split; [exact Hi|]. exists (j :: older), newer.
    split; [reflexivity|constructor; assumption].
Qed.

(** X15. [User] looks a user up by the first entry of users.dat that has the
    email, and changes nothing: it leaves the store and the held records as
    they were; it returns [os.ErrNotExist] when no entry has the email; and
    a record it returns is the one stored under the ID of the first entry
    that has the email. *)
Theorem Database_User_lookup (email : string) (ul : list userList) (w : World) :
  store w !! userListFile = Some (VUserList ul) ->
  store (snd (Database_User email w)) = store w
  /\ locks (snd (Database_User email w)) = locks w
  /\ ((forall i, i ∈ ul -> ul_Email i <> email) ->
      fst (Database_User email w) = Err ErrNotExist)
  /\ (forall u, fst (Database_User email w) = Ok u ->
      exists i older newer,
        ul = older ++ i :: newer
        /\ Forall (fun j => ul_Email j <> email) older
        /\ ul_Email i = email
        /\ store w !! userFile (ul_UserID i) = Some (VUser u)).
Proof.
  intros Hst. unfold Database_User, dbind, ReadDataFile. rewrite Hst.
  destruct (find (fun u => bool_decide (ul_Email u = email)) ul) as [i|] eqn:Hf.
  - destruct (find_Email_Some _ _ _ Hf) as (Hi & older & newer & Hul & Holder).
    unfold UserByID, dbind, ReadDataFile. cbn [store log_event].
    destruct (store w !! userFile (ul_UserID i)) as [[|u0| | |]|] eqn:Hu;
      cbn [fst snd store locks log_event dret dfail];
      (split; [reflexivity|]); (split; [reflexivity|]);
      (split; [intros Hno; exfalso; apply (Hno i);
               [rewrite Hul; apply elem_of_app; right; left|exact Hi]|]);
      intros u [= <-].
    exists i, older, newer. auto.
  - cbn [fst snd dfail store locks log_event].
    split; [reflexivity|]. split; [reflexivity|].
    split; [reflexivity|]. discriminate.
Qed.

(** The loop of [lookupContacts] from a list [out], in a world whose store
    is that of [w]. *)
Lemma lookupContacts_loop_spec (uids : gmap Z bool) (ul : list userList)
    (out : list Contact) (w x : World) :
  store x = store w -> locks x = locks w ->
  fst (lookupContacts_loop uids ul out x)
  = Ok (out ++ omap (fun i =>
                 if default false (uids !! ul_UserID i)
                 then match store w !! userFile (ul_UserID i) with
                      | Some (VUser user) =>
                          Some {| c_UserID := UserID user;
                                  c_Email := Email user;
                                  c_PublicKey :=
                                    base64_EncodeToString (PublicKey user);
                                  c_DateUsed := 0;
                                  c_DateModified := 0 |}
                      | _ => None
                      end
                 else None) ul)
  /\ store (snd (lookupContacts_loop uids ul out x)) = store w
  /\ locks (snd (lookupContacts_loop uids ul out x)) = locks w.
Proof.
  revert out x. induction ul as [|i ul IH]; intros out x Hs Hl.
  - cbn. rewrite app_nil_r. auto.
  - cbn [lookupContacts_loop omap list_omap].
    destruct (default false (uids !! ul_UserID i)); [|apply IH; assumption].
    unfold UserByID, dbind, ReadDataFile. rewrite Hs.
    destruct (store w !! userFile (ul_UserID i)) as [[|user| | |]|];
      cbn [dret dfail fst snd];
      try (apply IH; assumption).
    match goal with
    | |- context [lookupContacts_loop uids ul ?o ?y] =>
        destruct (IH o y Hs Hl) as (Ha & Hb & Hc)
    end.
    split; [rewrite Ha, <- app_assoc; reflexivity|auto].
Qed.

(** X16. [lookupContacts] never fails and changes nothing. It returns, in the
    order of users.dat, one contact for each entry whose ID is marked in
    [uids] and whose user record can be read, built from that record with
    both dates zero; an entry whose record cannot be read is skipped; when
    users.dat itself cannot be read the result is empty. *)
Theorem lookupContacts_spec (uids : gmap Z bool) (w : World) :
  fst (lookupContacts uids w)
  = Ok (match store w !! userListFile with
        | Some (VUserList ul) =>
            omap (fun i =>
                    if default false (uids !! ul_UserID i)
                    then match store w !! userFile (ul_UserID i) with
                         | Some (VUser user) =>
                             Some {| c_UserID := UserID user;
                                     c_Email := Email user;
                                     c_PublicKey :=
                                       base64_EncodeToString (PublicKey user);
                                     c_DateUsed := 0;
                                     c_DateModified := 0 |}
                         | _ => None
                         end
                    else None) ul
        | _ => []
        end)
  /\ store (snd (lookupContacts uids w)) = store w
  /\ locks (snd (lookupContacts uids w)) = locks w.
Proof.
  unfold lookupContacts, ReadDataFile.
  destruct (store w !! userListFile) as [[ul| | | |]|]; cbn [fst snd]; auto.
  apply (lookupContacts_loop_spec uids ul [] w); reflexivity.
Qed.

End UsersMore.

(** The run of [AddUser] for "bob" on the sample instances, where users.dat
    holds one user with the ID 1000005 and the entropy source yields the
    candidates 5 and 7: "bob" is then found with the ID 1000007. *)
Lemma AddUser_User_witness :
  let w := sample_world {[ database.userListFile := database.VUserList sample_users ]}
             ([x00; x00; x00; x05; x00; x00; x00; x07] ++ repeat x00 64) in
  let w' := snd (database.AddUser sample_db (sample_user "bob") w) in
  exists u',
    fst (database.Database_User "bob" w') = Ok u'
    /\ database.Email u' = "bob"%string
    /\ contactsOf w' (database.UserID u') = Some database.emptyContactList.
Proof.
  intros w w'.
  assert (Hrun : database.AddUser sample_db (sample_user "bob") w = (Ok tt, w')).
  { rewrite (surjective_pairing (database.AddUser sample_db (sample_user "bob") w)).
    f_equal; vm_compute; reflexivity. }
  destruct (AddUser_User sample_db (sample_user "bob") sample_users w w')
    as (u' & HU & _ & _ & HE & _ & _ & _ & _ & _ & _ & Hc).
  - apply lookup_singleton_eq.
  - apply not_elem_of_empty.
  - exact Hrun.
  - exists u'. split; [exact HU|]. split; [exact HE|exact Hc].
Defined.

(** The same run leaves a list of two users with distinct emails and IDs. *)
Lemma AddUser_unique_witness :
  let w := sample_world {[ database.userListFile := database.VUserList sample_users ]}
             ([x00; x00; x00; x05; x00; x00; x00; x07] ++ repeat x00 64) in
  let w' := snd (database.AddUser sample_db (sample_user "bob") w) in
  exists ul',
    database.store w' !! database.userListFile = Some (database.VUserList ul')
    /\ NoDup (map database.ul_Email ul') /\ NoDup (map database.ul_UserID ul').
Proof.
  intros w w'.
  assert (Hrun : database.AddUser sample_db (sample_user "bob") w = (Ok tt, w')).
  { rewrite (surjective_pairing (database.AddUser sample_db (sample_user "bob") w)).
    f_equal; vm_compute; reflexivity. }
  destruct (AddUser_unique sample_db (sample_user "bob") sample_users w w')
    as (uid & Hl & He & Hi).
  - apply lookup_singleton_eq.
  - apply not_elem_of_empty.
  - exact Hrun.
  - apply NoDup_singleton.
  - apply NoDup_singleton.
  - eexists. split; [exact Hl|]. split; [exact He|exact Hi].
Defined.

(** [AddUser] for "alice", whose email is taken: nothing has changed. *)
Lemma AddUser_rollback_witness :
  let w := sample_world {[ database.userListFile := database.VUserList sample_users ]} [] in
  let run := database.AddUser sample_db (sample_user "alice") w in
  fst run = Err ErrExist
  /\ database.store (snd run) = database.store w
  /\ database.locks (snd run) = ∅.
Proof.
  intros w run.
  assert (Hrun : run = (Err ErrExist, snd run)).
  { rewrite (surjective_pairing run) at 1. f_equal; vm_compute; reflexivity. }
  split; [rewrite Hrun; reflexivity|].
  destruct (AddUser_rollback sample_db (sample_user "alice") sample_users w
              (snd run) ErrExist) as (Hs & Hl).
  - apply lookup_singleton_eq.
  - apply not_elem_of_empty.
  - exact Hrun.
  - left. exists {| database.ul_UserID := 1000005; database.ul_Email := "alice" |}.
    split; [apply list_elem_of_here|reflexivity].
  - split; [exact Hs|exact Hl].
Defined.

(** [UpdateUser] on the record of user 0, then [UserByID 0]. *)
Lemma UpdateUser_UserByID_witness :
  let w := sample_world {[ database.userFile 0 := database.VUser (sample_user "old") ]} [] in
  let w' := snd (database.UpdateUser (sample_user "new") w) in
  fst (database.UserByID 0 w') = Ok (sample_user "new").
Proof.
  intros w w'.
  assert (Hrun : database.UpdateUser (sample_user "new") w = (Ok tt, w')).
  { rewrite (surjective_pairing (database.UpdateUser (sample_user "new") w)).
    f_equal; vm_compute; reflexivity. }
  destruct (UpdateUser_UserByID (sample_user "new") w w' Hrun) as (HU & _).
  exact HU.
Defined.

(** [User] with an email that users.dat does not list. *)
Lemma Database_User_lookup_witness :
  fst (database.Database_User "carol"
         (sample_world {[ database.userListFile := database.VUserList sample_users ]} []))
  = Err ErrNotExist.
Proof.
  destruct (Database_User_lookup "carol" sample_users
              (sample_world {[ database.userListFile := database.VUserList sample_users ]} []))
    as (_ & _ & Hno & _).
  - apply lookup_singleton_eq.
  - apply Hno. intros i Hi. apply list_elem_of_singleton in Hi. subst i.
    discriminate.
Defined.

(** ** Contacts: adding contacts keeps contact symmetry *)

Section ContactsMore.
  Context `{Encoding}.
  Import database.

(** What [addContactToUser] does when the two users differ, their contact
    lists exist and neither list is held. *)
Lemma addContactToUser_run user contact cu cc w :
  UserID user <> UserID contact ->
  contactsOf w (UserID user) = Some cu ->
  contactsOf w (UserID contact) = Some cc ->
  contactListFile (UserID user) ∉ locks w ->
  contactListFile (UserID contact) ∉ locks w ->
  exists w',
    addContactToUser user contact w
    = (Ok (contactFor contact (clock w (clock_reads w))), w')
    /\ locks w' = locks w
    /\ store w'
       = <[contactListFile (UserID user) :=
             VContactList
               (set_Contacts (<[UserID contact :=
                                  contactFor contact (clock w (clock_reads w))]>
                                (Contacts cu)) cu)]>
           (<[contactListFile (UserID contact) :=
                VContactList (set_In (<[UserID user := true]> (In cc)) cc)]>
              (store w)).
Proof.
  intros Hne Hu Hc Hfu Hfc.
  unfold addContactToUser, dbind.
  rewrite (OpenManyForUpdate_Ok _ [VContactList cu; VContactList cc]).
  2:{ apply NoDup_cons. split; [|apply NoDup_singleton].
      intros Hin. apply list_elem_of_singleton in Hin. congruence. }
  2:{ intros f Hf. apply elem_of_cons in Hf as [->|Hf]; [exact Hfu|].
      apply list_elem_of_singleton in Hf. subst f. exact Hfc. }
  2:{ cbn [mapM]. rewrite (contactsOf_store _ _ _ Hu), (contactsOf_store _ _ _ Hc).
      reflexivity. }
  cbn [mapM as_ContactList mbind option_bind mret option_ret].
  unfold deferred_commit. cbn [nowInMS snd].
  match goal with
  | |- context [commit ?fs ?vs true ?x] =>
      destruct (commit_held fs vs true x) as (w2 & HC & Hl2 & _ & Hs2 & _)
  end.
  { cbn [locks set_locks log_event].
    repeat constructor; set_solver. }
  rewrite HC. eexists. split; [reflexivity|].
  split.
  - rewrite Hl2. cbn [locks set_locks log_event list_to_set]. set_solver.
  - rewrite Hs2. reflexivity.
Qed.

(** [OpenManyForUpdate] either fails, leaving the world as it was, or holds
    the records it returns, none of which was held. *)
Lemma OpenManyForUpdate_inv fs w res w1 :
  OpenManyForUpdate fs w = (res, w1) ->
  match res with
  | Ok vs =>
      NoDup fs /\ (forall f, f ∈ fs -> f ∉ locks w)
      /\ mapM (fun f => store w !! f) fs = Some vs
      /\ w1 = log_event (EvOpenForUpdate fs)
                (set_locks (list_to_set fs ∪ locks w) w)
  | Err _ => w1 = w
  | _ => False
  end.
Proof.
  unfold OpenManyForUpdate.
  destruct (bool_decide_reflect (NoDup fs)) as [Hnd|Hnd]; cbn [negb orb].
  2:{ intros [= <- <-]. reflexivity. }
  destruct (bool_decide_reflect (Exists (fun f => f ∈ locks w) fs)) as [Hex|Hex].
  { intros [= <- <-]. reflexivity. }
  destruct (mapM (fun f => store w !! f) fs) as [vs|] eqn:Hvs.
  - intros [= <- <-]. split; [exact Hnd|]. split; [|auto].
    intros f Hf Hl. apply Hex. apply Exists_exists. eauto.
  - intros [= <- <-]. reflexivity.
Qed.

(** Releasing the records that [OpenManyForUpdate] has just taken gives the
    held records back as they were. *)
Lemma locks_released (fs : list file) (l : gset file) :
  (forall f, f ∈ fs -> f ∉ l) -> (list_to_set fs ∪ l) ∖ list_to_set fs = l.
Proof.
  intros Hfree. apply set_eq. intros f.
  rewrite elem_of_difference, elem_of_union, elem_of_list_to_set.
  split; [intros [[Hf|Hf] Hn]; [contradiction|exact Hf]|].
  intros Hf. split; [right; exact Hf|]. intros Hin. exact (Hfree f Hin Hf).
Qed.

(** The worlds a rollback right after [OpenManyForUpdate] leaves. *)
Lemma rollback_after_open fs vs w res w' :
  NoDup fs -> (forall f, f ∈ fs -> f ∉ locks w) ->
  commit fs vs false
    (log_event (EvOpenForUpdate fs) (set_locks (list_to_set fs ∪ locks w) w))
  = (res, w') ->
  store w' = store w /\ locks w' = locks w.
Proof.
  intros Hnd Hfree.
  match goal with
  | |- commit ?fs ?vs false ?x = _ -> _ =>
      destruct (commit_held fs vs false x) as (w2 & HC & Hl2 & _ & Hs2 & _)
  end.
  { cbn [locks set_locks log_event]. apply Forall_forall. intros f Hf.
    apply elem_of_union. left. apply elem_of_list_to_set. exact Hf. }
  rewrite HC. intros [= _ <-].
  split; [exact Hs2|]. rewrite Hl2. cbn [locks set_locks log_event].
  apply locks_released. exact Hfree.
Qed.

(** X17. [addContactToUser] links the two users in one transaction. When the
    users differ, both contact lists exist and neither is held, it returns
    the contact it stored, dated with the clock's reading; afterwards the
    user's list holds that contact under the contact's ID, the contact's
    list records the user in its [In] set, nothing else in the two lists has
    changed, every other record is as it was and no record is left held. *)
Theorem addContactToUser_link (user contact : User) (cu cc : ContactList) (w : World) :
  UserID user <> UserID contact ->
  contactsOf w (UserID user) = Some cu ->
  contactsOf w (UserID contact) = Some cc ->
  contactListFile (UserID user) ∉ locks w ->
  contactListFile (UserID contact) ∉ locks w ->
  exists w' c,
    addContactToUser user contact w = (Ok c, w')
    /\ c = contactFor contact (clock w (clock_reads w))
    /\ contactsOf w' (UserID user)
       = Some {| Contacts := <[UserID contact := c]> (Contacts cu);
                 In := In cu; Deletes := Deletes cu |}
    /\ contactsOf w' (UserID contact)
       = Some {| Contacts := Contacts cc;
                 In := <[UserID user := true]> (In cc); Deletes := Deletes cc |}
    /\ (forall f, f <> contactListFile (UserID user) ->
                  f <> contactListFile (UserID contact) ->
                  store w' !! f = store w !! f)
    /\ locks w' = locks w.
Proof.
  intros Hne Hu Hc Hfu Hfc.
  destruct (addContactToUser_run user contact cu cc w Hne Hu Hc Hfu Hfc)
    as (w' & Hrun & Hl & Hs).
  exists w', (contactFor contact (clock w (clock_reads w))).
  split; [exact Hrun|]. split; [reflexivity|].
  split; [|split; [|split]].
  - unfold contactsOf. rewrite Hs, lookup_insert_eq. reflexivity.
  - unfold contactsOf. rewrite Hs, lookup_insert_ne by congruence.
    rewrite lookup_insert_eq. reflexivity.
  - intros f Hf1 Hf2. rewrite Hs, !lookup_insert_ne by congruence. reflexivity.
  - exact Hl.
Qed.

(** X18. [addContactToUser] preserves contact symmetry: under the same
    conditions, when before the call every user A has B as a contact exactly
    if B's list records A in its [In] set, the same holds afterwards. *)
Theorem addContactToUser_symmetric (user contact : User) (cu cc : ContactList)
    (w : World) :
  UserID user <> UserID contact ->
  contactsOf w (UserID user) = Some cu ->
  contactsOf w (UserID contact) = Some cc ->
  contactListFile (UserID user) ∉ locks w ->
  contactListFile (UserID contact) ∉ locks w ->
  symmetric w ->
  symmetric (snd (addContactToUser user contact w)).
Proof.
  intros Hne Hu Hc Hfu Hfc Hsym.
  destruct (addContactToUser_run user contact cu cc w Hne Hu Hc Hfu Hfc)
    as (w' & Hrun & Hl & Hs).
  rewrite Hrun. cbn [snd].
  set (c := contactFor contact (clock w (clock_reads w))) in *.
  assert (Hafter : forall k,
            contactsOf w' k
            = if decide (k = UserID user)
              then Some (set_Contacts (<[UserID contact := c]> (Contacts cu)) cu)
              else if decide (k = UserID contact)
                   then Some (set_In (<[UserID user := true]> (In cc)) cc)
                   else contactsOf w k).
  { intros k. unfold contactsOf. rewrite Hs.
    destruct (decide (k = UserID user)) as [->|Hk1];
      [rewrite lookup_insert_eq; reflexivity|].
    rewrite lookup_insert_ne by congruence.
    destruct (decide (k = UserID contact)) as [->|Hk2];
      [rewrite lookup_insert_eq; reflexivity|].
    rewrite lookup_insert_ne by congruence. reflexivity. }
  intros a b ca cb Ha Hb. rewrite Hafter in Ha, Hb.
  destruct (decide (a = UserID user)) as [->|Ha1].
  - injection Ha as <-. cbn [Contacts set_Contacts].
    destruct (decide (b = UserID user)) as [->|Hb1].
    + injection Hb as <-. cbn [In set_Contacts].
      rewrite lookup_insert_ne by congruence.
      exact (Hsym _ _ cu cu Hu Hu).
    + destruct (decide (b = UserID contact)) as [->|Hb2].
      * injection Hb as <-. cbn [In set_In].
        rewrite !lookup_insert_eq. split; [reflexivity|eauto].
      * rewrite lookup_insert_ne by congruence.
        exact (Hsym _ _ cu cb Hu Hb).
  - assert (Hca : exists ca0, contactsOf w a = Some ca0
                              /\ Contacts ca = Contacts ca0).
    { destruct (decide (a = UserID contact)) as [->|Ha2].
      - injection Ha as <-. exists cc. auto.
      - exists ca. auto. }
    destruct Hca as (ca0 & Hca0 & ->).
    destruct (decide (b = UserID user)) as [->|Hb1].
    + injection Hb as <-. cbn [In set_Contacts].
      exact (Hsym _ _ ca0 cu Hca0 Hu).
    + destruct (decide (b = UserID contact)) as [->|Hb2].
      * injection Hb as <-. cbn [In set_In].
        rewrite lookup_insert_ne by congruence.
        exact (Hsym _ _ ca0 cc Hca0 Hc).
      * exact (Hsym _ _ ca0 cb Hca0 Hb).
Qed.

(** X19. [addContactToUser] is all or nothing: whenever it returns an error,
    every record is as it was and no record is left held. *)
Theorem addContactToUser_atomic (user contact : User) (w w' : World) (e : error) :
  addContactToUser user contact w = (Err e, w') ->
  store w' = store w /\ locks w' = locks w.
Proof.
  unfold addContactToUser, dbind.
  destruct (OpenManyForUpdate _ w) as [res w1] eqn:HO.
  apply OpenManyForUpdate_inv in HO.
  destruct res as [vs|e0| |]; try contradiction.
  2:{ subst w1. intros [= _ <-]. auto. }
  destruct HO as (Hnd & Hfree & _ & ->).
  destruct (mapM as_ContactList vs) as [[|a [|b [|]]]|];
    try (destruct (commit _ vs false _) as [r2 w2] eqn:HC;
         apply (rollback_after_open _ _ _ _ _ Hnd Hfree) in HC;
         destruct r2 as [[]|?| |]; cbn [dfail]; intros [= _ <-]; exact HC).
  unfold deferred_commit. cbn [nowInMS snd].
  destruct (commit _ _ true _) as [? ?]. discriminate.
Qed.

(** *** [addCrossContacts] *)

(** The inner loop over the whole list, for the list of [c1]. *)
Lemma addCrossContacts_inner_spec (c1 : Contact) (cs : list Contact)
    (cl : ContactList) (w : World) :
  store (snd (foldl (addCrossContacts_inner c1) (cl, w) cs)) = store w
  /\ locks (snd (foldl (addCrossContacts_inner c1) (cl, w) cs)) = locks w
  /\ crossLinked (map c_UserID cs) (c_UserID c1) cl
       (fst (foldl (addCrossContacts_inner c1) (cl, w) cs)).
Proof.
  induction cs as [|c2 cs IH] using rev_ind.
  - cbn. split; [reflexivity|]. split; [reflexivity|].
    split; [reflexivity|]. split; [intros b Hb; inversion Hb|]. split; auto.
  - rewrite foldl_snoc, map_app. cbn [map].
    destruct (foldl (addCrossContacts_inner c1) (cl, w) cs) as [cl1 w1].
    cbn [fst snd] in IH. destruct IH as (Hs & Hl & HD & Hin & Hout & Hkeep).
    unfold addCrossContacts_inner.
    destruct (bool_decide_reflect (c_UserID c1 = c_UserID c2)) as [Heq|Hne].
    { cbn [fst snd]. split; [exact Hs|]. split; [exact Hl|].
      split; [exact HD|]. split; [|split; [|exact Hkeep]].
      - intros b Hb Hba. apply elem_of_app in Hb as [Hb|Hb]; [auto|].
        apply list_elem_of_singleton in Hb. congruence.
      - intros b Hb. apply Hout. destruct Hb as [Hb|Hb]; [|auto].
        left. intros Hin'. apply Hb, elem_of_app. auto. }
    destruct (Contacts cl1 !! c_UserID c2) as [c0|] eqn:Hc2;
      unfold crossLinked, set_In, set_Contacts, nowInMS;
      cbn [fst snd store locks Contacts database.In Deletes].
    + split; [exact Hs|]. split; [exact Hl|]. split; [exact HD|].
      split; [|split; [|exact Hkeep]].
      * intros b Hb Hba. destruct (decide (b = c_UserID c2)) as [->|Hb2].
        -- rewrite Hc2, lookup_insert_eq. eauto.
        -- rewrite lookup_insert_ne by congruence. apply Hin; [|exact Hba].
           apply elem_of_app in Hb as [Hb|Hb]; [exact Hb|].
           apply list_elem_of_singleton in Hb. contradiction.
      * intros b Hb.
        assert (Hb2 : b <> c_UserID c2).
        { destruct Hb as [Hb| ->]; [|congruence].
          intros ->. apply Hb, elem_of_app. right. left. }
        rewrite lookup_insert_ne by congruence. apply Hout.
        destruct Hb as [Hb|Hb]; [|auto].
        left. intros Hin'. apply Hb, elem_of_app. auto.
    + split; [exact Hs|]. split; [exact Hl|]. split; [exact HD|].
      split; [|split].
      * intros b Hb Hba. destruct (decide (b = c_UserID c2)) as [->|Hb2].
        -- rewrite !lookup_insert_eq. eauto.
        -- rewrite !lookup_insert_ne by congruence. apply Hin; [|exact Hba].
           apply elem_of_app in Hb as [Hb|Hb]; [exact Hb|].
           apply list_elem_of_singleton in Hb. contradiction.
      * intros b Hb.
        assert (Hb2 : b <> c_UserID c2).
        { destruct Hb as [Hb| ->]; [|congruence].
          intros ->. apply Hb, elem_of_app. right. left. }
        rewrite !lookup_insert_ne by congruence. apply Hout.
        destruct Hb as [Hb|Hb]; [|auto].
        left. intros Hin'. apply Hb, elem_of_app. auto.
      * intros b c Hb. destruct (decide (b = c_UserID c2)) as [->|Hb2].
        -- apply Hkeep in Hb. congruence.
        -- rewrite lookup_insert_ne by congruence. apply Hkeep. exact Hb.
Qed.

(** The outer loop: every opened list comes out cross-linked. *)
Lemma addCrossContacts_outer_spec (cs : list Contact)
    (todo : list (Contact * ContactList)) (w : World) :
  store (snd (addCrossContacts_outer cs todo w)) = store w
  /\ locks (snd (addCrossContacts_outer cs todo w)) = locks w
  /\ Forall2 (fun t cl' =>
                crossLinked (map c_UserID cs) (c_UserID (fst t)) (snd t) cl')
             todo (fst (addCrossContacts_outer cs todo w)).
Proof.
  revert w. induction todo as [|[c1 cl] todo IH]; intros w.
  - cbn. auto.
  - cbn [addCrossContacts_outer].
    destruct (addCrossContacts_inner_spec c1 cs cl w) as (Hs & Hl & Hx).
    destruct (foldl (addCrossContacts_inner c1) (cl, w) cs) as [cl1 w1].
    cbn [fst snd] in *.
    destruct (IH w1) as (Hs' & Hl' & HF).
    destruct (addCrossContacts_outer cs todo w1) as [rest w2].
    cbn [fst snd] in *.
    split; [congruence|]. split; [congruence|].
    constructor; [exact Hx|exact HF].
Qed.

Lemma write_all_lookup (ks : list Z) (vs : list ContactList) s i k v :
  NoDup ks -> ks !! i = Some k -> vs !! i = Some v ->
  write_all (map contactListFile ks) (map VContactList vs) s !! contactListFile k
  = Some (VContactList v).
Proof.
  revert vs i. induction ks as [|x ks IH]; intros vs i Hnd Hk Hv;
    [rewrite lookup_nil in Hk; discriminate|].
  apply NoDup_cons in Hnd as [Hx Hnd].
  destruct vs as [|y vs]; [rewrite lookup_nil in Hv; discriminate|].
  cbn [map write_all]. destruct i as [|i]; cbn in Hk, Hv.
  - injection Hk as ->. injection Hv as ->. apply lookup_insert_eq.
  - assert (x <> k).
    { intros ->. apply Hx. eapply list_elem_of_lookup_2. exact Hk. }
    rewrite lookup_insert_ne by congruence. eapply IH; eassumption.
Qed.

Lemma write_all_other (ks : list Z) (vals : list value) s f :
  (forall k, k ∈ ks -> f <> contactListFile k) ->
  write_all (map contactListFile ks) vals s !! f = s !! f.
Proof.
  revert vals. induction ks as [|x ks IH]; intros vals Hf; [reflexivity|].
  destruct vals as [|v vals]; [reflexivity|]. cbn [map write_all].
  rewrite lookup_insert_ne by (intros Heq; apply (Hf x); [left|congruence]).
  apply IH. intros k Hk. apply Hf. right. exact Hk.
Qed.

(** What [addCrossContacts] does when the users of the list are distinct,
    their contact lists exist and none is held. *)
Lemma addCrossContacts_run (cs : list Contact) (w : World) :
  NoDup (map c_UserID cs) ->
  (forall k, k ∈ map c_UserID cs -> is_Some (contactsOf w k)) ->
  (forall k, k ∈ map c_UserID cs -> contactListFile k ∉ locks w) ->
  exists w',
    addCrossContacts cs w = (Ok tt, w')
    /\ locks w' = locks w
    /\ (forall f, (forall k, k ∈ map c_UserID cs -> f <> contactListFile k) ->
                  store w' !! f = store w !! f)
    /\ (forall a, a ∈ map c_UserID cs ->
        exists ca ca',
          contactsOf w a = Some ca /\ contactsOf w' a = Some ca'
          /\ crossLinked (map c_UserID cs) a ca ca').
Proof.
  intros Hnd Hall Hfree. set (ids := map c_UserID cs) in *.
  assert (Hfiles : map (fun c => contactListFile (c_UserID c)) cs
                   = map contactListFile ids)
    by (unfold ids; rewrite map_map; reflexivity).
  unfold addCrossContacts. rewrite Hfiles.
  rewrite (OpenManyForUpdate_Ok _ (map (fun k => VContactList (contactsOr w k)) ids)).
  2:{ apply NoDup_contactListFiles. exact Hnd. }
  2:{ intros f Hf. apply list_elem_of_fmap in Hf as (k & -> & Hk). auto. }
  2:{ apply mapM_store_contacts. exact Hall. }
  rewrite mapM_as_ContactList.
  set (w1 := log_event _ _).
  destruct (addCrossContacts_outer_spec cs (zip cs (map (contactsOr w) ids)) w1)
    as (Hs2 & Hl2 & HF).
  destruct (addCrossContacts_outer cs (zip cs (map (contactsOr w) ids)) w1)
    as [res w2].
  cbn [fst snd] in *.
  destruct (commit_held (map contactListFile ids) (map VContactList res)
              true w2) as (w3 & HC & Hl3 & _ & Hs3 & _).
  { rewrite Hl2. unfold w1. cbn [locks set_locks log_event].
    apply Forall_forall. intros f Hf.
    apply elem_of_union. left. apply elem_of_list_to_set. exact Hf. }
  rewrite HC. exists w3. split; [reflexivity|].
  split.
  { rewrite Hl3, Hl2. unfold w1. cbn [locks set_locks log_event].
    apply locks_released.
    intros f Hf. apply list_elem_of_fmap in Hf as (k & -> & Hk). auto. }
  split.
  { intros f Hf. rewrite Hs3, Hs2. apply write_all_other. exact Hf. }
  intros a Ha.
  destruct (Hall a Ha) as [ca Hca]. exists ca.
  apply list_elem_of_lookup_1 in Ha as [i Hi].
  assert (Hci : exists c, cs !! i = Some c /\ c_UserID c = a).
  { unfold ids in Hi. rewrite list_lookup_fmap in Hi.
    destruct (cs !! i) as [c|]; [|discriminate].
    injection Hi as <-. eauto. }
  destruct Hci as (c & Hc & Hca').
  assert (Htodo : zip cs (map (contactsOr w) ids) !! i = Some (c, ca)).
  { apply lookup_zip_with_Some. exists c, ca. split; [reflexivity|].
    split; [exact Hc|].
    rewrite list_lookup_fmap, Hi. cbn. unfold contactsOr. rewrite Hca.
    reflexivity. }
  destruct (Forall2_lookup_l _ _ _ _ _ HF Htodo) as (ca' & Hres & Hx).
  cbn [fst snd] in Hx. rewrite Hca' in Hx.
  exists ca'. split; [exact Hca|]. split; [|exact Hx].
  unfold contactsOf. rewrite Hs3.
  rewrite (write_all_lookup ids res _ i a ca' Hnd Hi Hres). reflexivity.
Qed.

(** X20. [addCrossContacts] makes the users of the list contacts of each
    other. When the users are distinct, their contact lists exist and none
    is held, it returns without error and afterwards every user of the list
    has every other user of the list as a contact and in its [In] set; a
    contact that a list already held is kept as it was, not overwritten;
    records other than the contact lists of these users are as they were
    and no record is left held. *)
Theorem addCrossContacts_links (cs : list Contact) (w : World) :
  NoDup (map c_UserID cs) ->
  (forall k, k ∈ map c_UserID cs -> is_Some (contactsOf w k)) ->
  (forall k, k ∈ map c_UserID cs -> contactListFile k ∉ locks w) ->
  exists w',
    addCrossContacts cs w = (Ok tt, w')
    /\ locks w' = locks w
    /\ (forall a b, a ∈ map c_UserID cs -> b ∈ map c_UserID cs -> a <> b ->
        exists ca', contactsOf w' a = Some ca'
                    /\ is_Some (Contacts ca' !! b) /\ In ca' !! b = Some true)
    /\ (forall a ca b c, a ∈ map c_UserID cs ->
        contactsOf w a = Some ca -> Contacts ca !! b = Some c ->
        exists ca', contactsOf w' a = Some ca' /\ Contacts ca' !! b = Some c)
    /\ (forall f, (forall k, k ∈ map c_UserID cs -> f <> contactListFile k) ->
                  store w' !! f = store w !! f).
Proof.
  intros Hnd Hall Hfree.
  destruct (addCrossContacts_run cs w Hnd Hall Hfree)
    as (w' & Hrun & Hl & Hframe & Hlinks).
  exists w'. split; [exact Hrun|]. split; [exact Hl|].
  split; [|split; [|exact Hframe]].
  - intros a b Ha Hb Hab.
    destruct (Hlinks a Ha) as (ca & ca' & _ & Hca' & _ & Hin & _).
    exists ca'. split; [exact Hca'|]. apply Hin; [exact Hb|congruence].
  - intros a ca b c Ha Hca Hb.
    destruct (Hlinks a Ha) as (ca0 & ca' & Hca0 & Hca' & _ & _ & _ & Hkeep).
    exists ca'. split; [exact Hca'|]. apply Hkeep. congruence.
Qed.

(** X21. [addCrossContacts] preserves contact symmetry: under the same
    conditions, when before the call every user A has B as a contact exactly
    if B's list records A in its [In] set, the same holds afterwards. *)
Theorem addCrossContacts_symmetric (cs : list Contact) (w : World) :
  NoDup (map c_UserID cs) ->
  (forall k, k ∈ map c_UserID cs -> is_Some (contactsOf w k)) ->
  (forall k, k ∈ map c_UserID cs -> contactListFile k ∉ locks w) ->
  symmetric w ->
  symmetric (snd (addCrossContacts cs w)).
Proof.
  intros Hnd Hall Hfree Hsym.
  destruct (addCrossContacts_run cs w Hnd Hall Hfree)
    as (w' & Hrun & Hl & Hframe & Hlinks).
  rewrite Hrun. cbn [snd]. set (ids := map c_UserID cs) in *.
  assert (Hout : forall k, k ∉ ids -> contactsOf w' k = contactsOf w k).
  { intros k Hk. unfold contactsOf. rewrite Hframe; [reflexivity|].
    intros k' Hk' [= ->]. contradiction. }
  intros a b ca' cb' Ha Hb.
  destruct (decide (a ∈ ids)) as [Hain|Hain].
  - destruct (Hlinks a Hain) as (ca & ca0 & Hca & Hca0 & _ & Hina & Houta & _).
    rewrite Ha in Hca0. injection Hca0 as <-.
    destruct (decide (b ∈ ids)) as [Hbin|Hbin].
    + destruct (Hlinks b Hbin) as (cb & cb0 & Hcb & Hcb0 & _ & Hinb & Houtb & _).
      rewrite Hb in Hcb0. injection Hcb0 as <-.
      destruct (decide (a = b)) as [->|Hab].
      * destruct (Houta b (or_intror eq_refl)) as [-> _].
        destruct (Houtb b (or_intror eq_refl)) as [_ ->].
        exact (Hsym b b ca cb Hca Hcb).
      * destruct (Hina b Hbin ltac:(congruence)) as [Hc _].
        destruct (Hinb a Hain Hab) as [_ Hi].
        split; auto.
    + rewrite (Hout b Hbin) in Hb.
      destruct (Houta b (or_introl Hbin)) as [-> _].
      exact (Hsym a b ca cb' Hca Hb).
  - rewrite (Hout a Hain) in Ha.
    destruct (decide (b ∈ ids)) as [Hbin|Hbin].
    + destruct (Hlinks b Hbin) as (cb & cb0 & Hcb & Hcb0 & _ & _ & Houtb & _).
      rewrite Hb in Hcb0. injection Hcb0 as <-.
      destruct (Houtb a (or_introl Hain)) as [_ ->].
      exact (Hsym a b ca' cb Ha Hcb).
    + rewrite (Hout b Hbin) in Hb. exact (Hsym a b ca' cb' Ha Hb).
Qed.

Lemma mapM_lookup_is_Some (s : gmap file value) (fs : list file) vs f :
  mapM (fun f => s !! f) fs = Some vs -> f ∈ fs -> is_Some (s !! f).
Proof.
  revert vs. induction fs as [|g fs IH]; intros vs Hm Hf; [inversion Hf|].
  cbn [mapM] in Hm. destruct (s !! g) as [v|] eqn:Hg; [|discriminate].
  cbn in Hm. destruct (mapM (fun f => s !! f) fs) as [vs'|]; [|discriminate].
  apply elem_of_cons in Hf as [->|Hf]; [rewrite Hg; eauto|].
  eapply IH; [reflexivity|exact Hf].
Qed.

(** X22. [addCrossContacts] returns no error, whatever the store holds: the
    failure to open the contact lists is logged only. When the contact list
    of a user of the list is missing or held, the call changes nothing. *)
Theorem addCrossContacts_quiet (cs : list Contact) (w : World) :
  fst (addCrossContacts cs w) = Ok tt
  /\ ((exists k, k ∈ map c_UserID cs
                 /\ (store w !! contactListFile k = None
                     \/ contactListFile k ∈ locks w)) ->
      snd (addCrossContacts cs w) = w).
Proof.
  unfold addCrossContacts.
  destruct (OpenManyForUpdate _ w) as [res w1] eqn:HO.
  apply OpenManyForUpdate_inv in HO.
  destruct res as [vs|e| |]; try contradiction.
  2:{ subst w1. auto. }
  destruct HO as (Hnd & Hfree & Hvs & ->).
  split.
  - destruct (mapM as_ContactList vs) as [cls|].
    + destruct (addCrossContacts_outer _ _ _) as [res w2].
      destruct (commit _ _ true w2) as [? ?]. reflexivity.
    + destruct (commit _ _ false _) as [? ?]. reflexivity.
  - intros (k & Hk & Hbad). exfalso.
    assert (Hf : contactListFile k ∈ map (fun c => contactListFile (c_UserID c)) cs).
    { apply list_elem_of_fmap in Hk as (c & -> & Hc).
      apply list_elem_of_fmap. exists c. auto. }
    destruct Hbad as [Hnone|Hheld].
    + destruct (mapM_lookup_is_Some _ _ _ _ Hvs Hf) as [v Hv]. congruence.
    + exact (Hfree _ Hf Hheld).
Qed.

(** *** [removeAllContacts] *)

(** X23. [removeAllContacts] is all or nothing: whenever it returns an error
    (the user's list cannot be read, or the lists of the user and the peers
    cannot all be opened), every record is as it was and no record is left
    held. *)
Theorem removeAllContacts_atomic (range1 range2 : gset Z -> list Z) (user : User)
    (w w' : World) (e : error) :
  removeAllContacts range1 range2 user w = (Err e, w') ->
  store w' = store w /\ locks w' = locks w.
Proof.
  unfold removeAllContacts, dbind, ReadDataFile.
  destruct (store w !! contactListFile (UserID user)) as [v|];
    [|intros [= _ <-]; auto].
  destruct (as_ContactList v) as [contacts|];
    [|cbn [dfail]; intros [= _ <-]; auto].
  set (w0 := log_event _ w).
  set (files := map contactListFile _).
  destruct (OpenManyForUpdate files w0) as [res w1] eqn:HO.
  apply OpenManyForUpdate_inv in HO.
  destruct res as [vs|e0| |]; try contradiction.
  2:{ subst w1. intros [= _ <-]. auto. }
  destruct HO as (Hnd & Hfree & _ & ->).
  destruct (mapM as_ContactList vs) as [cls|].
  2:{ destruct (commit files vs false _) as [r2 w2] eqn:HC.
      apply (rollback_after_open _ _ _ _ _ Hnd Hfree) in HC.
      destruct r2 as [[]|?| |]; cbn [dfail]; intros [= _ <-]; exact HC. }
  unfold deferred_commit.
  match goal with
  | |- context [foldl ?f (?uc, ?x) ?l] =>
      pose proof (removeAllContacts_loop_world (UserID user) l uc x) as Hw;
      destruct (foldl f (uc, x) l) as [uc' w3]
  end.
  cbn [snd] in Hw. destruct Hw as (_ & Hl3 & _).
  match goal with
  | |- context [commit files ?vs' true w3] =>
      destruct (commit_held files vs' true w3) as (w4 & HC & _)
  end.
  { rewrite Hl3. cbn [locks set_locks log_event]. apply Forall_forall.
    intros f Hf. apply elem_of_union. left. apply elem_of_list_to_set. exact Hf. }
  rewrite HC. destruct (commit files _ false w4) as [? ?]. discriminate.
Qed.

End ContactsMore.

(** *** The sample contact graph, again *)

Lemma sample_contacts_lookup k :
  contactsOf (sample_world sample_contacts []) k
  = if decide (k = 1) then Some sample_alice_contacts
    else if decide (k = 2)
         then Some {| database.Contacts := ∅; database.In := {[ 1 := true ]};
                      database.Deletes := [] |}
         else if decide (k = 3)
              then Some {| database.Contacts := {[ 1 := sample_contact 1 "alice" 1000 ]};
                           database.In := ∅; database.Deletes := [] |}
              else None.
Proof.
  unfold contactsOf, sample_world, sample_contacts. cbn [database.store].
  destruct (decide (k = 1)) as [->|H1]; [reflexivity|].
  rewrite lookup_insert_ne by congruence.
  destruct (decide (k = 2)) as [->|H2]; [reflexivity|].
  rewrite lookup_insert_ne by congruence.
  destruct (decide (k = 3)) as [->|H3]; [reflexivity|].
  rewrite lookup_singleton_ne by congruence. reflexivity.
Qed.

Lemma sample_contacts_symmetric : symmetric (sample_world sample_contacts []).
Proof.
  intros a b ca cb Ha Hb. rewrite sample_contacts_lookup in Ha, Hb.
  repeat match goal with
         | H : context [decide (?x = ?n)] |- _ =>
             destruct (decide (x = n)); [subst x|]
         end;
    try discriminate;
    injection Ha as <-; injection Hb as <-;
    cbn [database.Contacts database.In sample_alice_contacts];
    (split; [intros [c Hc]|intros Hc]); 
    repeat first
      [ discriminate
      | rewrite lookup_empty in Hc
      | rewrite lookup_singleton_ne in Hc by discriminate
      | rewrite lookup_singleton_eq
      | rewrite lookup_singleton_eq in Hc
      | reflexivity
      | (eexists; reflexivity) ].
Qed.

Lemma sample_contacts_free (f : database.file) :
  f ∉ database.locks (sample_world sample_contacts []).
Proof. apply not_elem_of_empty. Qed.

(** User 1 adds user 3 on the sample graph: 1 then has 3 as a contact and 3
    records 1 in its [In] set. *)
Lemma addContactToUser_link_witness :
  exists w' c,
    database.addContactToUser sample_alice sample_carol
      (sample_world sample_contacts []) = (Ok c, w')
    /\ (exists cu', contactsOf w' 1 = Some cu'
                    /\ database.Contacts cu' !! 3 = Some c)
    /\ (exists cc', contactsOf w' 3 = Some cc'
                    /\ database.In cc' !! 1 = Some true).
Proof.
  destruct (addContactToUser_link sample_alice sample_carol
              sample_alice_contacts
              {| database.Contacts := {[ 1 := sample_contact 1 "alice" 1000 ]};
                 database.In := ∅; database.Deletes := [] |}
              (sample_world sample_contacts []))
    as (w' & c & Hrun & _ & Hu & Hc & _);
    [discriminate|reflexivity|reflexivity
    |apply sample_contacts_free|apply sample_contacts_free|].
  exists w', c. split; [exact Hrun|]. split.
  - eexists. split; [exact Hu|]. apply lookup_insert_eq.
  - eexists. split; [exact Hc|]. apply lookup_insert_eq.
Defined.

(** The sample graph is symmetric, and still is after user 1 adds user 3. *)
Lemma addContactToUser_symmetric_witness :
  symmetric (snd (database.addContactToUser sample_alice sample_carol
                    (sample_world sample_contacts []))).
Proof.
  apply (addContactToUser_symmetric sample_alice sample_carol
           sample_alice_contacts
           {| database.Contacts := {[ 1 := sample_contact 1 "alice" 1000 ]};
              database.In := ∅; database.Deletes := [] |}).
  - discriminate.
  - reflexivity.
  - reflexivity.
  - apply sample_contacts_free.
  - apply sample_contacts_free.
  - exact sample_contacts_symmetric.
Defined.

(** User 1 adds a user that has no contact list: nothing changes. *)
Lemma addContactToUser_atomic_witness :
  let run := database.addContactToUser sample_alice (sample_user "dave")
               (sample_world sample_contacts []) in
  fst run = Err ErrNotExist
  /\ database.store (snd run) = sample_contacts
  /\ database.locks (snd run) = ∅.
Proof.
  intros run.
  assert (Hrun : run = (Err ErrNotExist, snd run)).
  { rewrite (surjective_pairing run) at 1. f_equal; vm_compute; reflexivity. }
  split; [rewrite Hrun; reflexivity|].
  exact (addContactToUser_atomic sample_alice (sample_user "dave")
           (sample_world sample_contacts []) (snd run) ErrNotExist Hrun).
Defined.

Lemma sample_three_exist k :
  k ∈ map database.c_UserID sample_three ->
  is_Some (contactsOf (sample_world sample_contacts []) k).
Proof.
  intros Hk. rewrite sample_contacts_lookup.
  repeat (apply elem_of_cons in Hk as [->|Hk]; [eexists; reflexivity|]).
  inversion Hk.
Qed.

Lemma sample_three_NoDup : NoDup (map database.c_UserID sample_three).
Proof.
  cbn. repeat (apply NoDup_cons; split; [|]).
  - intros Hin. repeat (apply elem_of_cons in Hin as [Hin|Hin]; [discriminate|]).
    inversion Hin.
  - intros Hin. repeat (apply elem_of_cons in Hin as [Hin|Hin]; [discriminate|]).
    inversion Hin.
  - intros Hin. inversion Hin.
  - apply NoDup_nil_2.
Qed.

(** The three users of the sample graph cross-linked: user 2, who had no
    contact, then has user 3 as a contact and in its [In] set. *)
Lemma addCrossContacts_links_witness :
  exists w' c2,
    database.addCrossContacts sample_three (sample_world sample_contacts [])
    = (Ok tt, w')
    /\ contactsOf w' 2 = Some c2
    /\ is_Some (database.Contacts c2 !! 3)
    /\ database.In c2 !! 3 = Some true.
Proof.
  destruct (addCrossContacts_links sample_three (sample_world sample_contacts [])
              sample_three_NoDup sample_three_exist)
    as (w' & Hrun & _ & Hlinks & _);
    [intros k _; apply sample_contacts_free|].
  destruct (Hlinks 2 3) as (c2 & Hc2 & Hc & Hi).
  - right. left.
  - right. right. left.
  - discriminate.
  - exists w', c2. auto.
Defined.

(** The sample graph is still symmetric after the three users are
    cross-linked. *)
Lemma addCrossContacts_symmetric_witness :
  symmetric (snd (database.addCrossContacts sample_three
                    (sample_world sample_contacts []))).
Proof.
  apply (addCrossContacts_symmetric sample_three (sample_world sample_contacts [])
           sample_three_NoDup sample_three_exist).
  - intros k _. apply sample_contacts_free.
  - exact sample_contacts_symmetric.
Defined.

(** [removeAllContacts] for a user that has no contact list: nothing
    changes. *)
Lemma removeAllContacts_atomic_witness :
  let run := database.removeAllContacts elements elements (sample_user "dave")
               (sample_world sample_contacts []) in
  fst run = Err ErrNotExist
  /\ database.store (snd run) = sample_contacts
  /\ database.locks (snd run) = ∅.
Proof.
  intros run.
  assert (Hrun : run = (Err ErrNotExist, snd run)).
  { rewrite (surjective_pairing run) at 1. f_equal; vm_compute; reflexivity. }
  split; [rewrite Hrun; reflexivity|].
  exact (removeAllContacts_atomic elements elements (sample_user "dave")
           (sample_world sample_contacts []) (snd run) ErrNotExist Hrun).
Defined.

(** ** Numbers in request parameters: [parseInt] *)

(** One turn of the loop of [ParseUint] on a decimal digit that does not
    overflow. *)
Lemma ParseUint_loop_digit (b : byte) (k n : Z) (cs : list byte) :
  int_of_byte b = 48 + k -> 0 <= k <= 9 -> 0 <= n -> n * 10 + k < 2 ^ 64 ->
  strconv.ParseUint_loop (b :: cs) n = strconv.ParseUint_loop cs (n * 10 + k).
Proof.
  intros Hb Hk Hn Hlt. cbn [strconv.ParseUint_loop]. rewrite Hb.
  unfold strconv.digit.
  replace ((48 <=? 48 + k) && (48 + k <=? 57)) with true
    by (symmetry; rewrite andb_true_iff, !Z.leb_le; lia).
  replace (48 + k - 48) with k by lia.
  destruct (Z.leb_spec 10 k); [lia|].
  unfold strconv.maxUint64.
  change ((2 ^ 64 - 1) / 10 + 1) with 1844674407370955162.
  destruct (Z.leb_spec 1844674407370955162 n); [lia|].
  rewrite Z.mod_small by lia.
  destruct (Z.ltb_spec (n * 10 + k) (n * 10)); [lia|].
  destruct (Z.ltb_spec (2 ^ 64 - 1) (n * 10 + k)); [lia|].
  reflexivity.
Qed.

(** The digits of a decimal number, read by the loop from a positive
    value. *)
Lemma ParseUint_loop_acc (d : Decimal.uint) (acc : positive) :
  Z.pos acc <= Z.pos (Pos.of_uint_acc d acc)
  /\ (Z.pos (Pos.of_uint_acc d acc) < 2 ^ 64 ->
      strconv.ParseUint_loop (list_byte_of_string (NilEmpty.string_of_uint d))
        (Z.pos acc)
      = (Z.pos (Pos.of_uint_acc d acc), None)).
Proof.
  revert acc. induction d as [|d IH|d IH|d IH|d IH|d IH|d IH|d IH|d IH|d IH|d IH];
    intros acc; [split; [cbn; lia|reflexivity]|..];
    cbn [Pos.of_uint_acc NilEmpty.string_of_uint];
    unfold list_byte_of_string; cbn [list_ascii_of_string map];
    fold (list_byte_of_string (NilEmpty.string_of_uint d));
    match goal with
    | |- context [Pos.of_uint_acc d ?a] =>
        destruct (IH a) as [Hle Hrun];
        assert (Ha : Z.pos a = Z.pos acc * 10 + (Z.pos a - Z.pos acc * 10))
          by lia;
        assert (Hk : 0 <= Z.pos a - Z.pos acc * 10 <= 9) by lia;
        (split; [lia|]); intros Hlt;
        rewrite (ParseUint_loop_digit _ (Z.pos a - Z.pos acc * 10));
        [rewrite <- Ha; apply Hrun; exact Hlt
        |match goal with
         | |- ?l = _ => let v := eval vm_compute in l in change l with v
         end; lia
        |exact Hk|lia|lia]
    end.
Qed.

(** The digits of a decimal number, read by the loop from zero. *)
Lemma ParseUint_loop_uint (d : Decimal.uint) :
  Z.of_N (Pos.of_uint d) < 2 ^ 64 ->
  strconv.ParseUint_loop (list_byte_of_string (NilEmpty.string_of_uint d)) 0
  = (Z.of_N (Pos.of_uint d), None).
Proof.
  induction d as [|d IH|d IH|d IH|d IH|d IH|d IH|d IH|d IH|d IH|d IH];
    [reflexivity|..];
    cbn [Pos.of_uint NilEmpty.string_of_uint];
    unfold list_byte_of_string; cbn [list_ascii_of_string map];
    fold (list_byte_of_string (NilEmpty.string_of_uint d)); intros Hlt.
  1:{ rewrite (ParseUint_loop_digit _ 0) by (reflexivity || lia).
      apply IH. exact Hlt. }
  all: match goal with
       | |- context [Pos.of_uint_acc ?d' ?a] =>
           destruct (ParseUint_loop_acc d' a) as [Hle Hrun];
           rewrite (ParseUint_loop_digit _ (Z.pos a));
           [apply Hrun; exact Hlt
           |match goal with
            | |- ?l = _ => let v := eval vm_compute in l in change l with v
            end; lia
           |lia|lia|cbn in *; lia]
       end.
Qed.

(** The value the loop returns without error is a uint64. *)
Lemma ParseUint_loop_range (cs : list byte) (n : Z) :
  0 <= n < 2 ^ 64 ->
  snd (strconv.ParseUint_loop cs n) = None ->
  0 <= fst (strconv.ParseUint_loop cs n) < 2 ^ 64.
Proof.
  revert n. induction cs as [|c cs IH]; intros n Hn; [cbn; auto|].
  cbn [strconv.ParseUint_loop].
  destruct (strconv.digit (int_of_byte c)) as [d|]; [|discriminate].
  destruct (10 <=? d); [discriminate|].
  destruct (_ <=? n); [discriminate|].
  destruct (_ || _); [discriminate|].
  apply IH. apply Z.mod_pos_bound. lia.
Qed.

(** A byte that is not a decimal digit makes the loop return an error. *)
Lemma ParseUint_loop_nondigit (cs : list byte) (n : Z) (b : byte) :
  b ∈ cs -> ~ (48 <= int_of_byte b <= 57) ->
  snd (strconv.ParseUint_loop cs n) <> None.
Proof.
  revert n. induction cs as [|c cs IH]; intros n Hb Hnd; [inversion Hb|].
  cbn [strconv.ParseUint_loop].
  destruct (strconv.digit (int_of_byte c)) as [d|] eqn:Hd; [|discriminate].
  destruct (Z.leb_spec 10 d) as [H10|H10]; [discriminate|].
  destruct (_ <=? n); [discriminate|].
  destruct (_ || _); [discriminate|].
  apply elem_of_cons in Hb as [->|Hb]; [|apply IH; assumption].
  exfalso. revert Hd. unfold strconv.digit.
  destruct (Z.leb_spec 48 (int_of_byte c)); cbn [andb].
  - destruct (Z.leb_spec (int_of_byte c) 57); [lia|].
    destruct (_ && _) eqn:E; [|discriminate].
    apply andb_true_iff in E as [E _]. apply Z.leb_le in E.
    intros [= <-]. lia.
  - destruct (_ && _) eqn:E; [|discriminate].
    apply andb_true_iff in E as [E _]. apply Z.leb_le in E.
    intros [= <-]. lia.
Qed.

(** The string of a decimal number that is not the empty one starts with a
    digit, not with a sign. *)
Lemma string_of_uint_head (d : Decimal.uint) :
  d <> Decimal.Nil ->
  exists c rest,
    list_byte_of_string (NilEmpty.string_of_uint d) = c :: rest
    /\ (int_of_byte c =? 43) = false /\ (int_of_byte c =? 45) = false.
Proof.
  intros Hd. destruct d; [contradiction|..];
    cbn [NilEmpty.string_of_uint]; unfold list_byte_of_string;
    cbn [list_ascii_of_string map]; eexists _, _;
    (split; [reflexivity|split; vm_compute; reflexivity]).
Qed.

Lemma string_of_pos (p : positive) :
  NilZero.string_of_uint (Pos.to_uint p) = NilEmpty.string_of_uint (Pos.to_uint p).
Proof.
  pose proof (DecimalPos.Unsigned.to_uint_nonnil p) as Hn.
  destruct (Pos.to_uint p); [contradiction|..]; reflexivity.
Qed.

(** [ParseUint] on the decimal string of a positive number below 2^64. *)
Lemma ParseUint_pos (p : positive) :
  Z.pos p < 2 ^ 64 ->
  strconv.ParseUint (list_byte_of_string (NilEmpty.string_of_uint (Pos.to_uint p)))
  = (Z.pos p, None).
Proof.
  intros Hp.
  destruct (string_of_uint_head (Pos.to_uint p)
              (DecimalPos.Unsigned.to_uint_nonnil p)) as (c & rest & Hs & _).
  unfold strconv.ParseUint. rewrite Hs, <- Hs.
  rewrite ParseUint_loop_uint; rewrite DecimalPos.Unsigned.of_to;
    [reflexivity|exact Hp].
Qed.

(** X24. [parseInt] reads back what [%d] prints: for every [n] that fits in
    an int64, [parseInt] of the decimal string of [n] returns [n], whatever
    the default. *)
Theorem parseInt_show_Z (n def : Z) :
  - 2 ^ 63 <= n < 2 ^ 63 -> server.parseInt (show_Z n) def = n.
Proof.
  intros Hn. unfold server.parseInt, show_Z.
  destruct n as [|p|p]; cbn [Z.to_int NilZero.string_of_int].
  - reflexivity.
  - rewrite string_of_pos.
    destruct (string_of_uint_head (Pos.to_uint p)
                (DecimalPos.Unsigned.to_uint_nonnil p)) as (c & rest & Hs & H43 & H45).
    unfold strconv.ParseInt. rewrite Hs, H43, H45, <- Hs.
    rewrite ParseUint_pos by lia.
    cbn [negb andb].
    destruct (Z.leb_spec (2 ^ 63) (Z.pos p)); [lia|]. reflexivity.
  - rewrite string_of_pos.
    unfold list_byte_of_string. cbn [list_ascii_of_string map].
    fold (list_byte_of_string (NilEmpty.string_of_uint (Pos.to_uint p))).
    unfold strconv.ParseInt.
    change (int_of_byte (byte_of_ascii "-") =? 43) with false.
    change (int_of_byte (byte_of_ascii "-") =? 45) with true.
    cbn match.
    rewrite ParseUint_pos by lia.
    cbn [negb andb].
    destruct (Z.ltb_spec (2 ^ 63) (Z.pos p)); [lia|]. reflexivity.
Qed.

(** Whatever the string, [parseInt] returns the default or a number that
    fits in an int64. *)
Lemma parseInt_in_range (s : string) (def : Z) :
  server.parseInt s def = def \/ - 2 ^ 63 <= server.parseInt s def < 2 ^ 63.
Proof.
  unfold server.parseInt, strconv.ParseInt.
  destruct (list_byte_of_string s) as [|c rest]; [left; reflexivity|].
  assert (Hgen : forall neg cs,
            let r := match strconv.ParseUint cs with
                     | (_, Some strconv.ErrSyntax) => (0, Some strconv.ErrSyntax)
                     | (un, _) =>
                         if negb neg && (2 ^ 63 <=? un)
                         then (2 ^ 63 - 1, Some strconv.ErrRange)
                         else if neg && (2 ^ 63 <? un)
                              then (- 2 ^ 63, Some strconv.ErrRange)
                              else (if neg then - un else un, None)
                     end in
            match r with (v, None) => v | (_, Some _) => def end = def
            \/ - 2 ^ 63 <= match r with (v, None) => v | (_, Some _) => def end
               < 2 ^ 63).
  { intros neg cs. cbv zeta.
    destruct (strconv.ParseUint cs) as [un [[]|]] eqn:HP; [left; reflexivity| |].
    - destruct neg; cbn [negb andb].
      + destruct (Z.ltb_spec (2 ^ 63) un); [left; reflexivity|].
        left. exfalso. revert HP. unfold strconv.ParseUint.
        destruct cs as [|c0 cs]; [discriminate|].
        generalize 0 at 1. generalize (c0 :: cs). clear - H.
        induction l as [|c cs IH]; intros n; cbn [strconv.ParseUint_loop];
          [discriminate|].
        destruct (strconv.digit (int_of_byte c)); [|discriminate].
        destruct (10 <=? z); [discriminate|].
        destruct (_ <=? n);
          [intros [= <-]; unfold strconv.maxUint64 in H; lia|].
        destruct (_ || _); [intros [= <-]; unfold strconv.maxUint64 in H; lia|].
        apply IH.
      + destruct (Z.leb_spec (2 ^ 63) un); left; [reflexivity|].
        exfalso. revert HP. unfold strconv.ParseUint.
        destruct cs as [|c0 cs]; [discriminate|].
        generalize 0 at 1. generalize (c0 :: cs). clear - H.
        induction l as [|c cs IH]; intros n; cbn [strconv.ParseUint_loop];
          [discriminate|].
        destruct (strconv.digit (int_of_byte c)); [|discriminate].
        destruct (10 <=? z); [discriminate|].
        destruct (_ <=? n);
          [intros [= <-]; unfold strconv.maxUint64 in H; lia|].
        destruct (_ || _); [intros [= <-]; unfold strconv.maxUint64 in H; lia|].
        apply IH.
    - assert (Hr : 0 <= un < 2 ^ 64).
      { pose proof (ParseUint_loop_range cs 0 ltac:(lia)) as Hr.
        unfold strconv.ParseUint in HP. destruct cs as [|c0 cs]; [discriminate|].
        rewrite HP in Hr. apply Hr. reflexivity. }
      destruct neg; cbn [negb andb].
      + destruct (Z.ltb_spec (2 ^ 63) un); [left; reflexivity|right; lia].
      + destruct (Z.leb_spec (2 ^ 63) un); [left; reflexivity|right; lia]. }
  destruct (int_of_byte c =? 43); [apply (Hgen false)|].
  destruct (int_of_byte c =? 45); [apply (Hgen true)|apply (Hgen false)].
Qed.

(** X25. [parseInt] returns the default on everything that is not an
    optional sign followed by decimal digits: the empty string, a lone sign,
    a string with a byte after the first that is not a decimal digit, and a
    string whose first byte is neither a sign nor a decimal digit. And
    whatever the string, it returns the default or a number that fits in an
    int64. *)
Theorem parseInt_default (s : string) (def : Z) :
  (s = ""%string \/ s = "+"%string \/ s = "-"%string -> server.parseInt s def = def)
  /\ (forall b, b ∈ drop 1 (list_byte_of_string s) ->
                ~ (48 <= int_of_byte b <= 57) -> server.parseInt s def = def)
  /\ (forall b rest, list_byte_of_string s = b :: rest ->
                     ~ (48 <= int_of_byte b <= 57) ->
                     int_of_byte b <> 43 -> int_of_byte b <> 45 ->
                     server.parseInt s def = def)
  /\ (server.parseInt s def = def
      \/ - 2 ^ 63 <= server.parseInt s def < 2 ^ 63).
Proof.
  assert (Hloop : forall cs b, b ∈ cs -> ~ (48 <= int_of_byte b <= 57) ->
            snd (strconv.ParseUint cs) <> None).
  { intros cs b Hb Hnd. unfold strconv.ParseUint.
    destruct cs as [|c cs]; [discriminate|].
    exact (ParseUint_loop_nondigit _ 0 b Hb Hnd). }
  assert (Hint : forall neg cs,
            snd (strconv.ParseUint cs) <> None ->
            match (match strconv.ParseUint cs with
                   | (_, Some strconv.ErrSyntax) => (0, Some strconv.ErrSyntax)
                   | (un, _) =>
                       if negb neg && (2 ^ 63 <=? un)
                       then (2 ^ 63 - 1, Some strconv.ErrRange)
                       else if neg && (2 ^ 63 <? un)
                            then (- 2 ^ 63, Some strconv.ErrRange)
                            else (if neg then - un else un, None)
                   end) with
            | (v, None) => v
            | (_, Some _) => def
            end = def).
  { intros neg cs Herr.
    destruct (strconv.ParseUint cs) as [un [[]|]] eqn:HP; cbn [snd] in Herr;
      [reflexivity| |contradiction].
    assert (Hun : un = strconv.maxUint64).
    { revert HP. unfold strconv.ParseUint. destruct cs as [|c cs]; [discriminate|].
      generalize 0 at 1. generalize (c :: cs). clear.
      induction l as [|c cs IH]; intros n; cbn [strconv.ParseUint_loop];
        [discriminate|].
      destruct (strconv.digit (int_of_byte c)); [|discriminate].
      destruct (10 <=? z); [discriminate|].
      destruct (_ <=? n); [intros [= <-]; reflexivity|].
      destruct (_ || _); [intros [= <-]; reflexivity|]. apply IH. }
    subst un. destruct neg; reflexivity. }
  split; [|split; [|split; [|apply parseInt_in_range]]].
  - intros [->|[->| ->]]; reflexivity.
  - intros b Hb Hnd. unfold server.parseInt, strconv.ParseInt.
    destruct (list_byte_of_string s) as [|c rest]; [reflexivity|].
    cbn [drop] in Hb.
    destruct (int_of_byte c =? 43); [apply Hint; eapply Hloop; eassumption|].
    destruct (int_of_byte c =? 45); [apply Hint; eapply Hloop; eassumption|].
    apply Hint. eapply Hloop; [right; exact Hb|exact Hnd].
  - intros b rest Hs Hnd H43 H45. unfold server.parseInt, strconv.ParseInt.
    rewrite Hs.
    rewrite (proj2 (Z.eqb_neq _ _) H43), (proj2 (Z.eqb_neq _ _) H45).
    apply Hint. eapply Hloop; [left|exact Hnd].
Qed.

(** [parseInt] on the decimal string of 1000007. *)
Lemma parseInt_show_Z_witness : server.parseInt (show_Z 1000007) 0 = 1000007.
Proof. apply parseInt_show_Z. lia. Defined.

(** ** Decimal strings *)

(** The value of a digit string under an accumulator, and its bound. *)
Lemma uint_value_acc (d : Decimal.uint) (acc : positive) :
  Z.pos (Pos.of_uint_acc d acc)
  = Z.pos acc * 10 ^ Z.of_nat (Decimal.nb_digits d) + uint_value d
  /\ 0 <= uint_value d < 10 ^ Z.of_nat (Decimal.nb_digits d).
Proof.
  unfold uint_value. revert acc.
  induction d as [|d IH|d IH|d IH|d IH|d IH|d IH|d IH|d IH|d IH|d IH];
    intros acc; [cbn; lia|..];
    cbn [Pos.of_uint_acc Pos.of_uint Decimal.nb_digits];
    rewrite Nat2Z.inj_succ, Z.pow_succ_r by lia;
    match goal with
    | |- context [Pos.of_uint_acc d ?a] => destruct (IH a) as [Ha Hb]
    end;
    try match goal with
    | |- context [N.pos (Pos.of_uint_acc d ?k)] =>
        destruct (IH k) as [Hk _]; cbn [Z.of_N]; rewrite Hk
    end;
    rewrite Ha; split; lia.
Qed.

(** Two digit strings of the same length compare as their values do. *)
Lemma uint_compare (d1 d2 : Decimal.uint) :
  Decimal.nb_digits d1 = Decimal.nb_digits d2 ->
  String.compare (NilEmpty.string_of_uint d1) (NilEmpty.string_of_uint d2)
  = Z.compare (uint_value d1) (uint_value d2).
Proof.
  revert d2.
  induction d1 as [|d1 IH|d1 IH|d1 IH|d1 IH|d1 IH|d1 IH|d1 IH|d1 IH|d1 IH|d1 IH];
    intros [|d2|d2|d2|d2|d2|d2|d2|d2|d2|d2]; cbn [Decimal.nb_digits];
    try discriminate; try reflexivity; intros [= Hn];
    specialize (IH d2 Hn);
    pose proof (proj2 (uint_value_acc d1 1)) as Hb1;
    pose proof (proj2 (uint_value_acc d2 1)) as Hb2;
    cbn [NilEmpty.string_of_uint String.compare];
    match goal with
    | |- context [Ascii.compare ?a ?b] =>
        let v := eval vm_compute in (Ascii.compare a b) in
        change (Ascii.compare a b) with v
    end;
    cbv beta iota;
    unfold uint_value in *; cbn [Pos.of_uint Z.of_N];
    repeat match goal with
           | |- context [Z.pos (Pos.of_uint_acc ?d ?a)] =>
               let E := fresh "E" in
               pose proof (proj1 (uint_value_acc d a)) as E;
               unfold uint_value in E; rewrite E; clear E
           end;
    rewrite <- ?Hn in *;
    first
      [ rewrite Z.add_compare_mono_l; exact IH
      | exact IH
      | symmetry; apply Z.compare_lt_iff; lia
      | symmetry; apply Z.compare_gt_iff; lia ].
Qed.

Lemma string_of_uint_length (d : Decimal.uint) :
  String.length (NilEmpty.string_of_uint d) = Decimal.nb_digits d.
Proof. induction d; cbn; congruence. Qed.

(** The decimal string of a number that is not negative is a digit string
    of that value. *)
Lemma show_Z_nonneg (n : Z) :
  0 <= n ->
  exists d, show_Z n = NilEmpty.string_of_uint d /\ uint_value d = n.
Proof.
  intros Hn. destruct n as [|p|p]; [| |lia].
  - exists (Decimal.D0 Decimal.Nil). split; reflexivity.
  - exists (Pos.to_uint p). unfold show_Z. cbn [Z.to_int NilZero.string_of_int].
    split; [apply string_of_pos|].
    unfold uint_value. rewrite DecimalPos.Unsigned.of_to. reflexivity.
Qed.

(** Decimal strings of the same length compare as the numbers do. *)
Lemma show_Z_compare (n m : Z) :
  0 <= n -> 0 <= m ->
  String.length (show_Z n) = String.length (show_Z m) ->
  String.compare (show_Z n) (show_Z m) = Z.compare n m.
Proof.
  intros Hn Hm Hlen.
  destruct (show_Z_nonneg n Hn) as (d1 & Hs1 & Hv1).
  destruct (show_Z_nonneg m Hm) as (d2 & Hs2 & Hv2).
  rewrite Hs1, Hs2 in *. rewrite !string_of_uint_length in Hlen.
  rewrite (uint_compare d1 d2 Hlen), Hv1, Hv2. reflexivity.
Qed.

(** The comparison of [ContactUpdates] on two contacts whose dates are not
    negative and have as many digits: by date, then by email. *)
Lemma ContactUpdates_less_updateOf (a b : database.Contact) :
  0 <= database.c_DateModified a -> 0 <= database.c_DateModified b ->
  String.length (database.number (database.c_DateModified a))
  = String.length (database.number (database.c_DateModified b)) ->
  database.ContactUpdates_less (updateOf a) (updateOf b)
  = if bool_decide (database.c_DateModified a = database.c_DateModified b)
    then String.ltb (database.c_Email a) (database.c_Email b)
    else database.c_DateModified a <? database.c_DateModified b.
Proof.
  intros Ha Hb Hlen.
  assert (Hrefl : forall s : string, String.compare s s = Eq).
  { intros s. pose proof (String.compare_antisym s s) as Hanti.
    destruct (String.compare s s); [reflexivity|discriminate|discriminate]. }
  unfold database.ContactUpdates_less, updateOf, database.number in *.
  cbn [database.s_DateModified database.s_Email].
  pose proof (show_Z_compare _ _ Ha Hb Hlen) as Hc.
  destruct (bool_decide_reflect (database.c_DateModified a = database.c_DateModified b))
    as [Heq|Hne].
  - rewrite Heq. rewrite bool_decide_eq_true_2 by reflexivity. reflexivity.
  - rewrite bool_decide_eq_false_2.
    + unfold String.ltb. rewrite Hc. unfold Z.ltb. reflexivity.
    + intros Hs. apply Hne, Z.compare_eq. rewrite <- Hc, Hs. apply Hrefl.
Qed.

Lemma Sorted_map_weaken {A B} (f : A -> B) (R : B -> B -> Prop)
    (R' : A -> A -> Prop) (P : A -> Prop) (cs : list A) :
  Forall P cs ->
  (forall a b, P a -> P b -> R (f a) (f b) -> R' a b) ->
  Sorted R (map f cs) -> Sorted R' cs.
Proof.
  intros HP Himp. induction cs as [|a cs IH]; [constructor|].
  apply Forall_cons in HP as [Ha HP]. cbn [map]. intros Hs.
  apply Sorted_inv in Hs as [Hs Hhd]. constructor; [apply IH; assumption|].
  destruct cs as [|b cs]; [constructor|].
  apply Forall_cons in HP as [Hb _]. cbn [map] in Hhd.
  apply HdRel_inv in Hhd. constructor. apply Himp; assumption.
Qed.

(** ** Contact updates: what is returned, and in what order *)

Section ContactUpdatesMore.
  Import database.

(** Ranging over the keys of a map and looking each one up visits the
    values of the map, each once. *)
Lemma ranged_map_to_list (range : gset Z -> list Z) (cl : ContactList) :
  range_order range ->
  ranged (range (dom (Contacts cl))) cl ≡ₚ map snd (map_to_list (Contacts cl)).
Proof.
  intros Hr. unfold ranged.
  assert (Hkeys : range (dom (Contacts cl)) ≡ₚ map fst (map_to_list (Contacts cl))).
  { rewrite (Hr (dom (Contacts cl))).
    apply NoDup_Permutation.
    - apply NoDup_elements.
    - apply NoDup_fst_map_to_list.
    - intros k. rewrite elem_of_elements, elem_of_dom, list_elem_of_fmap.
      split.
      + intros [v Hv]. exists (k, v). split; [reflexivity|].
        apply elem_of_map_to_list. exact Hv.
      + intros ([k' v] & -> & Hkv). apply elem_of_map_to_list in Hkv.
        cbn. eauto. }
  rewrite Hkeys.
  assert (Hall : Forall (fun kv => Contacts cl !! fst kv = Some (snd kv))
                        (map_to_list (Contacts cl))).
  { apply Forall_forall. intros [k v] Hkv. apply elem_of_map_to_list. exact Hkv. }
  clear Hkeys. revert Hall. generalize (map_to_list (Contacts cl)). intros l Hall.
  induction Hall as [|[k v] l Hkv _ IH]; [reflexivity|].
  cbn [map omap list_omap fst snd] in *. rewrite Hkv. cbn.
  rewrite IH. reflexivity.
Qed.

(** X26. [ContactUpdates] returns exactly the contacts modified after the
    cursor, whatever the order in which the map is ranged over: the result
    is a permutation of the contacts of the list whose [DateModified] is
    greater than [ts], each converted once (IDs and dates in decimal, no
    [DateUsed]); and the call only reads: the store and the held records
    are as they were. *)
Theorem ContactUpdates_filter (range : gset Z -> list Z) (user : User) (ts : Z)
    (w : World) (cl : ContactList) :
  contactsOf w (UserID user) = Some cl ->
  range_order range ->
  exists out,
    fst (ContactUpdates range user ts w) = Ok out
    /\ out ≡ₚ omap (exported ts) (map snd (map_to_list (Contacts cl)))
    /\ store (snd (ContactUpdates range user ts w)) = store w
    /\ locks (snd (ContactUpdates range user ts w)) = locks w.
Proof.
  intros Hcl Hr.
  destruct (ContactUpdates_exact range user ts w cl Hcl) as (out & Hout & Hperm).
  exists out. split; [exact Hout|]. split.
  - rewrite Hperm. apply omap_Permutation. apply ranged_map_to_list. exact Hr.
  - unfold ContactUpdates, dbind, ReadDataFile.
    rewrite (contactsOf_store _ _ _ Hcl). cbn. auto.
Qed.

Lemma exported_mono (ts ts' : Z) (v : Contact) (sc : stingle_Contact) :
  ts <= ts' -> exported ts' v = Some sc -> exported ts v = Some sc.
Proof.
  unfold exported. intros Hle.
  destruct (Z.ltb_spec ts' (c_DateModified v)); [|discriminate].
  destruct (Z.ltb_spec ts (c_DateModified v)); [auto|lia].
Qed.

Lemma omap_exported_sublist (ts ts' : Z) (l : list Contact) :
  ts <= ts' -> sublist (omap (exported ts') l) (omap (exported ts) l).
Proof.
  intros Hle. induction l as [|v l IH]; [constructor|].
  cbn [omap list_omap].
  destruct (exported ts' v) as [sc|] eqn:E'.
  - rewrite (exported_mono ts ts' v sc Hle E'). cbn. constructor. exact IH.
  - cbn. destruct (exported ts v); cbn; [constructor|]; exact IH.
Qed.

(** X27. A later cursor returns no more than an earlier one: for [ts <= ts']
    every contact that [ContactUpdates] returns for [ts'] is returned, as
    many times, for [ts]. *)
Theorem ContactUpdates_monotone (range : gset Z -> list Z) (user : User)
    (ts ts' : Z) (w : World) (cl : ContactList) :
  contactsOf w (UserID user) = Some cl ->
  range_order range -> ts <= ts' ->
  exists out out',
    fst (ContactUpdates range user ts w) = Ok out
    /\ fst (ContactUpdates range user ts' w) = Ok out'
    /\ out' ⊆+ out.
Proof.
  intros Hcl Hr Hle.
  destruct (ContactUpdates_exact range user ts w cl Hcl) as (out & Hout & Hperm).
  destruct (ContactUpdates_exact range user ts' w cl Hcl) as (out' & Hout' & Hperm').
  exists out, out'. split; [exact Hout|]. split; [exact Hout'|].
  rewrite Hperm, Hperm'. apply sublist_submseteq, omap_exported_sublist. exact Hle.
Qed.

(** The comparison of [ContactUpdates] never puts two elements each before
    the other. *)
Lemma ContactUpdates_less_asym (a b : stingle_Contact) :
  ContactUpdates_less a b = true -> ContactUpdates_less b a = false.
Proof.
  assert (Hasym : forall s t : string, String.ltb s t = true -> String.ltb t s = false).
  { intros s t. unfold String.ltb. rewrite (String.compare_antisym s t).
    destruct (String.compare t s); cbn; congruence. }
  unfold ContactUpdates_less.
  destruct (bool_decide_reflect (s_DateModified a = s_DateModified b)) as [Heq|Hne].
  - rewrite bool_decide_eq_true_2 by congruence. apply Hasym.
  - rewrite bool_decide_eq_false_2 by congruence. apply Hasym.
Qed.

(** [sort.Slice] with the comparison of [ContactUpdates] leaves no element
    followed by one that the comparison puts before it. *)
Lemma sort_Slice_ContactUpdates_less (l : list stingle_Contact) :
  Sorted (fun a b => ContactUpdates_less b a = false)
         (sort_Slice ContactUpdates_less l).
Proof.
  unfold sort_Slice. apply Sorted_merge_sort.
  intros a b.
  destruct (ContactUpdates_less b a) eqn:Hba; [|left; reflexivity].
  right. apply ContactUpdates_less_asym. exact Hba.
Qed.

(** What [ContactUpdates] returns has been through [sort.Slice]. *)
Lemma ContactUpdates_sort_Slice (range : gset Z -> list Z) (user : User) (ts : Z)
    (w : World) (out : list stingle_Contact) :
  fst (ContactUpdates range user ts w) = Ok out ->
  exists l, out = sort_Slice ContactUpdates_less l.
Proof.
  unfold ContactUpdates, dbind, ReadDataFile.
  destruct (store w !! contactListFile (UserID user)) as [v|]; [|discriminate].
  destruct (as_ContactList v) as [cl|]; [|discriminate].
  cbn [dret fst]. intros [= <-]. eexists. reflexivity.
Qed.

(** X28. The result of [ContactUpdates] is in the order of the comparison
    given to [sort.Slice]: no element is followed by one that the
    comparison puts before it. That comparison is on the strings: by
    [DateModified] as a decimal string, then by email. *)
Theorem ContactUpdates_sorted (range : gset Z -> list Z) (user : User) (ts : Z)
    (w : World) (out : list stingle_Contact) :
  fst (ContactUpdates range user ts w) = Ok out ->
  Sorted (fun a b => ContactUpdates_less b a = false) out.
Proof.
  intros Hout.
  destruct (ContactUpdates_sort_Slice range user ts w out Hout) as (l & ->).
  apply sort_Slice_ContactUpdates_less.
Qed.

Lemma omap_exported (ts : Z) (l : list Contact) :
  omap (exported ts) l
  = map updateOf (filter (fun c => ts < c_DateModified c) l).
Proof.
  induction l as [|c l IH]; [reflexivity|].
  cbn [omap list_omap]. rewrite filter_cons. unfold exported at 1.
  destruct (Z.ltb_spec ts (c_DateModified c)).
  - rewrite decide_True by assumption. cbn. rewrite <- IH. reflexivity.
  - rewrite decide_False by lia. exact IH.
Qed.

(** X29. When the dates have as many digits, [ContactUpdates] returns the
    updates in the order the update streams are specified to have. Let the
    cursor be non-negative and the [DateModified] of the contacts modified
    after it have decimal strings of one length (as millisecond timestamps
    of one era do). Then the result is the conversion of a list of exactly
    the contacts modified after the cursor, in ascending order of
    [DateModified], contacts of one date in ascending order of email. *)
Theorem ContactUpdates_ascending (range : gset Z -> list Z) (user : User) (ts : Z)
    (w : World) (cl : ContactList) :
  contactsOf w (UserID user) = Some cl ->
  range_order range ->
  0 <= ts ->
  (forall k k' c c',
     Contacts cl !! k = Some c -> Contacts cl !! k' = Some c' ->
     ts < c_DateModified c -> ts < c_DateModified c' ->
     String.length (number (c_DateModified c))
     = String.length (number (c_DateModified c'))) ->
  exists cs,
    fst (ContactUpdates range user ts w) = Ok (map updateOf cs)
    /\ cs ≡ₚ filter (fun c => ts < c_DateModified c)
               (map snd (map_to_list (Contacts cl)))
    /\ Sorted byDateThenEmail cs.
Proof.
  intros Hcl Hr Hts Hlen.
  destruct (ContactUpdates_exact range user ts w cl Hcl) as (out & Hout & Hperm).
  rewrite (ranged_map_to_list range cl Hr), omap_exported in Hperm.
  apply Permutation_map_inv in Hperm as (cs & -> & Hcs).
  exists cs. split; [exact Hout|]. split; [symmetry; exact Hcs|].
  apply (Sorted_map_weaken updateOf
           (fun a b => ContactUpdates_less b a = false) byDateThenEmail
           (fun c => ts < c_DateModified c /\ exists k, Contacts cl !! k = Some c)).
  - apply Forall_forall. intros c Hc. rewrite <- Hcs in Hc.
    apply list_elem_of_filter in Hc as [Hc Hin]. split; [exact Hc|].
    apply list_elem_of_fmap in Hin as ([k c'] & -> & Hin).
    exists k. apply elem_of_map_to_list. exact Hin.
  - intros a b [Ha [ka Hka]] [Hb [kb Hkb]] Hless.
    rewrite ContactUpdates_less_updateOf in Hless
      by (try lia; exact (Hlen kb ka b a Hkb Hka Hb Ha)).
    unfold byDateThenEmail.
    destruct (bool_decide_reflect (c_DateModified b = c_DateModified a)) as [Heq|Hne].
    + right. split; [congruence|exact Hless].
    + left. apply Z.ltb_ge in Hless. lia.
  - destruct (ContactUpdates_sort_Slice range user ts w _ Hout) as (l & ->).
    apply sort_Slice_ContactUpdates_less.
Qed.

End ContactUpdatesMore.

Lemma sample_updates_contacts :
  contactsOf sample_updates_world 1
  = Some {| database.Contacts := {[ 2 := sample_contact 2 "bob" 9;
                                    3 := sample_contact 3 "carol" 10 ]};
            database.In := ∅; database.Deletes := [] |}.
Proof. reflexivity. Qed.

(** With the cursor 9 the sample user, whose contacts were modified at 9 and
    at 10, gets the second one only. *)
Lemma ContactUpdates_filter_witness :
  exists out,
    fst (database.ContactUpdates elements sample_alice 9 sample_updates_world) = Ok out
    /\ out ≡ₚ [ {| database.s_UserID := "3"; database.s_Email := "carol";
                   database.s_PublicKey := ""; database.s_DateUsed := "";
                   database.s_DateModified := "10" |} ].
Proof.
  destruct (ContactUpdates_filter elements sample_alice 9 sample_updates_world _
              sample_updates_contacts range_order_elements)
    as (out & Hout & Hperm & _).
  exists out. split; [exact Hout|]. rewrite Hperm.
  vm_compute. reflexivity.
Defined.

(** The result for the cursor 9 is within the result for the cursor 0. *)
Lemma ContactUpdates_monotone_witness :
  exists out out',
    fst (database.ContactUpdates elements sample_alice 0 sample_updates_world) = Ok out
    /\ fst (database.ContactUpdates elements sample_alice 9 sample_updates_world) = Ok out'
    /\ out' ⊆+ out.
Proof.
  apply (ContactUpdates_monotone elements sample_alice 0 9 sample_updates_world _
           sample_updates_contacts range_order_elements).
  lia.
Defined.

(** The result for the sample user is in the order of the comparison. *)
Lemma ContactUpdates_sorted_witness :
  Sorted (fun a b => database.ContactUpdates_less b a = false) sample_updates_result.
Proof.
  apply (ContactUpdates_sorted elements sample_alice 0 sample_updates_world).
  vm_compute. reflexivity.
Defined.

(** A user with two contacts modified at 1000 and at 2000: the update of
    1000 comes first. *)
Lemma ContactUpdates_ascending_witness :
  let cl := {| database.Contacts := {[ 2 := sample_contact 2 "bob" 2000;
                                       3 := sample_contact 3 "carol" 1000 ]};
               database.In := ∅; database.Deletes := [] |} in
  let w := sample_world {[ database.contactListFile 1 := database.VContactList cl ]} [] in
  exists cs,
    fst (database.ContactUpdates elements sample_alice 0 w) = Ok (map updateOf cs)
    /\ Sorted byDateThenEmail cs
    /\ length cs = 2%nat.
Proof.
  intros cl w.
  destruct (ContactUpdates_ascending elements sample_alice 0 w cl)
    as (cs & Hout & Hperm & Hsorted).
  - reflexivity.
  - exact range_order_elements.
  - lia.
  - intros k k' c c' Hc Hc' _ _.
    assert (Hfour : forall k0 c0, database.Contacts cl !! k0 = Some c0 ->
              String.length (database.number (database.c_DateModified c0)) = 4%nat).
    { intros k0 c0 H0. unfold cl in H0. cbn [database.Contacts] in H0.
      apply lookup_insert_Some in H0 as [[_ <-]|[_ H0]]; [reflexivity|].
      apply lookup_singleton_Some in H0 as [_ <-]. reflexivity. }
    rewrite (Hfour k c Hc), (Hfour k' c' Hc'). reflexivity.
  - exists cs. split; [exact Hout|]. split; [exact Hsorted|].
    rewrite Hperm. vm_compute. reflexivity.
Defined.

(** ** A new user as a contact *)

Section Flow.
  Context `{SHA256, Encoding}.
  Import database.

Lemma Database_User_found (email : string) (ul : list userList) (i : userList)
    (c : User) (x : World) :
  store x !! userListFile = Some (VUserList ul) ->
  find (fun u => bool_decide (ul_Email u = email)) ul = Some i ->
  store x !! userFile (ul_UserID i) = Some (VUser c) ->
  Database_User email x
  = (Ok c, log_event (EvReadDataFile (userFile (ul_UserID i)))
             (log_event (EvReadDataFile userListFile) x)).
Proof.
  intros Hl Hf Hu. unfold Database_User, UserByID, dbind, ReadDataFile.
  rewrite Hl, Hf. cbn [store log_event]. rewrite Hu. reflexivity.
Qed.

(** X30. A user that [AddUser] has just added can be added as a contact by
    email. After a run of [AddUser] that returns without error, in a store
    where no record is held, [AddContact] with the new user's email, for a
    user who has a contact list, returns a contact that bears the new user's
    ID, email and encoded public key; that contact is then in the user's
    list, whose other contacts are as they were, and the new user's list,
    which has no contact, records the user in its [In] set. *)
Theorem AddUser_AddContact (d : Database) (u user : User) (ul : list userList)
    (cu : ContactList) (w w1 : World) :
  store w !! userListFile = Some (VUserList ul) ->
  locks w = ∅ ->
  AddUser d u w = (Ok tt, w1) ->
  contactsOf w (UserID user) = Some cu ->
  exists c w2,
    AddContact user (Email u) w1 = (Ok c, w2)
    /\ c_Email c = Email u
    /\ c_PublicKey c = base64_EncodeToString (PublicKey u)
    /\ (c_UserID c ∉ map ul_UserID ul)
    /\ (exists cu', contactsOf w2 (UserID user) = Some cu'
                    /\ Contacts cu' !! c_UserID c = Some c
                    /\ forall k, k <> c_UserID c ->
                                 Contacts cu' !! k = Contacts cu !! k)
    /\ (exists cn, contactsOf w2 (c_UserID c) = Some cn
                   /\ In cn !! UserID user = Some true
                   /\ Contacts cn = ∅).
Proof.
  intros Hst Hlocks Hrun Hcu.
  destruct (AddUser_Ok_inv d u ul w w1 Hst ltac:(rewrite Hlocks; apply not_elem_of_empty) Hrun)
    as (uid & sk & tk & Hno & Hfresh & _ & _ & _ & Hnone & Hl1 & Hs1).
  set (u' := {| UserID := uid; Email := Email u;
                HashedPassword := HashedPassword u; Salt := Salt u;
                HomeFolder := hex_EncodeToString
                  (Database_Hash d (list_byte_of_string (Email u)));
                KeyBundle := KeyBundle u; IsBackup := IsBackup u;
                ServerKey := sk; PublicKey := PublicKey u; TokenKey := tk |}) in *.
  assert (Hne : UserID user <> uid).
  { intros Heq. apply contactsOf_store in Hcu. rewrite Heq in Hcu. congruence. }
  set (x := log_event (EvReadDataFile (userFile uid))
              (log_event (EvReadDataFile userListFile) w1)).
  assert (HU : Database_User (Email u) w1 = (Ok u', x)).
  { apply (Database_User_found (Email u)
             (ul ++ [{| ul_UserID := uid; ul_Email := Email u |}])
             {| ul_UserID := uid; ul_Email := Email u |}).
    - rewrite Hs1. apply lookup_insert_eq.
    - apply find_Email_app; [exact Hno|reflexivity].
    - cbn [ul_UserID]. rewrite Hs1, !lookup_insert_ne by discriminate.
      apply lookup_insert_eq. }
  assert (Hxu : contactsOf x (UserID user) = Some cu).
  { unfold contactsOf, x. cbn [store log_event]. rewrite Hs1.
    rewrite !lookup_insert_ne by (discriminate || congruence).
    apply contactsOf_store in Hcu. rewrite Hcu. reflexivity. }
  assert (Hxn : contactsOf x uid = Some emptyContactList).
  { unfold contactsOf, x. cbn [store log_event]. rewrite Hs1.
    rewrite lookup_insert_ne by discriminate. rewrite lookup_insert_eq.
    reflexivity. }
  assert (Hfree : forall f, f ∉ locks x).
  { intros f. unfold x. cbn [locks log_event]. rewrite Hl1, Hlocks.
    apply not_elem_of_empty. }
  destruct (addContactToUser_run user u' cu emptyContactList x Hne Hxu Hxn
              (Hfree _) (Hfree _)) as (w2 & Hadd & _ & Hs2).
  cbn [UserID u'] in Hadd, Hs2.
  eexists _, w2. split.
  { unfold AddContact, dbind. rewrite HU. exact Hadd. }
  cbn [contactFor c_Email c_PublicKey c_UserID u' Email PublicKey UserID].
  split; [reflexivity|]. split; [reflexivity|]. split; [exact Hfresh|].
  split.
  - eexists. split; [unfold contactsOf; rewrite Hs2, lookup_insert_eq; reflexivity|].
    cbn [Contacts set_Contacts]. split; [apply lookup_insert_eq|].
    intros k Hk. apply lookup_insert_ne. congruence.
  - eexists. split.
    + unfold contactsOf. rewrite Hs2, lookup_insert_ne by congruence.
      rewrite lookup_insert_eq. reflexivity.
    + cbn [In Contacts set_In emptyContactList].
      split; [apply lookup_insert_eq|reflexivity].
Qed.

End Flow.

(** "bob" is added on the sample instances, then added as a contact of user
    1, who has an empty contact list. *)
Lemma AddUser_AddContact_witness :
  let w := sample_world
             {[ database.userListFile := database.VUserList sample_users;
                database.contactListFile 1 :=
                  database.VContactList database.emptyContactList ]}
             ([x00; x00; x00; x05; x00; x00; x00; x07] ++ repeat x00 64) in
  let w1 := snd (database.AddUser sample_db (sample_user "bob") w) in
  exists c w2,
    database.AddContact sample_alice "bob" w1 = (Ok c, w2)
    /\ database.c_Email c = "bob"%string
    /\ exists cn, contactsOf w2 (database.c_UserID c) = Some cn
                  /\ database.In cn !! 1 = Some true.
Proof.
  intros w w1.
  assert (Hrun : database.AddUser sample_db (sample_user "bob") w = (Ok tt, w1)).
  { rewrite (surjective_pairing (database.AddUser sample_db (sample_user "bob") w)).
    f_equal; vm_compute; reflexivity. }
  destruct (AddUser_AddContact sample_db (sample_user "bob") sample_alice
              sample_users database.emptyContactList w w1)
    as (c & w2 & Hadd & He & _ & _ & _ & cn & Hcn & Hin & _).
  - reflexivity.
  - reflexivity.
  - exact Hrun.
  - reflexivity.
  - exists c, w2. split; [exact Hadd|]. split; [exact He|].
    exists cn. split; [exact Hcn|exact Hin].
Defined.
